(** * telegram-chatbot: the formatting, chunking and session logic of [main.py]

    A shallow embedding of the pure text pipeline ([escape_markdown_v2],
    [split_message], [format_for_telegram_simple]) and of the stateful
    handlers around the session store and the model cache, followed by the
    properties proved about them. *)

From Stdlib Require Import ZArith List Ascii String Lia Bool.
From stdpp Require Import gmap strings list.

Local Open Scope Z_scope.

(** ** Python strings

    A [str] is a sequence of code points.  The embedding uses the code points
    below 256, so a character is an [ascii]; [len], slicing and [rfind] follow
    CPython, negative and out-of-range indices included. *)

Abbreviation str := (list ascii).

Definition lit (s : string) : str := list_ascii_of_string s.

(** The newline character (the string syntax has no escape for it). *)
Definition NL : ascii := ascii_of_nat 10.
Definition BACKSLASH : ascii := ascii_of_nat 92.
Definition BACKTICK : ascii := ascii_of_nat 96.

Definition len (t : str) : Z := Z.of_nat (length t).

(** CPython's adjustment of a slice bound [k] for a sequence of length [n]:
    a negative bound counts from the end, and the result is clipped to
    [0..n]. *)
Definition adjust_index (n k : Z) : nat :=
  Z.to_nat (if k <? 0 then Z.max 0 (k + n) else Z.min k n).

(** [t[:k]] and [t[k:]]. *)
Definition slice_to (t : str) (k : Z) : str := take (adjust_index (len t) k) t.
Definition slice_from (t : str) (k : Z) : str := drop (adjust_index (len t) k) t.

(** [t.startswith(p)]. *)
Fixpoint startswith (p t : str) : bool :=
  match p, t with
  | [], _ => true
  | _ :: _, [] => false
  | a :: p', b :: t' => Ascii.eqb a b && startswith p' t'
  end.

(** The backward scan of [rfind]: the highest start [j <= i] at which [sep]
    occurs in [w], or [-1]. *)
Fixpoint rfind_down (w sep : str) (i : nat) : Z :=
  if startswith sep (drop i w) then Z.of_nat i
  else match i with
       | O => -1
       | S i' => rfind_down w sep i'
       end.

(** [t.rfind(sep, 0, e)]: the highest index at which [sep] occurs inside
    [t[0:e]], or [-1]; the empty separator is found at the (adjusted) end. *)
Definition rfind (t sep : str) (e : Z) : Z :=
  let w := slice_to t e in
  if (length w <? length sep)%nat then -1
  else rfind_down w sep (length w - length sep).

(** ** The chunker: [split_message] *)

Definition DEFAULT_MAX_LENGTH : Z := 4000.

(** The separators of the [for sep in [...]] loop, in its order. *)
Definition separators : list str :=
  [ [NL; NL]; [NL]; lit ". "; lit " "; [] ].

(** The [for sep in ...] loop: [split_pos] starts at [max_length] and is
    replaced by the first candidate whose position exceeds
    [max_length // 2]. *)
Fixpoint find_split (t : str) (max_length : Z) (seps : list str) : Z :=
  match seps with
  | [] => max_length
  | sep :: rest =>
      let pos := rfind t sep max_length in
      if pos >? max_length / 2 then pos + len sep
      else find_split t max_length rest
  end.

(** The [while len(text) > max_length] loop.  Each unit of fuel pays for one
    iteration; [None] means the fuel ran out with the loop still running. *)
Fixpoint split_loop (fuel : nat) (t : str) (max_length : Z) (chunks : list str)
  : option (list str * str) :=
  if len t >? max_length then
    match fuel with
    | O => None
    | S fuel' =>
        let split_pos := find_split t max_length separators in
        split_loop fuel' (slice_from t split_pos) max_length
                   (chunks ++ [slice_to t split_pos])
    end
  else Some (chunks, t).

Definition split_message_fuel (fuel : nat) (t : str) (max_length : Z)
  : option (list str) :=
  if len t <=? max_length then Some [t]
  else match split_loop fuel t max_length [] with
       | None => None
       | Some (chunks, rest) =>
           Some (match rest with [] => chunks | _ :: _ => chunks ++ [rest] end)
       end.

(** [split_message text max_length], run with one unit of fuel per input
    character, which is enough whenever [max_length >= 1]
    ([split_loop_spec]); with a smaller [max_length] the loop of
    the source can run forever, and the answer is [None]. *)
Definition split_message (t : str) (max_length : Z) : option (list str) :=
  split_message_fuel (length t) t max_length.

(** ** The fragment of [re] that [main.py] uses

    A backtracking matcher in continuation-passing style: the continuation
    receives the rest of the input and the groups captured so far, and
    answering [None] makes the matcher try its next alternative, in the
    order of Python's engine (greedy: longest first; lazy: shortest first). *)

Inductive regex : Type :=
| Str (l : str)                              (* a literal string *)
| Cls (p : ascii -> bool)                    (* one character of a class *)
| Star (greedy : bool) (p : ascii -> bool)   (* [p*] and [p*?] over a class *)
| Opt (c : ascii)                            (* [c?] *)
| Cat (r1 r2 : regex)
| Group (n : nat) (r : regex).               (* capturing group number [n] *)

Definition captures := list (nat * str).

(** [m.group(n)]; a group that took no part reads as the empty string. *)
Fixpoint group (caps : captures) (n : nat) : str :=
  match caps with
  | [] => []
  | (k, v) :: rest => if (k =? n)%nat then v else group rest n
  end.

Fixpoint star_greedy {A} (p : ascii -> bool) (s : str) (k : str -> option A)
  : option A :=
  match s with
  | c :: s' =>
      if p c then
        match star_greedy p s' k with
        | Some r => Some r
        | None => k s
        end
      else k s
  | [] => k s
  end.

Fixpoint star_lazy {A} (p : ascii -> bool) (s : str) (k : str -> option A)
  : option A :=
  match k s with
  | Some r => Some r
  | None =>
      match s with
      | c :: s' => if p c then star_lazy p s' k else None
      | [] => None
      end
  end.

(** [c?]: take the character when it is there, and give it back when the
    rest of the pattern fails after it. *)
Definition opt_char {A} (c : ascii) (s : str) (k : str -> option A) : option A :=
  match s with
  | c' :: s' =>
      if Ascii.eqb c c' then
        match k s' with
        | Some r => Some r
        | None => k s
        end
      else k s
  | [] => k s
  end.

Fixpoint run {A} (r : regex) (s : str) (caps : captures)
    (k : str -> captures -> option A) : option A :=
  match r with
  | Str l => if startswith l s then k (drop (length l) s) caps else None
  | Cls p =>
      match s with
      | c' :: s' => if p c' then k s' caps else None
      | [] => None
      end
  | Star true p => star_greedy p s (fun s' => k s' caps)
  | Star false p => star_lazy p s (fun s' => k s' caps)
  | Opt c => opt_char c s (fun s' => k s' caps)
  | Cat r1 r2 => run r1 s caps (fun s' caps' => run r2 s' caps' k)
  | Group n r =>
      run r s caps
          (fun s' caps' => k s' ((n, take (length s - length s') s) :: caps'))
  end.

(** [re.match(r, s)]: the groups of the match at the start of [s] and the
    text after it. *)
Definition re_match (r : regex) (s : str) : option (captures * str) :=
  run r s [] (fun rest caps => Some (caps, rest)).

(** [re.search(r, s)]: the leftmost match, with the text before it. *)
Fixpoint re_search (r : regex) (s : str) : option (str * (captures * str)) :=
  match re_match r s with
  | Some m => Some ([], m)
  | None =>
      match s with
      | [] => None
      | c :: s' =>
          match re_search r s' with
          | Some (before, m) => Some (c :: before, m)
          | None => None
          end
      end
  end.

(** [re.split(r, s)] for a pattern with groups [1..ngroups]: the text between
    matches, with the groups of each match in between.  One unit of fuel per
    match; the patterns here consume at least one character per match, so
    [length s] units suffice ([re_split_unfold]). *)
Fixpoint re_split_fuel (fuel : nat) (r : regex) (ngroups : nat) (s : str)
  : list str :=
  match re_search r s with
  | None => [s]
  | Some (before, (caps, rest)) =>
      match fuel with
      | O => [s]
      | S fuel' =>
          before :: map (group caps) (seq 1 ngroups)
            ++ re_split_fuel fuel' r ngroups rest
      end
  end.

Definition re_split (r : regex) (ngroups : nat) (s : str) : list str :=
  re_split_fuel (length s) r ngroups s.

(** A replacement template: literal characters and group references. *)
Inductive repl_item := RChr (c : ascii) | RGroup (n : nat).

Definition expand (template : list repl_item) (caps : captures) : str :=
  flat_map (fun i => match i with RChr c => [c] | RGroup n => group caps n end)
           template.

(** [re.sub(r, template, s)], with the fuel of [re_split_fuel]. *)
Fixpoint re_sub_fuel (fuel : nat) (r : regex) (template : list repl_item)
    (s : str) : str :=
  match re_search r s with
  | None => s
  | Some (before, (caps, rest)) =>
      match fuel with
      | O => s
      | S fuel' =>
          before ++ expand template caps ++ re_sub_fuel fuel' r template rest
      end
  end.

Definition re_sub (r : regex) (template : list repl_item) (s : str) : str :=
  re_sub_fuel (length s) r template s.

(** Character classes, for code points below 256 as CPython classifies them:
    [\w] is [str.isalnum] or the underscore, and [str.strip] removes what
    [str.isspace] accepts. *)
Definition in_range (lo hi : nat) (c : ascii) : bool :=
  let n := nat_of_ascii c in ((lo <=? n) && (n <=? hi))%nat.

Definition is_word (c : ascii) : bool :=
  in_range 48 57 c || in_range 65 90 c || in_range 97 122 c
  || in_range 95 95 c
  || in_range 170 170 c || in_range 178 179 c || in_range 181 181 c
  || in_range 185 186 c || in_range 188 190 c
  || in_range 192 214 c || in_range 216 246 c || in_range 248 255 c.

Definition isspace (c : ascii) : bool :=
  in_range 9 13 c || in_range 28 32 c || in_range 133 133 c
  || in_range 160 160 c.

(** The dot under [re.DOTALL]. *)
Definition any_char (c : ascii) : bool := true.

(** [t.rstrip(chars)] and [t.lstrip(chars)], the set given as a predicate. *)
Fixpoint rstrip (p : ascii -> bool) (t : str) : str :=
  match t with
  | [] => []
  | c :: t' =>
      match rstrip p t' with
      | [] => if p c then [] else [c]
      | r => c :: r
      end
  end.

Fixpoint lstrip (p : ascii -> bool) (t : str) : str :=
  match t with
  | [] => []
  | c :: t' => if p c then lstrip p t' else t
  end.

(** [t.strip()]. *)
Definition strip (t : str) : str := lstrip isspace (rstrip isspace t).

(** ** The formatter: [escape_markdown_v2] and [format_for_telegram_simple] *)

Definition special_chars : str := lit "_*[]()~`>#+-=|{}.!".

(** The class [[...]] built from [re.escape(special_chars)]. *)
Definition is_special (c : ascii) : bool :=
  existsb (Ascii.eqb c) special_chars.

(** [re.sub('([...])', r'\\\1', text)]. *)
Definition escape_markdown_v2 (t : str) : str :=
  re_sub (Group 1 (Cls is_special)) [RChr BACKSLASH; RGroup 1] t.

Definition FENCE : str := lit "```".

(** The pattern of [re.split]: one group around a fence, an optional run of
    word characters, an optional newline, a lazy run of any characters and
    the closing fence. *)
Definition fence_split_re : regex :=
  Group 1 (Cat (Str FENCE)
    (Cat (Star true is_word)
      (Cat (Opt NL) (Cat (Star false any_char) (Str FENCE))))).

(** The pattern of [re.match]: the same sequence, with group 1 around the
    word characters and group 2 around the lazy run. *)
Definition fence_match_re : regex :=
  Cat (Str FENCE)
    (Cat (Group 1 (Star true is_word))
      (Cat (Opt NL)
        (Cat (Group 2 (Star false any_char)) (Str FENCE)))).

Inductive part_type := code | text.

(** The body of the [for part in parts] loop: what one part appends to
    [result]. *)
Definition format_part (part : str) : list (part_type * str) :=
  if startswith FENCE part then
    match re_match fence_match_re part with
    | Some (caps, _) =>
        let escaped := escape_markdown_v2 (rstrip (Ascii.eqb NL) (group caps 2)) in
        [(code, FENCE ++ [NL] ++ escaped ++ [NL] ++ FENCE)]
    | None => []
    end
  else
    match strip part with
    | [] => []
    | _ :: _ => [(text, escape_markdown_v2 part)]
    end.

Definition format_for_telegram_simple (t : str) : list (part_type * str) :=
  flat_map format_part (re_split fence_split_re 1 t).

(** [t.replace(old, new)] for a non-empty [old]: occurrences are replaced
    from the left, without overlap; [skip] counts the characters of the
    occurrence just replaced that are still to be passed over. *)
Fixpoint replace_from (old new t : str) (skip : nat) : str :=
  match t with
  | [] => []
  | c :: t' =>
      match skip with
      | S k => replace_from old new t' k
      | O =>
          if startswith old t
          then new ++ replace_from old new t' (length old - 1)
          else c :: replace_from old new t' 0
      end
  end.

Definition replace (old new t : str) : str := replace_from old new t 0.

(** [x or y] on strings: the empty string is false. *)
Definition str_or (x y : str) : str :=
  match x with [] => y | _ :: _ => x end.

(** ** The outside world

    The Gemini SDK, the Telegram API and the clock are not part of the
    program.  A [world] fixes what each of their calls answers; a call made
    when [tick] calls were made before it is answered by the oracle at
    [tick], so that equal calls may be answered differently.  Constructing a
    [GenerativeModel] makes no request: whether it raises is decided by the
    model name alone.  A listing of the models either yields all its entries
    or raises (the program keeps nothing of a listing that raised), and the
    clock is read in whole seconds. *)

(** The text of an exception, [str(e)]. *)
Definition exn := str.

Inductive outcome (A : Type) : Type :=
| Ok (a : A)
| Raise (e : exn).
Arguments Ok {A} a.
Arguments Raise {A} e.

(** One entry of [genai.list_models()]. *)
Record model_info := {
  m_name : str;
  m_supported_generation_methods : list str;
  m_display_name : option str
}.

Inductive content_part :=
| PText (t : str)
| PImage (mime_type : str) (data : list ascii).

Inductive role := role_user | role_model.

(** A [ChatSession] object: the model it is bound to and its history. *)
Record ChatSession := {
  chat_model : str;
  history : list (role * list content_part)
}.

Inductive parse_mode := MARKDOWN_V2.

(** What a message says.  The fixed texts of the handlers are constructors
    with the values formatted into them as arguments; [Text] is a string
    passed as it is. *)
Inductive body :=
| Text (t : str)
| StartBanner (model_display : str)
| HelpText
| ModelsMenu (models : gmap str str) (current_model : str)
| FetchFailed
| SwitchedCleared (display_name : str)
| Switched (display_name : str)
| SwitchFailed (e : exn)
| MemoryCleared
| ErrorNotice (e : exn).

(** A call of the Telegram API. *)
Inductive api_call :=
| reply_text (b : body) (mode : option parse_mode)
| edit_message_text (b : body) (mode : option parse_mode)
| query_answer.

Record world := {
  GenerativeModel_raises : str -> option exn;
  list_models : nat -> outcome (list model_info);
  time_time : nat -> Z;
  telegram : nat -> api_call -> option exn;
  download_photo : nat -> outcome (list ascii);
  send_message_async : nat -> ChatSession -> list content_part -> outcome str
}.

(** ** The program state *)

(** An entry of [user_data]: ["chat"] refers to a [ChatSession] object by its
    index in [objects], ["model_name"] is the name it was created for. *)
Record session := {
  chat : nat;
  model_name : str
}.

Record state := {
  user_data : gmap Z session;
  _model_cache : option (gmap str str);
  _model_cache_time : Z;
  objects : list ChatSession;
  sent : list (api_call * option exn);
  tick : nat
}.

Definition initial_state : state :=
  {| user_data := ∅; _model_cache := None; _model_cache_time := 0;
     objects := []; sent := []; tick := 0 |}.

Definition set_user_data (f : gmap Z session -> gmap Z session) (st : state) : state :=
  {| user_data := f (user_data st); _model_cache := _model_cache st;
     _model_cache_time := _model_cache_time st; objects := objects st;
     sent := sent st; tick := tick st |}.

Definition set_model_cache (c : option (gmap str str)) (st : state) : state :=
  {| user_data := user_data st; _model_cache := c;
     _model_cache_time := _model_cache_time st; objects := objects st;
     sent := sent st; tick := tick st |}.

Definition set_model_cache_time (t : Z) (st : state) : state :=
  {| user_data := user_data st; _model_cache := _model_cache st;
     _model_cache_time := t; objects := objects st;
     sent := sent st; tick := tick st |}.

Definition set_objects (f : list ChatSession -> list ChatSession) (st : state) : state :=
  {| user_data := user_data st; _model_cache := _model_cache st;
     _model_cache_time := _model_cache_time st; objects := f (objects st);
     sent := sent st; tick := tick st |}.

Definition log_sent (c : api_call) (o : option exn) (st : state) : state :=
  {| user_data := user_data st; _model_cache := _model_cache st;
     _model_cache_time := _model_cache_time st; objects := objects st;
     sent := sent st ++ [(c, o)]; tick := tick st |}.

Definition next_tick (st : state) : state :=
  {| user_data := user_data st; _model_cache := _model_cache st;
     _model_cache_time := _model_cache_time st; objects := objects st;
     sent := sent st; tick := S (tick st) |}.

(** ** Computations: state passing with exceptions *)

Definition M (A : Type) : Type := world -> state -> outcome A * state.

Definition ret {A} (a : A) : M A := fun _ st => (Ok a, st).

Definition raise {A} (e : exn) : M A := fun _ st => (Raise e, st).

Definition bind {A B} (m : M A) (k : A -> M B) : M B :=
  fun w st =>
    match m w st with
    | (Ok a, st') => k a w st'
    | (Raise e, st') => (Raise e, st')
    end.

(** [try: m except Exception as e: handler e]. *)
Definition try_except {A} (m : M A) (handler : exn -> M A) : M A :=
  fun w st =>
    match m w st with
    | (Ok a, st') => (Ok a, st')
    | (Raise e, st') => handler e w st'
    end.

Notation "'let*' x ':=' m 'in' k" := (bind m (fun x => k))
  (at level 10, x name, m at level 100, k at level 200).
Notation "m ';;' k" := (bind m (fun _ => k))
  (at level 100, k at level 200, right associativity).

Definition get_state : M state := fun _ st => (Ok st, st).
Definition modify (f : state -> state) : M unit := fun _ st => (Ok tt, f st).

(** [genai.GenerativeModel(name)]; the handle is the name it was built for. *)
Definition GenerativeModel (name : str) : M str :=
  fun w st =>
    match GenerativeModel_raises w name with
    | None => (Ok name, st)
    | Some e => (Raise e, st)
    end.

(** [model.start_chat(history=[])]: a new [ChatSession] object. *)
Definition start_chat (model : str) : M nat :=
  fun _ st =>
    (Ok (length (objects st)),
     set_objects (fun os => os ++ [{| chat_model := model; history := [] |}]) st).

(** [time.time()]. *)
Definition time_now : M Z :=
  fun w st => (Ok (time_time w (tick st)), next_tick st).

(** Iterating [genai.list_models()] to its end. *)
Definition list_models_all : M (list model_info) :=
  fun w st => (list_models w (tick st), next_tick st).

(** A call of the Telegram API, logged in [sent] with its outcome. *)
Definition call_telegram (c : api_call) : M unit :=
  fun w st =>
    let o := telegram w (tick st) c in
    let st' := next_tick (log_sent c o st) in
    match o with
    | None => (Ok tt, st')
    | Some e => (Raise e, st')
    end.

(** ** Model discovery: [get_available_models] *)

Definition DEFAULT_MODEL : str := lit "gemini-2.0-flash".
Definition MODEL_CACHE_TTL : Z := 300.

Definition FALLBACK_MODELS : gmap str str :=
  list_to_map
    [ (lit "gemini-2.0-flash", lit "Gemini 2.0 Flash");
      (lit "gemini-1.5-pro", lit "Gemini 1.5 Pro");
      (lit "gemini-1.5-flash", lit "Gemini 1.5 Flash") ].

(** [x in l] for a list of strings. *)
Definition str_in (x : str) (l : list str) : bool :=
  bool_decide (x ∈ l).

(** The body of the [for m in genai.list_models()] loop. *)
Definition add_model (models : gmap str str) (m : model_info) : gmap str str :=
  if str_in (lit "generateContent") (m_supported_generation_methods m) then
    let model_id := replace (lit "models/") [] (m_name m) in
    let display_name :=
      match m_display_name m with
      | Some d => str_or d model_id
      | None => model_id
      end in
    <[model_id := display_name]> models
  else models.

Definition get_available_models : M (gmap str str) :=
  let* st := get_state in
  let* cached :=
    match _model_cache st with
    | None => ret None
    | Some c =>
        let* now := time_now in
        ret (if now - _model_cache_time st <? MODEL_CACHE_TTL then Some c else None)
    end in
  match cached with
  | Some c => ret c
  | None =>
      try_except
        (let* listed := list_models_all in
         let models := fold_left add_model listed ∅ in
         modify (set_model_cache (Some models));;
         let* now := time_now in
         modify (set_model_cache_time now);;
         ret models)
        (fun e =>
           let* st' := get_state in
           match _model_cache st' with
           | Some c => ret c
           | None =>
               modify (set_model_cache (Some FALLBACK_MODELS));;
               let* now := time_now in
               modify (set_model_cache_time now);;
               ret FALLBACK_MODELS
           end)
  end.

Definition get_model_display_name (model_id : str) : M str :=
  let* models := get_available_models in
  ret (default model_id (models !! model_id)).

(** ** The session store and the handlers *)

(** What a handler reads of an [Update] and its [context]. *)
Record update := {
  effective_user_id : Z;
  message_text : option str;
  message_caption : option str;
  message_photo : bool;
  callback_data : str;
  context_args : list str
}.

Definition get_user_chat (user_id : Z) (name : str) : M session :=
  let* st := get_state in
  match user_data st !! user_id with
  | Some s => ret s
  | None =>
      let* model := GenerativeModel name in
      let* c := start_chat model in
      let s := {| chat := c; model_name := name |} in
      modify (set_user_data <[user_id := s]>);;
      ret s
  end.

(** [user_data.get(user_id, {}).get("model_name", DEFAULT_MODEL)]. *)
Definition current_model_name (st : state) (user_id : Z) : str :=
  match user_data st !! user_id with
  | Some s => model_name s
  | None => DEFAULT_MODEL
  end.

Definition start (u : update) : M unit :=
  let* data := get_user_chat (effective_user_id u) DEFAULT_MODEL in
  let* model_display := get_model_display_name (model_name data) in
  call_telegram (reply_text (StartBanner model_display) None).

Definition help_cmd (u : update) : M unit :=
  call_telegram (reply_text HelpText (Some MARKDOWN_V2)).

Definition models_cmd (u : update) : M unit :=
  let* st := get_state in
  let current_model := current_model_name st (effective_user_id u) in
  let* models := get_available_models in
  if bool_decide (models = ∅) then
    call_telegram (reply_text FetchFailed None)
  else
    call_telegram (reply_text (ModelsMenu models current_model) (Some MARKDOWN_V2)).

(** [user_data[user_id] = {"chat": genai.GenerativeModel(name).start_chat(history=[]),
    "model_name": name}]. *)
Definition replace_session (user_id : Z) (name : str) : M unit :=
  let* model := GenerativeModel name in
  let* c := start_chat model in
  modify (set_user_data <[user_id := {| chat := c; model_name := name |}]>).

(** [data.split(":", 1)]. *)
Fixpoint split_once (sep : ascii) (t : str) : list str :=
  match t with
  | [] => [[]]
  | c :: t' =>
      if Ascii.eqb c sep then [[]; t']
      else match split_once sep t' with
           | first :: others => (c :: first) :: others
           | [] => []
           end
  end.

Definition COLON : ascii := ascii_of_nat 58.

Definition model_callback (u : update) : M unit :=
  call_telegram query_answer;;
  let user_id := effective_user_id u in
  let data := callback_data u in
  if startswith (lit "model:") data then
    match split_once COLON data with
    | [_; new_model] =>
        try_except
          (GenerativeModel new_model;;
           replace_session user_id new_model;;
           let* display_name := get_model_display_name new_model in
           call_telegram
             (edit_message_text (SwitchedCleared display_name) (Some MARKDOWN_V2)))
          (fun e => call_telegram (edit_message_text (SwitchFailed e) None))
    | _ => raise (lit "list index out of range")
    end
  else ret tt.

Definition switch_model (u : update) : M unit :=
  let user_id := effective_user_id u in
  match context_args u with
  | [] => models_cmd u
  | new_model_name :: _ =>
      try_except
        (GenerativeModel new_model_name;;
         replace_session user_id new_model_name;;
         let* display_name := get_model_display_name new_model_name in
         call_telegram (reply_text (Switched display_name) (Some MARKDOWN_V2)))
        (fun e => call_telegram (reply_text (SwitchFailed e) None))
  end.

Definition new_chat (u : update) : M unit :=
  let user_id := effective_user_id u in
  let* st := get_state in
  let name := current_model_name st user_id in
  replace_session user_id name;;
  call_telegram (reply_text MemoryCleared None).

(** ** The conversation relay: [chat_handler]

    The typing indicator ([keep_typing]) runs beside the handler as a task of
    its own; it touches neither the session store nor the reply and is left
    out.  Its [send_chat_action] calls are therefore not in [sent], which
    holds the messages and acknowledgements of the handlers only, and its
    failures, which it catches itself, never reach the handler. *)

Definition DEFAULT_PROMPT : str := lit "What's in this image?".

(** [photo[-1].get_file()] and [download_as_bytearray()]. *)
Definition fetch_photo : M (list ascii) :=
  fun w st => (download_photo w (tick st), next_tick st).

(** [chat_session.send_message_async(content)] and [response.text]: on
    success the SDK appends the turn and its answer to the history of the
    object; a failed call leaves the history as it was. *)
Definition send_message (c : nat) (content : list content_part) : M str :=
  fun w st =>
    match objects st !! c with
    | None => (Raise (lit "no such object"), st)
    | Some cs =>
        match send_message_async w (tick st) cs content with
        | Ok reply =>
            let cs' := {| chat_model := chat_model cs;
                          history := history cs ++
                            [(role_user, content); (role_model, [PText reply])] |} in
            (Ok reply, next_tick (set_objects <[c := cs']> st))
        | Raise e => (Raise e, next_tick st)
        end
    end.

(** [for x in l: body x]. *)
Fixpoint for_each {A} (l : list A) (body : A -> M unit) : M unit :=
  match l with
  | [] => ret tt
  | x :: l' => body x;; for_each l' body
  end.

(** [split_message(part_text)] with the default [max_length], which always
    returns ([split_message_default_returns]). *)
Definition split_message_default (t : str) : list str :=
  default [] (split_message t DEFAULT_MAX_LENGTH).

(** The two [try]/[except] blocks around a chunk; both branches of
    [if part_type == 'code'] hold the same statements. *)
Definition deliver_chunk (pt : part_type) (chunk : str) : M unit :=
  match pt with
  | code =>
      try_except
        (call_telegram (reply_text (Text chunk) (Some MARKDOWN_V2)))
        (fun _ => call_telegram (reply_text (Text (replace [BACKSLASH] [] chunk)) None))
  | text =>
      try_except
        (call_telegram (reply_text (Text chunk) (Some MARKDOWN_V2)))
        (fun _ => call_telegram (reply_text (Text (replace [BACKSLASH] [] chunk)) None))
  end.

(** The loop over [formatted_parts] and, inside it, over the chunks. *)
Definition deliver_reply (formatted_parts : list (part_type * str)) : M unit :=
  for_each formatted_parts
    (fun part => for_each (split_message_default (snd part)) (deliver_chunk (fst part))).

Definition chat_handler (u : update) : M unit :=
  let user_id := effective_user_id u in
  let user_text :=
    str_or (default [] (message_text u))
           (str_or (default [] (message_caption u)) DEFAULT_PROMPT) in
  let* data := get_user_chat user_id DEFAULT_MODEL in
  let chat_session := chat data in
  try_except
    (let* content :=
       if message_photo u then
         let* photo_bytes := fetch_photo in
         ret [PText user_text; PImage (lit "image/jpeg") photo_bytes]
       else ret [PText user_text] in
     let* reply := send_message chat_session content in
     deliver_reply (format_for_telegram_simple reply))
    (fun e => call_telegram (reply_text (ErrorNotice e) None)).

(** ** Runs of the bot

    An event is one invocation of a handler, by whichever route (command,
    button or menu label) the dispatcher took to it.  Handlers run one after
    the other: the interleaving of two handlers at their [await] points is
    not modelled. *)

Inductive event :=
| on_start | on_help | on_models | on_model | on_callback | on_new | on_chat.

Definition handle (e : event) (u : update) : M unit :=
  match e with
  | on_start => start u
  | on_help => help_cmd u
  | on_models => models_cmd u
  | on_model => switch_model u
  | on_callback => model_callback u
  | on_new => new_chat u
  | on_chat => chat_handler u
  end.

(** The states the bot can be in: the initial one, and any state a handler
    leaves behind, whether it returned or raised. *)
Inductive reachable (w : world) : state -> Prop :=
| reachable_initial : reachable w initial_state
| reachable_step st e u :
    reachable w st -> reachable w (snd (handle e u w st)).

(** ** Vocabulary of the statements *)

(** [sep] occurs in [t] at index [p]. *)
Definition occurs_at (sep t : str) (p : Z) : Prop :=
  exists before after, t = before ++ sep ++ after /\ len before = p.


(** What escaping does to one character. *)
Definition escape_char (c : ascii) : str :=
  if is_special c then [BACKSLASH; c] else [c].

(** The first fence in [s]: the text before it and the text after it. *)
Fixpoint find_fence (s : str) : option (str * str) :=
  if startswith FENCE s then Some ([], drop 3 s)
  else match s with
       | [] => None
       | c :: s' =>
           match find_fence s' with
           | Some (b, a) => Some (c :: b, a)
           | None => None
           end
       end.

(** A continuation that succeeds exactly on the inputs that hold a fence. *)
Definition needs_fence {A} (K : str -> option A) : Prop :=
  forall s, K s = None <-> find_fence s = None.

Definition skip_newline (s : str) : str :=
  match s with
  | c :: s' => if Ascii.eqb NL c then s' else s
  | [] => []
  end.

(** The longest prefix of [s] whose characters satisfy [p]. *)
Fixpoint take_while (p : ascii -> bool) (s : str) : str :=
  match s with
  | c :: s' => if p c then c :: take_while p s' else []
  | [] => []
  end.

(** A fenced block read at the start of [s]: its language tag, its body and
    the text after its closing fence. *)
Definition read_block (s : str) : option (str * str * str) :=
  if startswith FENCE s then
    let s1 := drop 3 s in
    match find_fence (skip_newline (lstrip is_word s1)) with
    | Some (body, after) => Some (take_while is_word s1, body, after)
    | None => None
    end
  else None.


(** The leftmost fenced block of [s]: the text before it, the block and the
    text after it. *)
Fixpoint next_block (s : str) : option (str * (str * str)) :=
  match read_block s with
  | Some (_, _, after) => Some ([], (take (length s - length after) s, after))
  | None =>
      match s with
      | [] => None
      | c :: s' =>
          match next_block s' with
          | Some (before, m) => Some (c :: before, m)
          | None => None
          end
      end
  end.



(** [t] ends with the character [c]. *)
Definition ends_with (c : ascii) (t : str) : Prop := exists t', t = t' ++ [c].

(** The wrapping of an escaped body in an untagged fence. *)
Definition fenced (escaped : str) : str := FENCE ++ [NL] ++ escaped ++ [NL] ++ FENCE.

(** The body with a single trailing newline removed, as the specification
    words it. *)
Fixpoint spec_strip_one_newline (t : str) : str :=
  match t with
  | [] => []
  | [c] => if Ascii.eqb NL c then [] else [c]
  | c :: t' => c :: spec_strip_one_newline t'
  end.

(** The code segment the specification describes for a body: one trailing
    newline removed, then escaped and fenced. *)
Definition spec_code_segment (body : str) : str :=
  fenced (escape_markdown_v2 (spec_strip_one_newline body)).

(** A block whose body ["x\n\n"] ends in two newlines. *)
Definition two_newline_block : str := FENCE ++ [NL] ++ lit "x" ++ [NL; NL] ++ FENCE.









(** Whether [get_available_models] serves the cache without a query. *)
Definition cache_fresh (w : world) (st : state) : bool :=
  match _model_cache st with
  | None => false
  | Some _ => time_time w (tick st) - _model_cache_time st <? MODEL_CACHE_TTL
  end.

(** The tick at which [get_available_models] queries the provider: reading
    the clock for the cache check comes first when there is a cache. *)
Definition query_tick (st : state) : nat :=
  match _model_cache st with
  | None => tick st
  | Some _ => S (tick st)
  end.

(** The parts of the state that model discovery leaves alone. *)
Definition same_sessions (st st' : state) : Prop :=
  user_data st' = user_data st /\ objects st' = objects st /\ sent st' = sent st.

(** A world in which every call succeeds. *)
Definition quiet_world : world :=
  {| GenerativeModel_raises := fun _ => None;
     list_models := fun _ => Ok [];
     time_time := fun n => Z.of_nat n;
     telegram := fun _ _ => None;
     download_photo := fun _ => Ok [];
     send_message_async := fun _ _ _ => Ok (lit "ok") |}.

(** The provider cannot be reached. *)
Definition offline_world : world :=
  {| GenerativeModel_raises := fun _ => None;
     list_models := fun _ => Raise (lit "unavailable");
     time_time := fun n => Z.of_nat n;
     telegram := fun _ _ => None;
     download_photo := fun _ => Ok [];
     send_message_async := fun _ _ _ => Ok (lit "ok") |}.

(** The result of a handler whose last action is one Telegram call with
    outcome [o]. *)
Definition after_send (o : option exn) : outcome unit :=
  match o with
  | None => Ok tt
  | Some e => Raise e
  end.

(** Every stored session names a model whose handle can be built and refers
    to a [ChatSession] object bound to that model. *)
Definition state_ok (w : world) (st : state) : Prop :=
  forall user_id s,
    user_data st !! user_id = Some s ->
    GenerativeModel_raises w (model_name s) = None
    /\ exists cs, objects st !! chat s = Some cs /\ chat_model cs = model_name s.

(** [m] keeps the invariant [I], whether it returns or raises. *)
Definition preserves {A} (I : state -> Prop) (w : world) (m : M A) : Prop :=
  forall st, I st -> I (snd (m w st)).

(** The session a switch or a reset stores for [name] in state [st], and the
    [ChatSession] object it refers to. *)
Definition fresh_session (st : state) (name : str) : session :=
  {| chat := length (objects st); model_name := name |}.

Definition empty_chat (name : str) : ChatSession :=
  {| chat_model := name; history := [] |}.

(** What the end of a switch leaves behind, given the state [st1] in which
    the confirmation [confirm] is sent: either the confirmation alone, or the
    rejected confirmation followed by the failure notice built from the
    exception. *)
Definition switch_outcome (w : world) (sent0 : list (api_call * option exn))
    (st1 : state) (confirm : api_call) (notice : exn -> api_call)
    (r : outcome unit) (st' : state) : Prop :=
  user_data st' = user_data st1
  /\ objects st' = objects st1
  /\ match telegram w (tick st1) confirm with
     | None => r = Ok tt /\ sent st' = sent0 ++ [(confirm, None)]
     | Some e =>
         let o := telegram w (S (tick st1)) (notice e) in
         r = after_send o
         /\ sent st' = sent0 ++ [(confirm, Some e); (notice e, o)]
     end.

(** [chunk] without its backslashes. *)
Definition without_backslashes (chunk : str) : str :=
  filter (fun c => c <> BACKSLASH) chunk.

Definition formatted_send (chunk : str) : api_call :=
  reply_text (Text chunk) (Some MARKDOWN_V2).

Definition plain_send (chunk : str) : api_call :=
  reply_text (Text (without_backslashes chunk)) None.

(** The Telegram calls made for one chunk and how the attempt ends: the
    formatted send alone when it is accepted; when it is rejected, the
    formatted send followed by one plain send of the same chunk. *)
Inductive chunk_attempt (chunk : str)
  : list (api_call * option exn) -> outcome unit -> Prop :=
| attempt_formatted :
    chunk_attempt chunk [(formatted_send chunk, None)] (Ok tt)
| attempt_fallback e o :
    chunk_attempt chunk
      [(formatted_send chunk, Some e); (plain_send chunk, o)] (after_send o).

(** The calls made for a list of chunks, one attempt per chunk in order; the
    delivery stops after the first attempt that ends in an exception. *)
Inductive delivery : list str -> list (api_call * option exn) -> outcome unit -> Prop :=
| delivery_done : delivery [] [] (Ok tt)
| delivery_next chunk chunks calls calls' r :
    chunk_attempt chunk calls (Ok tt) ->
    delivery chunks calls' r ->
    delivery (chunk :: chunks) (calls ++ calls') r
| delivery_stop chunk chunks calls e :
    chunk_attempt chunk calls (Raise e) ->
    delivery (chunk :: chunks) calls (Raise e).

(** The chunks of a formatted reply, in the order of delivery. *)
Definition reply_chunks (formatted_parts : list (part_type * str)) : list str :=
  flat_map (fun part => split_message_default (snd part)) formatted_parts.

(** The chunks sent with the dialect's formatting, in the order of the calls. *)
Definition formatted_chunks (calls : list (api_call * option exn)) : list str :=
  omap (fun call =>
          match fst call with
          | reply_text (Text t) (Some MARKDOWN_V2) => Some t
          | _ => None
          end) calls.

(** The platform rejects every message sent with a parse mode and accepts
    plain ones. *)
Definition markdown_rejecting_world : world :=
  {| GenerativeModel_raises := fun _ => None;
     list_models := fun _ => Ok [];
     time_time := fun n => Z.of_nat n;
     telegram := fun _ c =>
       match c with
       | reply_text _ (Some _) | edit_message_text _ (Some _) =>
           Some (lit "can't parse entities")
       | _ => None
       end;
     download_photo := fun _ => Ok [];
     send_message_async := fun _ _ _ => Ok (lit "Hi **there**!") |}.

(** No handle can be built for the model ["nope"], and the platform cannot
    be reached. *)
Definition unreachable_world : world :=
  {| GenerativeModel_raises := fun name =>
       if bool_decide (name = lit "nope") then Some (lit "unknown model") else None;
     list_models := fun _ => Ok [];
     time_time := fun n => Z.of_nat n;
     telegram := fun _ _ => Some (lit "timed out");
     download_photo := fun _ => Ok [];
     send_message_async := fun _ _ _ => Ok (lit "ok") |}.

(** No handle can be built for the model ["nope"]; every call of the
    platform succeeds. *)
Definition picky_world : world :=
  {| GenerativeModel_raises := fun name =>
       if bool_decide (name = lit "nope") then Some (lit "unknown model") else None;
     list_models := fun _ => Ok [];
     time_time := fun n => Z.of_nat n;
     telegram := fun _ _ => None;
     download_photo := fun _ => Ok [];
     send_message_async := fun _ _ _ => Ok (lit "ok") |}.

(** User 1 sends the text ["Hello"]. *)
Definition hello_update : update :=
  {| effective_user_id := 1; message_text := Some (lit "Hello");
     message_caption := None; message_photo := false;
     callback_data := []; context_args := [] |}.

(** User 1 asks for the model [name], by command and by button. *)
Definition switch_update (name : str) : update :=
  {| effective_user_id := 1; message_text := None;
     message_caption := None; message_photo := false;
     callback_data := lit "model:" ++ name; context_args := [name] |}.

(** The state after user 1 said hello in the quiet world. *)
Definition after_hello : state := snd (handle on_chat hello_update quiet_world initial_state).

(** ** Vocabulary of the further properties *)

Definition MODELS_PREFIX : str := lit "models/".

(** Whether the loop of [get_available_models] keeps the entry [m], the key
    it files it under and the name it shows for it. *)
Definition supports_generate (m : model_info) : bool :=
  str_in (lit "generateContent") (m_supported_generation_methods m).

Definition listed_id (m : model_info) : str :=
  replace MODELS_PREFIX [] (m_name m).

Definition listed_name (m : model_info) : str :=
  match m_display_name m with
  | Some d => str_or d (listed_id m)
  | None => listed_id m
  end.

(** The entries of a listing that end up under the key [k]. *)
Definition listed_as (k : str) (listed : list model_info) : list model_info :=
  filter (fun m => supports_generate m = true /\ listed_id m = k) listed.

(** A listing of two models, the second unable to generate content. *)
Definition sample_listing : list model_info :=
  [ {| m_name := lit "models/gemini-pro";
       m_supported_generation_methods := [lit "generateContent"; lit "countTokens"];
       m_display_name := Some (lit "Gemini Pro") |};
    {| m_name := lit "models/embedding-001";
       m_supported_generation_methods := [lit "embedContent"];
       m_display_name := Some (lit "Embedding 001") |} ].

Definition listing_world (listed : list model_info) : world :=
  {| GenerativeModel_raises := fun _ => None;
     list_models := fun _ => Ok listed;
     time_time := fun n => Z.of_nat n;
     telegram := fun _ _ => None;
     download_photo := fun _ => Ok [];
     send_message_async := fun _ _ _ => Ok (lit "ok") |}.

Definition models_reply (models : gmap str str) (current_model : str) : api_call :=
  if bool_decide (models = ∅) then reply_text FetchFailed None
  else reply_text (ModelsMenu models current_model) (Some MARKDOWN_V2).

(** [m] takes every state to one related to it by [R], whether it returns
    or raises. *)
Definition steps {A} (R : state -> state -> Prop) (w : world) (m : M A) : Prop :=
  forall st, R st (snd (m w st)).

(** No two users share a [ChatSession] object. *)
Definition sessions_apart (st : state) : Prop :=
  forall u1 u2 s1 s2,
    user_data st !! u1 = Some s1 -> user_data st !! u2 = Some s2 ->
    chat s1 = chat s2 -> u1 = u2.

(** What a handler run for [user_id] may do to the store: the entries of the
    other users stay as they are, no object disappears, and the entry of
    [user_id] is the one it was or refers to an object created since. *)
Definition own_session (user_id : Z) (st st' : state) : Prop :=
  (forall v, v <> user_id -> user_data st' !! v = user_data st !! v)
  /\ (length (objects st) <= length (objects st'))%nat
  /\ (forall s', user_data st' !! user_id = Some s' ->
        user_data st !! user_id = Some s' \/ (length (objects st) <= chat s')%nat).

(** Every stored session is still there. *)
Definition sessions_kept (st st' : state) : Prop :=
  forall v s, user_data st !! v = Some s -> user_data st' !! v = Some s.

(** Every object is still there, bound to the same model, with a history
    that extends the one it had. *)
Definition histories_grow (st st' : state) : Prop :=
  forall i cs,
    objects st !! i = Some cs ->
    exists cs',
      objects st' !! i = Some cs'
      /\ chat_model cs' = chat_model cs
      /\ history cs `prefix_of` history cs'.

(** Every object is still there, unchanged. *)
Definition objects_kept (st st' : state) : Prop :=
  forall i cs, objects st !! i = Some cs -> objects st' !! i = Some cs.

(** Nothing but the object [c] changes in the store. *)
Definition touches_only (c : nat) (st st' : state) : Prop :=
  user_data st' = user_data st
  /\ forall i, i <> c -> objects st' !! i = objects st !! i.

(** The part of [chat_handler] that follows [get_user_chat]. *)
Definition relay (u : update) (chat_session : nat) : M unit :=
  let user_text :=
    str_or (default [] (message_text u))
           (str_or (default [] (message_caption u)) DEFAULT_PROMPT) in
  try_except
    (let* content :=
       if message_photo u then
         let* photo_bytes := fetch_photo in
         ret [PText user_text; PImage (lit "image/jpeg") photo_bytes]
       else ret [PText user_text] in
     let* reply := send_message chat_session content in
     deliver_reply (format_for_telegram_simple reply))
    (fun e => call_telegram (reply_text (ErrorNotice e) None)).

(** A second user says hello. *)
Definition hello_update_2 : update :=
  {| effective_user_id := 2; message_text := Some (lit "Hello");
     message_caption := None; message_photo := false;
     callback_data := []; context_args := [] |}.

Definition after_two_hellos : state :=
  snd (handle on_chat hello_update_2 quiet_world after_hello).

(** [update.message.text or update.message.caption or "What's in this image?"]. *)
Definition user_text (u : update) : str :=
  str_or (default [] (message_text u))
         (str_or (default [] (message_caption u)) DEFAULT_PROMPT).

(** What [chat_handler] asks of the outside world before it has a reply, in
    a state [st] and for the object [cs]: the photo, when the message has
    one, and then the model.  The answer is the content sent and the reply,
    or the first exception. *)
Definition ask (u : update) (w : world) (st : state) (cs : ChatSession)
  : outcome (list content_part * str) :=
  if message_photo u then
    match download_photo w (tick st) with
    | Ok photo_bytes =>
        let content := [PText (user_text u); PImage (lit "image/jpeg") photo_bytes] in
        match send_message_async w (S (tick st)) cs content with
        | Ok reply => Ok (content, reply)
        | Raise e => Raise e
        end
    | Raise e => Raise e
    end
  else
    match send_message_async w (tick st) cs [PText (user_text u)] with
    | Ok reply => Ok ([PText (user_text u)], reply)
    | Raise e => Raise e
    end.

(** The object [cs] after a turn. *)
Definition with_turn (cs : ChatSession) (content : list content_part) (reply : str)
  : ChatSession :=
  {| chat_model := chat_model cs;
     history := history cs ++ [(role_user, content); (role_model, [PText reply])] |}.

Definition error_notice (e : exn) : api_call := reply_text (ErrorNotice e) None.

(** The messages of a log: its [reply_text] calls, each with its outcome.
    The chat actions with which [keep_typing] shows the typing indicator
    beside [chat_handler] are no messages; the statements about the
    messages of [chat_handler] do not speak about them. *)
Definition is_reply (c : api_call) : bool :=
  match c with
  | reply_text _ _ => true
  | _ => false
  end.

Definition replies (log : list (api_call * option exn)) : list (api_call * option exn) :=
  filter (fun call => is_reply (fst call) = true) log.

(** The model answers with white space only. *)
Definition blank_reply_world : world :=
  {| GenerativeModel_raises := fun _ => None;
     list_models := fun _ => Ok [];
     time_time := fun n => Z.of_nat n;
     telegram := fun _ _ => None;
     download_photo := fun _ => Ok [];
     send_message_async := fun _ _ _ => Ok (lit "  ") |}.

(** The model cannot be reached. *)
Definition model_down_world : world :=
  {| GenerativeModel_raises := fun _ => None;
     list_models := fun _ => Ok [];
     time_time := fun n => Z.of_nat n;
     telegram := fun _ _ => None;
     download_photo := fun _ => Ok [];
     send_message_async := fun _ _ _ => Raise (lit "quota exceeded") |}.

(** No handle can be built, whatever the model. *)
Definition no_model_world : world :=
  {| GenerativeModel_raises := fun _ => Some (lit "invalid API key");
     list_models := fun _ => Ok [];
     time_time := fun n => Z.of_nat n;
     telegram := fun _ _ => None;
     download_photo := fun _ => Ok [];
     send_message_async := fun _ _ _ => Ok (lit "ok") |}.

Definition same_store (st st' : state) : Prop :=
  user_data st' = user_data st /\ objects st' = objects st.

(** A message of the relay that fits the room the chunker leaves: a text of
    at most [DEFAULT_MAX_LENGTH] characters, not empty when it is sent with
    the dialect's formatting. *)
Definition fits_a_message (c : api_call) : Prop :=
  exists t mode,
    c = reply_text (Text t) mode
    /\ len t <= DEFAULT_MAX_LENGTH
    /\ (mode = Some MARKDOWN_V2 -> 1 <= len t).

(** * Properties *)

(** ** Strings, slices and [rfind] *)

Lemma len_nonneg (t : str) : 0 <= len t.
Proof. unfold len. lia. Qed.

Lemma adjust_index_le (n k : Z) : 0 <= n -> (Z.of_nat (adjust_index n k) <= n).
Proof. intros Hn. unfold adjust_index. destruct (k <? 0) eqn:E; lia. Qed.

Lemma adjust_index_inside (n k : Z) :
  0 <= k <= n -> adjust_index n k = Z.to_nat k.
Proof.
  intros [H0 H1]. unfold adjust_index.
  destruct (k <? 0) eqn:E; [lia|]. f_equal. lia.
Qed.

Lemma slice_to_from (t : str) (k : Z) : slice_to t k ++ slice_from t k = t.
Proof. unfold slice_to, slice_from. apply take_drop. Qed.

Lemma len_slice_to (t : str) (k : Z) :
  0 <= k <= len t -> len (slice_to t k) = k.
Proof.
  intros H. unfold slice_to. rewrite adjust_index_inside by done.
  unfold len in *. rewrite length_take. lia.
Qed.

Lemma len_slice_from (t : str) (k : Z) :
  0 <= k <= len t -> len (slice_from t k) = len t - k.
Proof.
  intros H. unfold slice_from. rewrite adjust_index_inside by done.
  unfold len in *. rewrite length_drop. lia.
Qed.

Lemma rfind_down_range (w sep : str) (i : nat) :
  rfind_down w sep i = -1 \/ 0 <= rfind_down w sep i <= Z.of_nat i.
Proof.
  induction i as [|i IH]; simpl.
  - destruct (startswith sep (drop 0 w)); [right|left]; lia.
  - destruct (startswith sep (drop (S i) w)); [right; lia|].
    destruct IH as [IH|IH]; [by left|right; lia].
Qed.

Lemma rfind_range (t sep : str) (e : Z) :
  0 <= e <= len t ->
  rfind t sep e = -1 \/ (0 <= rfind t sep e /\ rfind t sep e + len sep <= e).
Proof.
  intros He. unfold rfind.
  pose proof (len_slice_to t e He) as Hw. cbv zeta.
  destruct (Nat.ltb_spec (length (slice_to t e)) (length sep)) as [Hlt|Hge]; [by left|].
  destruct (rfind_down_range (slice_to t e) sep (length (slice_to t e) - length sep))
    as [H|H]; [by left|right].
  unfold len in *. lia.
Qed.

Lemma find_split_range (t : str) (max_length : Z) (seps : list str) :
  1 <= max_length <= len t ->
  max_length / 2 < find_split t max_length seps <= max_length.
Proof.
  intros Hm. induction seps as [|sep rest IH]; simpl.
  - split; [apply Z.div_lt_upper_bound|]; lia.
  - destruct (Z.gtb_spec (rfind t sep max_length) (max_length / 2)) as [Hgt|Hle]; [|done].
    destruct (rfind_range t sep max_length) as [H|[H1 H2]]; [lia| |].
    + assert (0 <= max_length / 2) by (apply Z.div_pos; lia). lia.
    + pose proof (len_nonneg sep). lia.
Qed.

Lemma split_loop_more_fuel (fuel fuel' : nat) (t : str) (max_length : Z)
    (chunks : list str) (r : list str * str) :
  (fuel <= fuel')%nat ->
  split_loop fuel t max_length chunks = Some r ->
  split_loop fuel' t max_length chunks = Some r.
Proof.
  revert fuel' t chunks.
  induction fuel as [|fuel IH]; intros fuel' t chunks Hle; simpl.
  - destruct (len t >? max_length) eqn:E; [done|].
    intros <-. destruct fuel'; simpl; by rewrite E.
  - destruct (len t >? max_length) eqn:E.
    + destruct fuel' as [|fuel']; [lia|]. simpl. rewrite E.
      apply IH. lia.
    + intros <-. destruct fuel'; simpl; by rewrite E.
Qed.

Lemma split_loop_S (fuel : nat) (t : str) (max_length : Z) (chunks : list str) :
  split_loop (S fuel) t max_length chunks =
  if len t >? max_length then
    split_loop fuel (slice_from t (find_split t max_length separators)) max_length
               (chunks ++ [slice_to t (find_split t max_length separators)])
  else Some (chunks, t).
Proof. reflexivity. Qed.

Lemma split_loop_spec (fuel : nat) (t : str) (max_length : Z) (chunks : list str) :
  1 <= max_length ->
  (length t <= fuel)%nat ->
  exists new rest,
    split_loop fuel t max_length chunks = Some (chunks ++ new, rest)
    /\ concat new ++ rest = t
    /\ Forall (fun c => 1 <= len c <= max_length) new
    /\ len rest <= max_length
    /\ (max_length < len t -> new <> []).
Proof.
  intros Hm. revert t chunks.
  induction fuel as [|fuel IH]; intros t chunks Hfuel.
  - exists [], t. destruct t; [|simpl in Hfuel; lia]. simpl.
    destruct (Z.gtb_spec (len []) max_length) as [Hgt|Hle];
      [unfold len in Hgt; simpl in Hgt; lia|].
    rewrite app_nil_r. repeat split; auto. lia.
  - rewrite split_loop_S. destruct (Z.gtb_spec (len t) max_length) as [Hgt|Hle].
    + assert (1 <= max_length <= len t) as Hin by lia.
      pose proof (find_split_range t max_length separators Hin) as Hr.
      set (p := find_split t max_length separators) in *.
      assert (0 <= max_length / 2) by (apply Z.div_pos; lia).
      destruct (IH (slice_from t p) (chunks ++ [slice_to t p]))
        as (new & rest & Heq & Hcat & Hall & Hrest & _).
      { assert (0 <= p <= len t) as Hp by lia.
        pose proof (len_slice_from t p Hp) as Hl. unfold len in Hl. lia. }
      exists (slice_to t p :: new), rest.
      rewrite Heq, <- app_assoc. simpl. repeat split; auto.
      * rewrite <- app_assoc, Hcat. apply slice_to_from.
      * constructor; [|done]. rewrite len_slice_to by lia. lia.
    + exists [], t. rewrite app_nil_r. repeat split; auto. lia.
Qed.

Lemma startswith_prefix (p t : str) :
  startswith p t = true <-> exists after, t = p ++ after.
Proof.
  revert t. induction p as [|a p IH]; intros t; simpl.
  - split; [eauto|done].
  - destruct t as [|b t].
    + split; [done|]. intros [after H]. discriminate.
    + rewrite andb_true_iff, IH. split.
      * intros [Hab [after ->]]. apply Ascii.eqb_eq in Hab as ->. eauto.
      * intros [after [= -> ->]]. split; [apply Ascii.eqb_refl|eauto].
Qed.

Lemma occurs_at_drop (sep t : str) (j : nat) :
  occurs_at sep t (Z.of_nat j) <->
  (j <= length t)%nat /\ startswith sep (drop j t) = true.
Proof.
  rewrite startswith_prefix. split.
  - intros (before & after & -> & Hl). unfold len in Hl.
    apply Nat2Z.inj in Hl. subst j. split.
    + rewrite length_app. lia.
    + exists after. by rewrite drop_app_length.
  - intros [Hj [after Hd]]. exists (take j t), after. split.
    + by rewrite <- Hd, take_drop.
    + unfold len. rewrite length_take. lia.
Qed.

Lemma occurs_at_nonneg (sep t : str) (p : Z) : occurs_at sep t p -> 0 <= p.
Proof. intros (before & _ & _ & <-). apply len_nonneg. Qed.

Lemma occurs_at_fits (sep t : str) (p : Z) :
  occurs_at sep t p -> p + len sep <= len t.
Proof.
  intros (before & after & -> & <-). unfold len.
  rewrite !length_app. lia.
Qed.









(** ** The chunker *)



(** With the default length the loop always ends, so the relay's use of
    [split_message] returns. *)
Lemma split_message_default_returns (t : str) :
  split_message t DEFAULT_MAX_LENGTH = Some (split_message_default t)
  /\ concat (split_message_default t) = t.
Proof.
  unfold split_message_default, split_message, split_message_fuel.
  destruct (Z.leb_spec (len t) DEFAULT_MAX_LENGTH) as [Hle|Hgt].
  - split; [done|apply app_nil_r].
  - assert (1 <= DEFAULT_MAX_LENGTH) as Hm by done.
    destruct (split_loop_spec (length t) t DEFAULT_MAX_LENGTH [] Hm (Nat.le_refl _))
      as (new & rest & -> & Hcat & _).
    cbn [app]. destruct rest as [|r rest]; (split; [done|]); unfold default, id.
    + by rewrite app_nil_r in Hcat.
    + by rewrite concat_app, <- Hcat; cbn [concat]; rewrite app_nil_r.
Qed.

(** Claim C1.  For every text and every [max_length >= 1], [split_message]
    returns (one unit of fuel per character is enough, and more fuel gives
    the same chunks); joined in order the chunks give back the text exactly;
    there is at least one chunk; and every chunk has at most [max_length]
    characters.  The bound holds for every chunk: the empty separator is
    always found at [max_length], so the cut never falls beyond it and no
    chunk is oversized. *)
Theorem split_message_partitions (t : str) (max_length : Z) :
  1 <= max_length ->
  exists chunks,
    split_message t max_length = Some chunks
    /\ (forall fuel, (length t <= fuel)%nat ->
          split_message_fuel fuel t max_length = Some chunks)
    /\ concat chunks = t
    /\ chunks <> []
    /\ Forall (fun c => len c <= max_length) chunks.
Proof.
  intros Hm. unfold split_message, split_message_fuel.
  destruct (Z.leb_spec (len t) max_length) as [Hle|Hgt].
  - exists [t]. split; [done|]. split; [done|]. split; [apply app_nil_r|].
    split; [done|]. by constructor.
  - destruct (split_loop_spec (length t) t max_length [] Hm (Nat.le_refl _))
      as (new & rest & Heq & Hcat & Hall & Hrest & Hne).
    specialize (Hne Hgt). rewrite Heq. cbn [app].
    assert (Forall (fun c => len c <= max_length) new) as Hall'.
    { eapply Forall_impl; [exact Hall|]. intros c Hc. simpl in Hc. lia. }
    destruct rest as [|r rest].
    + exists new. rewrite app_nil_r in Hcat.
      split; [done|]. split; [|done].
      intros fuel Hfuel. by rewrite (split_loop_more_fuel _ fuel _ _ _ _ Hfuel Heq).
    + exists (new ++ [r :: rest]). split; [done|]. split; [|split; [|split]].
      * intros fuel Hfuel. by rewrite (split_loop_more_fuel _ fuel _ _ _ _ Hfuel Heq).
      * by rewrite concat_app, <- Hcat; cbn [concat]; rewrite app_nil_r.
      * by destruct new.
      * apply Forall_app. split; [done|]. by constructor.
Qed.

Lemma split_message_partitions_witness :
  exists chunks,
    split_message (lit "hello world. this is a test of it") 10 = Some chunks
    /\ (forall fuel, (length (lit "hello world. this is a test of it") <= fuel)%nat ->
          split_message_fuel fuel (lit "hello world. this is a test of it") 10
          = Some chunks)
    /\ concat chunks = lit "hello world. this is a test of it"
    /\ chunks <> []
    /\ Forall (fun c => len c <= 10) chunks.
Proof. apply split_message_partitions. lia. Defined.








(** ** Escaping and the fence patterns *)

Lemma re_match_special_cons (c : ascii) (s : str) :
  re_match (Group 1 (Cls is_special)) (c :: s) =
  if is_special c then Some ([(1%nat, [c])], s) else None.
Proof.
  unfold re_match. simpl. destruct (is_special c); [|done].
  replace (S (length s) - length s)%nat with 1%nat by lia. done.
Qed.

Lemma re_search_special_cons (c : ascii) (s : str) :
  re_search (Group 1 (Cls is_special)) (c :: s) =
  if is_special c then Some ([], ([(1%nat, [c])], s))
  else match re_search (Group 1 (Cls is_special)) s with
       | Some (before, m) => Some (c :: before, m)
       | None => None
       end.
Proof.
  change (re_search (Group 1 (Cls is_special)) (c :: s)) with
    (match re_match (Group 1 (Cls is_special)) (c :: s) with
     | Some m => Some ([], m)
     | None => match re_search (Group 1 (Cls is_special)) s with
               | Some (before, m) => Some (c :: before, m)
               | None => None
               end
     end).
  rewrite re_match_special_cons. by destruct (is_special c).
Qed.

(** The leftmost reserved character splits the text: nothing before it is reserved. *)
Lemma re_search_special_spec (s : str) :
  match re_search (Group 1 (Cls is_special)) s with
  | Some (before, (caps, rest)) =>
      exists c, s = before ++ c :: rest /\ caps = [(1%nat, [c])]
                /\ is_special c = true
                /\ flat_map escape_char before = before
  | None => flat_map escape_char s = s
  end.
Proof.
  induction s as [|c s IH]; [done|].
  rewrite re_search_special_cons. destruct (is_special c) eqn:E.
  - exists c. done.
  - destruct (re_search (Group 1 (Cls is_special)) s) as [[before [caps rest]]|].
    + destruct IH as (c' & -> & -> & Hc' & Hb). exists c'.
      repeat split; auto. simpl. unfold escape_char at 1. rewrite E. simpl. by f_equal.
    + simpl. unfold escape_char at 1. rewrite E. simpl. by f_equal.
Qed.

Lemma re_sub_fuel_escape (fuel : nat) (s : str) :
  (length s <= fuel)%nat ->
  re_sub_fuel fuel (Group 1 (Cls is_special)) [RChr BACKSLASH; RGroup 1] s
  = flat_map escape_char s.
Proof.
  revert s. induction fuel as [|fuel IH]; intros s Hlen.
  - destruct s; [done|simpl in Hlen; lia].
  - pose proof (re_search_special_spec s) as Hs. unfold re_sub_fuel; fold re_sub_fuel.
    destruct (re_search (Group 1 (Cls is_special)) s) as [[before [caps rest]]|]; [|done].
    destruct Hs as (c & -> & -> & Hc & Hb).
    rewrite IH.
    + rewrite flat_map_app, Hb. simpl. unfold escape_char at 2. rewrite Hc. done.
    + rewrite length_app in Hlen. simpl in Hlen. lia.
Qed.

Lemma escape_markdown_v2_chars (s : str) :
  escape_markdown_v2 s = flat_map escape_char s.
Proof. unfold escape_markdown_v2, re_sub. by apply re_sub_fuel_escape. Qed.

Lemma startswith_split (p t : str) :
  startswith p t = true -> t = p ++ drop (length p) t.
Proof.
  intros H. apply startswith_prefix in H as [after ->].
  by rewrite drop_app_length.
Qed.

Lemma startswith_fence_split (s : str) :
  startswith FENCE s = true -> s = FENCE ++ drop 3 s.
Proof. apply (startswith_split FENCE). Qed.

Lemma find_fence_split (s b a : str) :
  find_fence s = Some (b, a) -> s = b ++ FENCE ++ a.
Proof.
  revert b a. induction s as [|c s IH]; intros b a.
  - simpl. done.
  - unfold find_fence; fold find_fence.
    destruct (startswith FENCE (c :: s)) eqn:E.
    + intros [= <- <-]. by apply startswith_fence_split in E.
    + destruct (find_fence s) as [[b' a']|]; [|done].
      intros [= <- <-]. simpl. f_equal. by apply IH.
Qed.

Lemma find_fence_not_backtick (c : ascii) (s : str) :
  c <> BACKTICK ->
  find_fence (c :: s) =
  match find_fence s with Some (b, a) => Some (c :: b, a) | None => None end.
Proof.
  intros Hc. unfold find_fence at 1; fold find_fence.
  assert (startswith FENCE (c :: s) = false) as ->; [|done].
  cbn [startswith FENCE lit list_ascii_of_string].
  destruct (Ascii.eqb_spec "`"%char c) as [<-|]; [by destruct Hc|done].
Qed.

Lemma find_fence_tail (c : ascii) (s : str) :
  find_fence (c :: s) = None -> find_fence s = None.
Proof.
  unfold find_fence at 1; fold find_fence.
  destruct (startswith FENCE (c :: s)); [done|].
  by destruct (find_fence s) as [[??]|].
Qed.

Lemma find_fence_drop (n : nat) (s : str) :
  find_fence s = None -> find_fence (drop n s) = None.
Proof.
  revert s. induction n as [|n IH]; intros s; [by rewrite drop_0|].
  destruct s as [|c s]; [done|]. simpl. intros H. apply IH.
  by apply find_fence_tail in H.
Qed.

Lemma star_lazy_any {A} (s : str) (k : str -> option A) :
  star_lazy any_char s k =
  match k s with
  | Some r => Some r
  | None => match s with _ :: s' => star_lazy any_char s' k | [] => None end
  end.
Proof. by destruct s. Qed.

(** A lazy run of any characters followed by a fence stops at the first fence. *)
Lemma star_lazy_fence {A} (s : str) (g : str -> A) :
  star_lazy any_char s (fun s3 => if startswith FENCE s3 then Some (g s3) else None)
  = match find_fence s with
    | Some (b, a) => Some (g (FENCE ++ a))
    | None => None
    end.
Proof.
  induction s as [|c s IH].
  - done.
  - rewrite star_lazy_any. unfold find_fence; fold find_fence.
    destruct (startswith FENCE (c :: s)) eqn:E.
    + do 2 f_equal. by apply startswith_fence_split.
    + rewrite IH. by destruct (find_fence s) as [[??]|].
Qed.

Lemma NL_not_backtick : NL <> BACKTICK.
Proof. discriminate. Qed.

Lemma find_fence_skip_newline (s : str) :
  find_fence (skip_newline s) = None <-> find_fence s = None.
Proof.
  destruct s as [|c s]; [done|]. unfold skip_newline.
  destruct (Ascii.eqb_spec NL c) as [<-|]; [|reflexivity].
  rewrite find_fence_not_backtick by apply NL_not_backtick.
  by destruct (find_fence s) as [[??]|].
Qed.

Lemma opt_char_fence {A} (s : str) (K : str -> option A) :
  needs_fence K -> opt_char NL s K = K (skip_newline s).
Proof.
  intros HK. destruct s as [|c s]; [done|]. unfold opt_char, skip_newline.
  destruct (Ascii.eqb_spec NL c) as [<-|]; [|done].
  destruct (K s) eqn:E; [done|].
  apply HK. rewrite find_fence_not_backtick by apply NL_not_backtick.
  apply HK in E. by rewrite E.
Qed.

Lemma is_word_not_backtick (c : ascii) : is_word c = true -> c <> BACKTICK.
Proof. intros H ->. discriminate. Qed.

Lemma find_fence_lstrip_word (s : str) :
  find_fence (lstrip is_word s) = None <-> find_fence s = None.
Proof.
  induction s as [|c s IH]; [done|]. cbn [lstrip].
  destruct (is_word c) eqn:E; [|done].
  rewrite IH, find_fence_not_backtick by by apply is_word_not_backtick.
  by destruct (find_fence s) as [[??]|].
Qed.

Lemma star_greedy_fence {A} (s : str) (K : str -> option A) :
  needs_fence K -> star_greedy is_word s K = K (lstrip is_word s).
Proof.
  intros HK. induction s as [|c s IH]; [done|]. cbn [star_greedy lstrip].
  destruct (is_word c) eqn:E; [|done].
  rewrite IH. destruct (K (lstrip is_word s)) eqn:EK; [done|].
  apply HK. rewrite find_fence_not_backtick by by apply is_word_not_backtick.
  apply (proj1 (HK _)), (proj1 (find_fence_lstrip_word s)) in EK. by rewrite EK.
Qed.

Lemma lazy_to_fence_needs_fence {A} (s' : str) (G : str -> str -> A) :
  needs_fence (fun s'' : str =>
    star_lazy any_char s''
      (fun s3 => if startswith FENCE s3 then Some (G s'' s3) else None)).
Proof.
  intros s''. rewrite (star_lazy_fence s'' (G s'')).
  by destruct (find_fence s'') as [[??]|].
Qed.

Lemma fence_tail_run {A} (s1 : str) (G : str -> str -> str -> A) :
  star_greedy is_word s1
    (fun s' => opt_char NL s'
       (fun s'' => star_lazy any_char s''
          (fun s3 => if startswith FENCE s3 then Some (G s' s'' s3) else None)))
  = match find_fence (skip_newline (lstrip is_word s1)) with
    | Some (b, a) =>
        Some (G (lstrip is_word s1) (skip_newline (lstrip is_word s1)) (FENCE ++ a))
    | None => None
    end.
Proof.
  rewrite star_greedy_fence.
  - rewrite opt_char_fence by apply (lazy_to_fence_needs_fence (lstrip is_word s1)).
    apply (star_lazy_fence _ (G (lstrip is_word s1) (skip_newline (lstrip is_word s1)))).
  - intros s'.
    rewrite opt_char_fence by apply (lazy_to_fence_needs_fence s').
    rewrite (star_lazy_fence _ (G s' (skip_newline s'))).
    rewrite <- (find_fence_skip_newline s').
    by destruct (find_fence (skip_newline s')) as [[??]|].
Qed.

Lemma take_while_lstrip (p : ascii -> bool) (s : str) :
  take_while p s ++ lstrip p s = s.
Proof.
  induction s as [|c s IH]; [done|]. simpl.
  destruct (p c); [|done]. simpl. by f_equal.
Qed.

Lemma take_length_diff (b a : str) :
  take (length (b ++ a) - length a) (b ++ a) = b.
Proof.
  rewrite length_app. replace (length b + length a - length a)%nat with (length b) by lia.
  by rewrite take_app_length.
Qed.

Lemma take_suffix_diff (s x after : str) :
  s = x ++ after -> take (length s - length after) s = x.
Proof. intros ->. apply take_length_diff. Qed.

Lemma re_match_fence_match_re (s : str) :
  re_match fence_match_re s =
  match read_block s with
  | Some (tag, body, after) => Some ([(2%nat, body); (1%nat, tag)], after)
  | None => None
  end.
Proof.
  unfold re_match, fence_match_re, read_block. cbn [run].
  destruct (startswith FENCE s); [|done].
  etrans.
  { exact (fence_tail_run (drop 3 s)
      (fun s' s'' s3 => ([(2%nat, take (length s'' - length s3) s'');
                          (1%nat, take (length (drop 3 s) - length s') (drop 3 s))],
                         drop 3 s3))). }
  destruct (find_fence (skip_newline (lstrip is_word (drop 3 s)))) as [[b a]|] eqn:E; [|done].
  apply find_fence_split in E. rewrite E at 1 2.
  rewrite (take_length_diff b (FENCE ++ a)).
  rewrite <- (take_while_lstrip is_word (drop 3 s)) at 1 3.
  rewrite take_length_diff. done.
Qed.

Lemma read_block_shape (s tag body after : str) :
  read_block s = Some (tag, body, after) ->
  exists nl, (nl = [] \/ nl = [NL])
    /\ s = FENCE ++ tag ++ nl ++ body ++ FENCE ++ after
    /\ tag = take_while is_word (drop 3 s)
    /\ find_fence (skip_newline (lstrip is_word (drop 3 s))) = Some (body, after).
Proof.
  unfold read_block. destruct (startswith FENCE s) eqn:E; [|done].
  apply startswith_fence_split in E. cbv zeta.
  destruct (find_fence _) as [[b a]|] eqn:Ef; [|done].
  intros [= <- <- <-].
  pose proof (find_fence_split _ _ _ Ef) as Hs.
  pose proof (take_while_lstrip is_word (drop 3 s)) as Hw.
  destruct (lstrip is_word (drop 3 s)) as [|c r] eqn:El.
  - discriminate Ef.
  - unfold skip_newline in Hs, Ef. destruct (Ascii.eqb_spec NL c) as [<-|].
    + exists [NL]. split; [by right|]. split; [|done].
      rewrite E at 1. rewrite <- Hw at 1. by rewrite Hs.
    + exists []. split; [by left|]. split; [|done].
      rewrite E at 1. rewrite <- Hw at 1. by rewrite Hs.
Qed.

Lemma read_block_shorter (s tag body after : str) :
  read_block s = Some (tag, body, after) ->
  (length after + 6 <= length s)%nat.
Proof.
  intros H. apply read_block_shape in H as (nl & _ & -> & _).
  rewrite !length_app. change (length FENCE) with 3%nat. lia.
Qed.

Lemma re_match_fence_split_re (s : str) :
  re_match fence_split_re s =
  match read_block s with
  | Some (_, _, after) => Some ([(1%nat, take (length s - length after) s)], after)
  | None => None
  end.
Proof.
  unfold re_match, fence_split_re, read_block. cbn [run].
  destruct (startswith FENCE s); [|done].
  etrans.
  { exact (fence_tail_run (drop 3 s)
      (fun s' s'' s3 => ([(1%nat, take (length s - length (drop 3 s3)) s)], drop 3 s3))). }
  by destruct (find_fence (skip_newline (lstrip is_word (drop 3 s)))) as [[b a]|].
Qed.

Lemma re_search_fence_split_re (s : str) :
  re_search fence_split_re s =
  match next_block s with
  | Some (before, (block, rest)) => Some (before, ([(1%nat, block)], rest))
  | None => None
  end.
Proof.
  induction s as [|c s IH].
  - done.
  - unfold re_search; fold re_search. unfold next_block; fold next_block.
    rewrite re_match_fence_split_re.
    destruct (read_block (c :: s)) as [[[tag body] after]|]; [done|].
    rewrite IH. by destruct (next_block s) as [[before [block rest]]|].
Qed.

Lemma next_block_split (s before block rest : str) :
  next_block s = Some (before, (block, rest)) ->
  s = before ++ block ++ rest /\ (length rest < length s)%nat
  /\ exists tag body, read_block (block ++ rest) = Some (tag, body, rest).
Proof.
  revert before. induction s as [|c s IH]; intros before.
  - done.
  - unfold next_block; fold next_block.
    destruct (read_block (c :: s)) as [[[tag body] after]|] eqn:E.
    + intros [= <- <- <-].
      pose proof (read_block_shorter _ _ _ _ E) as Hlen.
      assert (take (length (c :: s) - length after) (c :: s) ++ after = c :: s) as Heq.
      { pose proof (read_block_shape _ _ _ _ E) as (nl & _ & Hs & _).
        rewrite (take_suffix_diff (c :: s) (FENCE ++ tag ++ nl ++ body ++ FENCE) after).
        - rewrite Hs. by rewrite <- !app_assoc.
        - rewrite Hs. by rewrite <- !app_assoc. }
      split; [done|]. split; [lia|]. exists tag, body.
      etrans; [|exact E]. f_equal. exact Heq.
    + destruct (next_block s) as [[before' [block' rest']]|]; [|done].
      intros [= <- <- <-]. destruct (IH before' eq_refl) as (-> & Hlen & Hrb).
      split; [done|]. split; [simpl; lia|done].
Qed.

Lemma re_split_fuel_enough (fuel fuel' : nat) (s : str) :
  (length s <= fuel)%nat -> (length s <= fuel')%nat ->
  re_split_fuel fuel fence_split_re 1 s = re_split_fuel fuel' fence_split_re 1 s.
Proof.
  revert fuel' s. induction fuel as [|fuel IH]; intros fuel' s Hlen Hlen'.
  - destruct s; [|simpl in Hlen; lia]. by destruct fuel'.
  - unfold re_split_fuel at 1; fold re_split_fuel.
    destruct fuel' as [|fuel'].
    + destruct s; [done|simpl in Hlen'; lia].
    + unfold re_split_fuel at 2; fold re_split_fuel.
      rewrite re_search_fence_split_re.
      destruct (next_block s) as [[before [block rest]]|] eqn:E; [|done].
      apply next_block_split in E as (_ & Hr & _).
      do 2 f_equal. apply IH; lia.
Qed.

Lemma re_split_unfold (s : str) :
  re_split fence_split_re 1 s =
  match next_block s with
  | Some (before, (block, rest)) =>
      before :: block :: re_split fence_split_re 1 rest
  | None => [s]
  end.
Proof.
  unfold re_split at 1.
  rewrite (re_split_fuel_enough (length s) (S (length s)) s) by lia.
  unfold re_split_fuel; fold re_split_fuel.
  rewrite re_search_fence_split_re.
  destruct (next_block s) as [[before [block rest]]|] eqn:E; [|done].
  apply next_block_split in E as (_ & Hr & _).
  cbn [seq map app group]. rewrite Nat.eqb_refl. do 2 f_equal.
  apply re_split_fuel_enough; lia.
Qed.


(** ** The formatter *)


Lemma escape_markdown_v2_cons (c : ascii) (s : str) :
  escape_markdown_v2 (c :: s) = escape_char c ++ escape_markdown_v2 s.
Proof. by rewrite !escape_markdown_v2_chars. Qed.


Lemma backslash_not_special : is_special BACKSLASH = false.
Proof. reflexivity. Qed.












Lemma rstrip_nil_iff (p : ascii -> bool) (t : str) :
  rstrip p t = [] <-> Forall (fun c => p c = true) t.
Proof.
  induction t as [|c t IH]; [done|]. cbn [rstrip]. split.
  - destruct (rstrip p t) eqn:E; [|done].
    destruct (p c) eqn:Ec; [|done]. intros _. constructor; [done|by apply IH].
  - intros H. inversion H as [|?? Hc Ht]; subst. apply IH in Ht. by rewrite Ht, Hc.
Qed.

Lemma rstrip_app_kept (p : ascii -> bool) (kept tail : str) (c : ascii) :
  p c = false -> Forall (fun x => p x = true) tail ->
  rstrip p ((kept ++ [c]) ++ tail) = kept ++ [c].
Proof.
  intros Hc Htail. induction kept as [|k kept IH].
  - cbn [app rstrip]. apply rstrip_nil_iff in Htail. by rewrite Htail, Hc.
  - cbn [app rstrip]. rewrite IH. by destruct kept.
Qed.

Lemma Forall_repeat_NL (k : nat) :
  Forall (fun x => Ascii.eqb NL x = true) (repeat NL k).
Proof. induction k; constructor; [apply Ascii.eqb_refl|done]. Qed.

(** [rstrip] removes every trailing newline, however many there are. *)
Lemma rstrip_newlines (kept : str) (k : nat) :
  ~ ends_with NL kept ->
  rstrip (Ascii.eqb NL) (kept ++ repeat NL k) = kept.
Proof.
  intros Hend. induction kept as [|c kept' _] using rev_ind.
  - cbn [app]. apply rstrip_nil_iff, Forall_repeat_NL.
  - apply rstrip_app_kept; [|apply Forall_repeat_NL].
    destruct (Ascii.eqb_spec NL c) as [<-|]; [|done].
    destruct Hend. by exists kept'.
Qed.

Lemma rstrip_decompose (t : str) :
  exists k, t = rstrip (Ascii.eqb NL) t ++ repeat NL k
            /\ ~ ends_with NL (rstrip (Ascii.eqb NL) t).
Proof.
  induction t as [|c t (k & Ht & Hend)].
  - exists 0%nat. split; [done|]. intros [t' H]. by destruct t'.
  - cbn [rstrip]. destruct (rstrip (Ascii.eqb NL) t) as [|r rs] eqn:E.
    + destruct (Ascii.eqb_spec NL c) as [<-|Hne].
      * exists (S k). split; [by rewrite Ht at 1|]. intros [t' H]. by destruct t'.
      * exists k. split; [by rewrite Ht at 1|].
        intros [t' H]. destruct t' as [|? [|??]]; simplify_eq/=.
    + exists k. split; [by rewrite Ht at 1|].
      intros [t' H]. destruct t' as [|x t']; [done|].
      simplify_eq/=. apply Hend. by exists t'.
Qed.

Lemma format_part_code (part : str) (caps : captures) (rest : str) :
  startswith FENCE part = true ->
  re_match fence_match_re part = Some (caps, rest) ->
  format_part part =
  [(code, fenced (escape_markdown_v2 (rstrip (Ascii.eqb NL) (group caps 2))))].
Proof. intros Hs Hm. unfold format_part. by rewrite Hs, Hm. Qed.

Lemma occurs_at_cons (sep : str) (c : ascii) (t : str) (q : Z) :
  occurs_at sep t q -> occurs_at sep (c :: t) (q + 1).
Proof.
  intros (before & after & -> & <-). exists (c :: before), after.
  split; [done|]. unfold len. simpl. lia.
Qed.

Lemma occurs_at_tail (sep : str) (c : ascii) (t : str) (q : Z) :
  occurs_at sep (c :: t) q -> 0 < q -> occurs_at sep t (q - 1).
Proof.
  intros (before & after & Heq & <-) Hq. destruct before as [|b before].
  - unfold len in Hq. simpl in Hq. lia.
  - simplify_eq/=. exists before, after. split; [done|]. unfold len. simpl. lia.
Qed.

Lemma occurs_at_zero (sep t : str) :
  occurs_at sep t 0 <-> startswith sep t = true.
Proof.
  rewrite startswith_prefix. split.
  - intros (before & after & -> & Hl). destruct before; [by exists after|].
    unfold len in Hl. simpl in Hl. lia.
  - intros [after ->]. by exists [], after.
Qed.

(** [find_fence] answers with the first occurrence of the fence. *)
Lemma find_fence_first (b a : str) :
  (forall q, occurs_at FENCE (b ++ FENCE ++ a) q -> len b <= q) ->
  find_fence (b ++ FENCE ++ a) = Some (b, a).
Proof.
  induction b as [|c b IH]; intros Hfirst.
  - done.
  - cbn [app]. unfold find_fence; fold find_fence.
    destruct (startswith FENCE (c :: b ++ FENCE ++ a)) eqn:E.
    + apply occurs_at_zero, Hfirst in E. unfold len in E. simpl in E. lia.
    + rewrite IH; [done|]. intros q Hq.
      apply (occurs_at_cons _ c), Hfirst in Hq. unfold len in *. simpl in Hq. lia.
Qed.

Lemma find_fence_none_iff (s : str) :
  find_fence s = None <-> forall q, ~ occurs_at FENCE s q.
Proof.
  split.
  - induction s as [|c s IH]; intros Hnone q Hq.
    + destruct Hq as ([|??] & after & Hq & _); discriminate Hq.
    + unfold find_fence in Hnone; fold find_fence in Hnone.
      destruct (startswith FENCE (c :: s)) eqn:E; [done|].
      destruct (find_fence s) as [[??]|] eqn:Ef; [done|].
      pose proof (occurs_at_nonneg _ _ _ Hq) as Hq0.
      destruct (decide (q = 0)) as [->|Hne].
      * apply occurs_at_zero in Hq. congruence.
      * apply (IH eq_refl (q - 1)). apply (occurs_at_tail _ c); [done|lia].
  - intros Hno. destruct (find_fence s) as [[b a]|] eqn:E; [|done].
    apply find_fence_split in E. destruct (Hno (len b)). by exists b, a.
Qed.

Lemma take_while_app_stop (p : ascii -> bool) (w : str) (c : ascii) (t : str) :
  Forall (fun x => p x = true) w -> p c = false ->
  take_while p (w ++ c :: t) = w /\ lstrip p (w ++ c :: t) = c :: t.
Proof.
  intros Hw Hc. induction Hw as [|x w Hx _ [IH1 IH2]]; cbn [app take_while lstrip].
  - by rewrite Hc.
  - by rewrite Hx, IH1, IH2.
Qed.

Lemma read_block_tagged (tag body after : str) :
  Forall (fun c => is_word c = true) tag ->
  (forall q, occurs_at FENCE (body ++ FENCE ++ after) q -> len body <= q) ->
  read_block (FENCE ++ tag ++ [NL] ++ body ++ FENCE ++ after) = Some (tag, body, after).
Proof.
  intros Htag Hfirst. unfold read_block.
  change (startswith FENCE (FENCE ++ tag ++ [NL] ++ body ++ FENCE ++ after)) with true.
  cbv zeta iota.
  change (drop 3 (FENCE ++ tag ++ [NL] ++ body ++ FENCE ++ after))
    with (tag ++ NL :: body ++ FENCE ++ after).
  destruct (take_while_app_stop is_word tag NL (body ++ FENCE ++ after) Htag eq_refl)
    as [-> ->].
  unfold skip_newline. rewrite Ascii.eqb_refl.
  by rewrite find_fence_first.
Qed.

Lemma format_part_nil : format_part [] = [].
Proof. reflexivity. Qed.

Lemma format_single_block (tag body : str) :
  Forall (fun c => is_word c = true) tag ->
  (forall q, occurs_at FENCE (body ++ FENCE) q -> len body <= q) ->
  format_for_telegram_simple (FENCE ++ tag ++ [NL] ++ body ++ FENCE) =
  [(code, fenced (escape_markdown_v2 (rstrip (Ascii.eqb NL) body)))].
Proof.
  intros Htag Hfirst.
  assert (read_block (FENCE ++ tag ++ [NL] ++ body ++ FENCE) = Some (tag, body, []))
    as Hrb.
  { rewrite <- (app_nil_r FENCE) at 2. apply read_block_tagged; [done|].
    by rewrite app_nil_r. }
  set (block := FENCE ++ tag ++ [NL] ++ body ++ FENCE) in *.
  assert (next_block block = Some ([], (block, []))) as Hnb.
  { destruct block as [|c block'] eqn:Eb; [done|].
    unfold next_block; fold next_block. rewrite Hrb. do 3 f_equal.
    cbn [length]. rewrite Nat.sub_0_r. apply take_ge. done. }
  unfold format_for_telegram_simple.
  rewrite re_split_unfold, Hnb.
  change (re_split fence_split_re 1 []) with [[] : str].
  cbn [flat_map]. rewrite format_part_nil, app_nil_r. cbn [app].
  apply (format_part_code block [(2%nat, body); (1%nat, tag)] []); [done|].
  by rewrite re_match_fence_match_re, Hrb.
Qed.

(** Claim C4, amended.  For every code span the formatter recognizes, all
    the trailing newlines of the body are stripped before escaping: the body
    is a text that does not end in a newline followed by some number of
    newlines, and the code segment is the fenced escaped form of that text
    alone.  In particular a block with a tag line and a body ending in [k]
    newlines gives the same single code segment for every [k]. *)
Theorem code_span_strips_all_trailing_newlines :
  (forall (part : str) (caps : captures) (rest : str),
      startswith FENCE part = true ->
      re_match fence_match_re part = Some (caps, rest) ->
      exists kept k,
        group caps 2 = kept ++ repeat NL k
        /\ ~ ends_with NL kept
        /\ format_part part = [(code, fenced (escape_markdown_v2 kept))])
  /\ (forall (tag kept : str) (k : nat),
        Forall (fun c => is_word c = true) tag ->
        ~ ends_with NL kept ->
        (forall q, occurs_at FENCE ((kept ++ repeat NL k) ++ FENCE) q ->
                   len (kept ++ repeat NL k) <= q) ->
        format_for_telegram_simple (FENCE ++ tag ++ [NL] ++ (kept ++ repeat NL k) ++ FENCE)
        = [(code, fenced (escape_markdown_v2 kept))]).
Proof.
  split.
  - intros part caps rest Hs Hm.
    destruct (rstrip_decompose (group caps 2)) as (k & Hbody & Hend).
    exists (rstrip (Ascii.eqb NL) (group caps 2)), k.
    split; [done|]. split; [done|]. by apply (format_part_code part caps rest).
  - intros tag kept k Htag Hend Hfirst.
    rewrite format_single_block by done. by rewrite rstrip_newlines.
Qed.

(** Claim C4 as stated fails on the block whose body is ["x"] followed by two
    newlines: the formatter recognizes the span with that body and emits the
    fenced ["x"], where stripping exactly one newline would have kept the
    other and emitted the fenced ["x"] followed by a newline. *)
Lemma single_newline_strip_refuted :
  re_match fence_match_re two_newline_block
    = Some ([(2%nat, lit "x" ++ [NL; NL]); (1%nat, [])], [])
  /\ format_for_telegram_simple two_newline_block = [(code, fenced (lit "x"))]
  /\ spec_code_segment (lit "x" ++ [NL; NL]) = fenced (lit "x" ++ [NL])
  /\ format_for_telegram_simple two_newline_block
       <> [(code, spec_code_segment (lit "x" ++ [NL; NL]))].
Proof. repeat split; [vm_compute; reflexivity..|]. vm_compute. discriminate. Qed.

Lemma code_span_strips_all_trailing_newlines_witness :
  format_for_telegram_simple
    (FENCE ++ lit "py" ++ [NL] ++ (lit "x = 1" ++ repeat NL 3) ++ FENCE)
  = [(code, fenced (escape_markdown_v2 (lit "x = 1")))].
Proof.
  apply (proj2 code_span_strips_all_trailing_newlines (lit "py") (lit "x = 1") 3%nat).
  - repeat constructor.
  - intros [t' H]. apply (f_equal (last)) in H. rewrite last_snoc in H. discriminate H.
  - intros q Hq. apply Znot_gt_le. intros Hlt.
    assert (forall j, (j < 8)%nat ->
              ~ occurs_at FENCE ((lit "x = 1" ++ repeat NL 3) ++ FENCE) (Z.of_nat j)) as Hno.
    { intros j Hj Hocc. apply occurs_at_drop in Hocc as [_ Hocc].
      do 8 (destruct j as [|j]; [discriminate Hocc|]). lia. }
    pose proof (occurs_at_nonneg _ _ _ Hq) as Hq0.
    apply (Hno (Z.to_nat q)); [|by rewrite Z2Nat.id].
    unfold len in Hlt. simpl in Hlt. lia.
Defined.

Lemma next_block_none (s : str) :
  find_fence (drop 3 s) = None -> next_block s = None.
Proof.
  induction s as [|c s IH]; intros Hnone.
  - done.
  - unfold next_block; fold next_block.
    assert (read_block (c :: s) = None) as ->.
    { unfold read_block. destruct (startswith FENCE (c :: s)); [|done]. cbv zeta.
      rewrite (proj2 (find_fence_skip_newline _)); [done|].
      by apply find_fence_lstrip_word. }
    rewrite IH; [done|].
    change (drop 3 (c :: s)) with (drop 2 s) in Hnone.
    apply (find_fence_drop 1) in Hnone. by rewrite drop_drop in Hnone.
Qed.

(** Claim C9.  The input made of a fence followed by [abc] gives no segment
    at all, and so does every input that starts with a fence and holds no
    further fence after it. *)
Theorem unclosed_fence_yields_nothing :
  format_for_telegram_simple (lit "```abc") = []
  /\ (forall rest : str,
        (forall q, ~ occurs_at FENCE rest q) ->
        format_for_telegram_simple (FENCE ++ rest) = []).
Proof.
  split; [by vm_compute|].
  intros rest Hno. apply find_fence_none_iff in Hno.
  unfold format_for_telegram_simple.
  rewrite re_split_unfold, next_block_none by done.
  cbn [flat_map]. rewrite app_nil_r. unfold format_part.
  change (startswith FENCE (FENCE ++ rest)) with true. cbv iota.
  rewrite re_match_fence_match_re.
  assert (read_block (FENCE ++ rest) = None) as ->; [|done].
  unfold read_block. change (startswith FENCE (FENCE ++ rest)) with true. cbv iota zeta.
  change (drop 3 (FENCE ++ rest)) with rest.
  rewrite (proj2 (find_fence_skip_newline _)); [done|].
  by apply find_fence_lstrip_word.
Qed.

Lemma unclosed_fence_yields_nothing_witness :
  format_for_telegram_simple (FENCE ++ lit "`` never closed") = [].
Proof.
  apply (proj2 unclosed_fence_yields_nothing). apply find_fence_none_iff. reflexivity.
Defined.

(** ** Model discovery *)

Lemma get_available_models_cases (w : world) (st : state) :
  exists models st',
    get_available_models w st = (Ok models, st')
    /\ same_sessions st st'
    /\ (cache_fresh w st = true -> Some models = _model_cache st)
    /\ (cache_fresh w st = false ->
        match list_models w (query_tick st) with
        | Ok listed => models = fold_left add_model listed ∅
        | Raise _ => models = default FALLBACK_MODELS (_model_cache st)
        end).
Proof.
  unfold get_available_models, cache_fresh, query_tick, same_sessions.
  unfold bind at 1. unfold get_state at 1.
  destruct (_model_cache st) as [c|] eqn:Ec.
  - unfold bind at 1. unfold bind at 1. unfold time_now at 1. unfold ret at 1.
    destruct (time_time w (tick st) - _model_cache_time st <? MODEL_CACHE_TTL) eqn:Et.
    + eexists _, _. split; [reflexivity|]. cbn. by rewrite ?Ec.
    + unfold try_except, bind, list_models_all, modify, time_now, ret, get_state. cbn.
      destruct (list_models w (S (tick st))) as [listed|e] eqn:El; cbn; rewrite ?Ec.
      * eexists _, _. split; [reflexivity|]. cbn. done.
      * eexists _, _. split; [reflexivity|]. cbn. done.
  - unfold bind at 1. unfold ret at 1.
    unfold try_except, bind, list_models_all, modify, time_now, ret, get_state. cbn.
    destruct (list_models w (tick st)) as [listed|e] eqn:El; cbn; rewrite ?Ec.
    + eexists _, _. split; [reflexivity|]. cbn. done.
    + eexists _, _. split; [reflexivity|]. cbn. done.
Qed.

(** Claim C6.  [get_available_models] always returns a mapping and never
    raises.  When the query of the provider fails, it returns the cached
    mapping if there is one (the query is only made when the cache is
    missing or stale, so this is a stale cache), and otherwise the fallback
    mapping, which holds exactly the three hardcoded model identifiers. *)
Theorem get_available_models_degrades (w : world) (st : state) :
  (exists models st', get_available_models w st = (Ok models, st'))
  /\ (forall e c,
        cache_fresh w st = false ->
        list_models w (query_tick st) = Raise e ->
        _model_cache st = Some c ->
        fst (get_available_models w st) = Ok c)
  /\ (forall e,
        list_models w (query_tick st) = Raise e ->
        _model_cache st = None ->
        fst (get_available_models w st) = Ok FALLBACK_MODELS)
  /\ map_to_list FALLBACK_MODELS ≡ₚ
       [ (lit "gemini-2.0-flash", lit "Gemini 2.0 Flash");
         (lit "gemini-1.5-pro", lit "Gemini 1.5 Pro");
         (lit "gemini-1.5-flash", lit "Gemini 1.5 Flash") ].
Proof.
  destruct (get_available_models_cases w st)
    as (models & st' & Heq & _ & _ & Hstale).
  split; [by exists models, st'|]. rewrite Heq. cbn [fst].
  split; [|split].
  - intros e c Hfresh Hfail Hc. specialize (Hstale Hfresh).
    rewrite Hfail, Hc in Hstale. by rewrite Hstale.
  - intros e Hfail Hc.
    assert (cache_fresh w st = false) as Hfresh by (unfold cache_fresh; by rewrite Hc).
    specialize (Hstale Hfresh). rewrite Hfail, Hc in Hstale. by rewrite Hstale.
  - unfold FALLBACK_MODELS. apply map_to_list_to_map.
    apply (bool_decide_unpack _). by vm_compute.
Qed.

Lemma get_available_models_degrades_witness :
  fst (get_available_models offline_world initial_state) = Ok FALLBACK_MODELS.
Proof.
  apply (proj1 (proj2 (proj2 (get_available_models_degrades offline_world initial_state)))
           (lit "unavailable")); reflexivity.
Defined.

(** ** The session store and the model switch *)

Lemma call_telegram_eq (c : api_call) (w : world) (st : state) :
  call_telegram c w st =
  (after_send (telegram w (tick st) c),
   next_tick (log_sent c (telegram w (tick st) c) st)).
Proof. unfold call_telegram, after_send. by destruct (telegram w (tick st) c). Qed.

Lemma callback_data_model (name : str) :
  startswith (lit "model:") (lit "model:" ++ name) = true
  /\ split_once COLON (lit "model:" ++ name) = [lit "model"; name].
Proof. split; reflexivity. Qed.

Section Preservation.
Context (I : state -> Prop) (w : world).

Lemma preserves_ret {A} (a : A) : preserves I w (ret a).
Proof. by intros st H. Qed.

Lemma preserves_raise {A} (e : exn) : preserves I w (raise (A:=A) e).
Proof. by intros st H. Qed.

Lemma preserves_get_state : preserves I w get_state.
Proof. by intros st H. Qed.

Lemma preserves_bind {A B} (m : M A) (k : A -> M B) :
  preserves I w m -> (forall a, preserves I w (k a)) -> preserves I w (bind m k).
Proof.
  intros Hm Hk st H. unfold bind. specialize (Hm st H).
  destruct (m w st) as [[a|e] st1]; [by apply Hk|done].
Qed.

Lemma preserves_try_except {A} (m : M A) (h : exn -> M A) :
  preserves I w m -> (forall e, preserves I w (h e)) -> preserves I w (try_except m h).
Proof.
  intros Hm Hh st H. unfold try_except. specialize (Hm st H).
  destruct (m w st) as [[a|e] st1]; [done|by apply Hh].
Qed.

Lemma preserves_for_each {A} (l : list A) (body : A -> M unit) :
  (forall x, preserves I w (body x)) -> preserves I w (for_each l body).
Proof.
  intros Hbody. induction l as [|x l IH]; [apply preserves_ret|].
  cbn [for_each]. apply preserves_bind; [apply Hbody|by intros _].
Qed.

End Preservation.

Section StateOk.
Context (w : world).

(** A step that changes neither [user_data] nor [objects]. *)
Lemma state_ok_same (st st' : state) :
  user_data st' = user_data st -> objects st' = objects st ->
  state_ok w st -> state_ok w st'.
Proof. intros Hu Ho H user_id s. rewrite Hu, Ho. apply H. Qed.

Lemma state_ok_time_now : preserves (state_ok w) w time_now.
Proof. intros st H. by apply (state_ok_same st). Qed.

Lemma state_ok_list_models_all : preserves (state_ok w) w list_models_all.
Proof. intros st H. by apply (state_ok_same st). Qed.

Lemma state_ok_fetch_photo : preserves (state_ok w) w fetch_photo.
Proof. intros st H. by apply (state_ok_same st). Qed.

Lemma state_ok_call_telegram (c : api_call) : preserves (state_ok w) w (call_telegram c).
Proof. intros st H. rewrite call_telegram_eq. by apply (state_ok_same st). Qed.

Lemma state_ok_GenerativeModel (name : str) :
  preserves (state_ok w) w (GenerativeModel name).
Proof.
  intros st H. unfold GenerativeModel. by destruct (GenerativeModel_raises w name).
Qed.

Lemma state_ok_set_model_cache (c : option (gmap str str)) :
  preserves (state_ok w) w (modify (set_model_cache c)).
Proof. intros st H. by apply (state_ok_same st). Qed.

Lemma state_ok_set_model_cache_time (t : Z) :
  preserves (state_ok w) w (modify (set_model_cache_time t)).
Proof. intros st H. by apply (state_ok_same st). Qed.

Lemma state_ok_get_available_models : preserves (state_ok w) w get_available_models.
Proof.
  intros st H.
  destruct (get_available_models_cases w st) as (models & st' & -> & (Hu & Ho & _) & _).
  by apply (state_ok_same st).
Qed.

Lemma state_ok_get_model_display_name (model_id : str) :
  preserves (state_ok w) w (get_model_display_name model_id).
Proof.
  apply preserves_bind; [apply state_ok_get_available_models|].
  intros models. apply preserves_ret.
Qed.

(** Building a session for a model whose handle can be built. *)
Lemma state_ok_new_session (st : state) (user_id : Z) (name : str) :
  GenerativeModel_raises w name = None ->
  state_ok w st ->
  state_ok w
    (set_user_data <[user_id := {| chat := length (objects st); model_name := name |}]>
       (set_objects (fun os => os ++ [{| chat_model := name; history := [] |}]) st)).
Proof.
  intros Hname H uid s. cbn [user_data objects set_user_data set_objects].
  destruct (decide (uid = user_id)) as [->|Hne].
  - rewrite lookup_insert_eq. intros [= <-]. cbn [chat model_name].
    split; [done|]. exists {| chat_model := name; history := [] |}.
    split; [|done]. by rewrite lookup_app_r, Nat.sub_diag.
  - rewrite lookup_insert_ne by done. intros Hs.
    destruct (H uid s Hs) as (Hok & cs & Hcs & Hm).
    split; [done|]. exists cs. split; [|done].
    by apply lookup_app_l_Some.
Qed.

Lemma replace_session_eq (st : state) (user_id : Z) (name : str) :
  replace_session user_id name w st =
  match GenerativeModel_raises w name with
  | None =>
      (Ok tt,
       set_user_data <[user_id := {| chat := length (objects st); model_name := name |}]>
         (set_objects (fun os => os ++ [{| chat_model := name; history := [] |}]) st))
  | Some e => (Raise e, st)
  end.
Proof.
  unfold replace_session, bind, GenerativeModel, start_chat, modify.
  by destruct (GenerativeModel_raises w name).
Qed.

Lemma state_ok_replace_session (user_id : Z) (name : str) :
  preserves (state_ok w) w (replace_session user_id name).
Proof.
  intros st H. rewrite replace_session_eq.
  destruct (GenerativeModel_raises w name) eqn:E; [done|].
  by apply state_ok_new_session.
Qed.

Lemma get_user_chat_eq (st : state) (user_id : Z) (name : str) :
  get_user_chat user_id name w st =
  match user_data st !! user_id with
  | Some s => (Ok s, st)
  | None =>
      match GenerativeModel_raises w name with
      | None =>
          (Ok {| chat := length (objects st); model_name := name |},
           set_user_data <[user_id := {| chat := length (objects st); model_name := name |}]>
             (set_objects (fun os => os ++ [{| chat_model := name; history := [] |}]) st))
      | Some e => (Raise e, st)
      end
  end.
Proof.
  unfold get_user_chat, bind, get_state, GenerativeModel, start_chat, modify, ret.
  destruct (user_data st !! user_id); [done|].
  by destruct (GenerativeModel_raises w name).
Qed.

Lemma state_ok_get_user_chat (user_id : Z) (name : str) :
  preserves (state_ok w) w (get_user_chat user_id name).
Proof.
  intros st H. rewrite get_user_chat_eq.
  destruct (user_data st !! user_id); [done|].
  destruct (GenerativeModel_raises w name) eqn:E; [done|].
  by apply state_ok_new_session.
Qed.

Lemma state_ok_send_message (c : nat) (content : list content_part) :
  preserves (state_ok w) w (send_message c content).
Proof.
  intros st H. unfold send_message.
  destruct (objects st !! c) as [cs|] eqn:Ec; [|done].
  destruct (send_message_async w (tick st) cs content) as [reply|e].
  - intros uid s Hs. cbn [snd user_data objects next_tick set_objects] in *.
    destruct (H uid s Hs) as (Hok & cs0 & Hcs0 & Hm). split; [done|].
    destruct (decide (chat s = c)) as [Heq|Hne].
    + eexists. split.
      * rewrite Heq. apply list_lookup_insert_eq. by eapply lookup_lt_Some.
      * cbn [chat_model]. rewrite Heq in Hcs0. by simplify_eq.
    + exists cs0. split; [|done]. by rewrite list_lookup_insert_ne.
  - by apply (state_ok_same st).
Qed.
End StateOk.

Section Handlers.
Context (w : world).

Lemma state_ok_deliver_chunk (pt : part_type) (chunk : str) :
  preserves (state_ok w) w (deliver_chunk pt chunk).
Proof.
  destruct pt; apply preserves_try_except;
    try (intros e); apply state_ok_call_telegram.
Qed.

Lemma state_ok_deliver_reply (parts : list (part_type * str)) :
  preserves (state_ok w) w (deliver_reply parts).
Proof.
  apply preserves_for_each. intros part. apply preserves_for_each.
  apply state_ok_deliver_chunk.
Qed.

Lemma state_ok_start (u : update) : preserves (state_ok w) w (start u).
Proof.
  apply preserves_bind; [apply state_ok_get_user_chat|]. intros data.
  apply preserves_bind; [apply state_ok_get_model_display_name|]. intros d.
  apply state_ok_call_telegram.
Qed.

Lemma state_ok_models_cmd (u : update) : preserves (state_ok w) w (models_cmd u).
Proof.
  apply preserves_bind; [apply preserves_get_state|]. intros st0.
  apply preserves_bind; [apply state_ok_get_available_models|]. intros models.
  destruct (bool_decide (models = ∅)); apply state_ok_call_telegram.
Qed.

Lemma state_ok_switch_body (user_id : Z) (name : str) (confirm : str -> api_call) :
  preserves (state_ok w) w
    (GenerativeModel name;;
     replace_session user_id name;;
     let* display_name := get_model_display_name name in
     call_telegram (confirm display_name)).
Proof.
  apply preserves_bind; [apply state_ok_GenerativeModel|]. intros _.
  apply preserves_bind; [apply state_ok_replace_session|]. intros _.
  apply preserves_bind; [apply state_ok_get_model_display_name|]. intros d.
  apply state_ok_call_telegram.
Qed.

Lemma state_ok_switch_model (u : update) : preserves (state_ok w) w (switch_model u).
Proof.
  unfold switch_model. destruct (context_args u) as [|name more].
  - apply state_ok_models_cmd.
  - apply preserves_try_except.
    + apply (state_ok_switch_body _ _
               (fun d => reply_text (Switched d) (Some MARKDOWN_V2))).
    + intros e. apply state_ok_call_telegram.
Qed.

Lemma state_ok_model_callback (u : update) :
  preserves (state_ok w) w (model_callback u).
Proof.
  apply preserves_bind; [apply state_ok_call_telegram|]. intros _. cbv zeta.
  destruct (startswith (lit "model:") (callback_data u)); [|apply preserves_ret].
  destruct (split_once COLON (callback_data u)) as [|? [|name [|]]];
    try apply preserves_raise.
  apply preserves_try_except.
  - apply (state_ok_switch_body _ _
             (fun d => edit_message_text (SwitchedCleared d) (Some MARKDOWN_V2))).
  - intros e. apply state_ok_call_telegram.
Qed.

Lemma state_ok_new_chat (u : update) : preserves (state_ok w) w (new_chat u).
Proof.
  apply preserves_bind; [apply preserves_get_state|]. intros st0.
  apply preserves_bind; [apply state_ok_replace_session|]. intros _.
  apply state_ok_call_telegram.
Qed.

Lemma state_ok_chat_handler (u : update) : preserves (state_ok w) w (chat_handler u).
Proof.
  apply preserves_bind; [apply state_ok_get_user_chat|]. intros data.
  apply preserves_try_except; [|intros e; apply state_ok_call_telegram].
  apply preserves_bind.
  - destruct (message_photo u); [|apply preserves_ret].
    apply preserves_bind; [apply state_ok_fetch_photo|]. intros b. apply preserves_ret.
  - intros content. apply preserves_bind; [apply state_ok_send_message|].
    intros reply. apply state_ok_deliver_reply.
Qed.

Lemma state_ok_handle (e : event) (u : update) : preserves (state_ok w) w (handle e u).
Proof.
  destruct e; cbn [handle].
  - apply state_ok_start.
  - apply state_ok_call_telegram.
  - apply state_ok_models_cmd.
  - apply state_ok_switch_model.
  - apply state_ok_model_callback.
  - apply state_ok_new_chat.
  - apply state_ok_chat_handler.
Qed.

Lemma reachable_state_ok (st : state) : reachable w st -> state_ok w st.
Proof.
  induction 1 as [|st e u _ IH].
  - intros uid s. cbn [initial_state user_data]. by rewrite lookup_empty.
  - by apply state_ok_handle.
Qed.

End Handlers.

Lemma get_model_display_name_ok (model_id : str) (w : world) (st : state) :
  exists d st',
    get_model_display_name model_id w st = (Ok d, st') /\ same_sessions st st'.
Proof.
  destruct (get_available_models_cases w st) as (models & st' & Heq & Hsame & _).
  exists (default model_id (models !! model_id)), st'.
  unfold get_model_display_name, bind, ret. by rewrite Heq.
Qed.

(** The body of the [try] block of a switch, for a model whose handle can be
    built: when the confirmation is sent, the session is already replaced. *)
Lemma switch_body_eq (w : world) (st : state) (user_id : Z) (name : str)
    (confirm : str -> api_call) :
  GenerativeModel_raises w name = None ->
  exists d st1,
    (GenerativeModel name;;
     replace_session user_id name;;
     let* display_name := get_model_display_name name in
     call_telegram (confirm display_name)) w st
    = call_telegram (confirm d) w st1
    /\ user_data st1 = <[user_id := fresh_session st name]> (user_data st)
    /\ objects st1 = objects st ++ [empty_chat name]
    /\ sent st1 = sent st.
Proof.
  intros Hok.
  set (st0 := set_user_data <[user_id := fresh_session st name]>
                (set_objects (fun os => os ++ [empty_chat name]) st)).
  destruct (get_model_display_name_ok name w st0) as (d & st1 & Hd & Hu & Ho & Hs).
  exists d, st1. split; [|by rewrite Hu, Ho, Hs].
  unfold bind at 1. unfold GenerativeModel at 1. rewrite Hok.
  unfold bind at 1. rewrite replace_session_eq, Hok.
  fold (fresh_session st name). fold (empty_chat name). fold st0.
  unfold bind at 1. by rewrite Hd.
Qed.

Lemma new_chat_eq (w : world) (st : state) (u : update) :
  new_chat u w st =
  let name := current_model_name st (effective_user_id u) in
  match GenerativeModel_raises w name with
  | None =>
      call_telegram (reply_text MemoryCleared None) w
        (set_user_data <[effective_user_id u := fresh_session st name]>
           (set_objects (fun os => os ++ [empty_chat name]) st))
  | Some e => (Raise e, st)
  end.
Proof.
  unfold new_chat, bind, get_state. cbv zeta. rewrite replace_session_eq.
  by destruct (GenerativeModel_raises w _).
Qed.

(** Claim C7.  In every state the bot can reach, a reset for a user who has
    a session stores a session with the same [model_name] whose conversation
    is a new [ChatSession] object, bound to that model, with an empty
    history; the objects that existed before, the old conversation among
    them, are left as they were, and so are the sessions of other users. *)
Theorem new_chat_keeps_model_and_clears_history
    (w : world) (st : state) (u : update) (s : session) :
  reachable w st ->
  user_data st !! effective_user_id u = Some s ->
  let st' := snd (new_chat u w st) in
  exists s',
    user_data st' !! effective_user_id u = Some s'
    /\ model_name s' = model_name s
    /\ objects st' !! chat s' = Some {| chat_model := model_name s; history := [] |}
    /\ objects st !! chat s' = None
    /\ chat s' <> chat s
    /\ (forall c cs, objects st !! c = Some cs -> objects st' !! c = Some cs)
    /\ (forall other, other <> effective_user_id u ->
          user_data st' !! other = user_data st !! other).
Proof.
  intros Hreach Hs. apply reachable_state_ok in Hreach.
  destruct (Hreach _ _ Hs) as (Hok & cs & Hcs & _).
  cbv zeta. rewrite new_chat_eq. unfold current_model_name. rewrite Hs. cbv zeta.
  rewrite Hok, call_telegram_eq.
  cbn [snd user_data objects next_tick log_sent set_user_data set_objects].
  exists (fresh_session st (model_name s)). unfold fresh_session, empty_chat.
  cbn [chat model_name].
  split; [apply lookup_insert_eq|]. split; [done|].
  split; [by rewrite lookup_app_r, Nat.sub_diag|].
  split; [by apply lookup_ge_None|].
  split; [apply lookup_lt_Some in Hcs; lia|].
  split; [intros c cs' Hc; by apply lookup_app_l_Some|].
  intros other Hne. by rewrite lookup_insert_ne.
Qed.

Lemma new_chat_keeps_model_and_clears_history_witness :
  (exists turns,
     objects after_hello !! 0%nat = Some {| chat_model := DEFAULT_MODEL; history := turns |}
     /\ length turns = 2%nat)
  /\ let st' := snd (new_chat hello_update quiet_world after_hello) in
     exists s',
       user_data st' !! effective_user_id hello_update = Some s'
       /\ model_name s' = DEFAULT_MODEL
       /\ objects st' !! chat s' = Some {| chat_model := DEFAULT_MODEL; history := [] |}
       /\ objects after_hello !! chat s' = None
       /\ chat s' <> 0%nat
       /\ (forall c cs, objects after_hello !! c = Some cs -> objects st' !! c = Some cs)
       /\ (forall other, other <> effective_user_id hello_update ->
             user_data st' !! other = user_data after_hello !! other).
Proof.
  split.
  - eexists. split; reflexivity.
  - apply (new_chat_keeps_model_and_clears_history quiet_world after_hello hello_update
             {| chat := 0; model_name := DEFAULT_MODEL |}).
    + apply reachable_step, reachable_initial.
    + reflexivity.
Defined.

Lemma switch_model_invalid_eq (w : world) (st : state) (u : update)
    (name : str) (more : list str) (e : exn) :
  GenerativeModel_raises w name = Some e ->
  context_args u = name :: more ->
  switch_model u w st = call_telegram (reply_text (SwitchFailed e) None) w st.
Proof.
  intros Hbad Hargs. unfold switch_model. rewrite Hargs.
  unfold try_except, bind, GenerativeModel. by rewrite Hbad.
Qed.

Lemma model_callback_invalid_eq (w : world) (st : state) (u : update)
    (name : str) (e : exn) :
  GenerativeModel_raises w name = Some e ->
  callback_data u = lit "model:" ++ name ->
  model_callback u w st =
  (call_telegram query_answer;;
   call_telegram (edit_message_text (SwitchFailed e) None)) w st.
Proof.
  intros Hbad Hdata. unfold model_callback. rewrite Hdata.
  destruct (callback_data_model name) as [-> ->].
  unfold bind. destruct (call_telegram query_answer w st) as [[[]|e0] st1]; [|done].
  unfold try_except, GenerativeModel. by rewrite Hbad.
Qed.

(** Claim C5, amended.  When the handle of the requested model cannot be
    built, the switch leaves [user_data] and every [ChatSession] object as
    they were, and the only message it sends is the failure notice with the
    text of the exception, as plain text (for the button, after the
    acknowledgement of the callback).  The operation returns normally
    exactly when the platform accepts what it sends: an exception raised by
    the failure notice, or by the acknowledgement, propagates to the
    caller, and then the user has received no failure message. *)
Theorem switch_to_invalid_model_keeps_session
    (w : world) (st : state) (u : update) (name : str) (e : exn) :
  GenerativeModel_raises w name = Some e ->
  (forall more, context_args u = name :: more ->
     let notice := reply_text (SwitchFailed e) None in
     let o := telegram w (tick st) notice in
     let st' := snd (switch_model u w st) in
     fst (switch_model u w st) = after_send o
     /\ user_data st' = user_data st
     /\ objects st' = objects st
     /\ sent st' = sent st ++ [(notice, o)])
  /\ (callback_data u = lit "model:" ++ name ->
      let notice := edit_message_text (SwitchFailed e) None in
      let st' := snd (model_callback u w st) in
      user_data st' = user_data st
      /\ objects st' = objects st
      /\ match telegram w (tick st) query_answer with
         | Some e0 =>
             fst (model_callback u w st) = Raise e0
             /\ sent st' = sent st ++ [(query_answer, Some e0)]
         | None =>
             let o := telegram w (S (tick st)) notice in
             fst (model_callback u w st) = after_send o
             /\ sent st' = sent st ++ [(query_answer, None); (notice, o)]
         end).
Proof.
  intros Hbad. split.
  - intros more Hargs. cbv zeta.
    rewrite (switch_model_invalid_eq w st u name more e Hbad Hargs).
    by rewrite call_telegram_eq.
  - intros Hdata. cbv zeta.
    rewrite (model_callback_invalid_eq w st u name e Hbad Hdata).
    unfold bind. rewrite call_telegram_eq.
    destruct (telegram w (tick st) query_answer) as [e0|] eqn:Ea; cbn [after_send].
    + done.
    + rewrite call_telegram_eq. cbn. by rewrite <- app_assoc.
Qed.

Lemma switch_to_invalid_model_keeps_session_witness :
  (forall more, context_args (switch_update (lit "nope")) = lit "nope" :: more ->
     let notice := reply_text (SwitchFailed (lit "unknown model")) None in
     let o := telegram picky_world (tick after_hello) notice in
     let st' := snd (switch_model (switch_update (lit "nope")) picky_world after_hello) in
     fst (switch_model (switch_update (lit "nope")) picky_world after_hello) = after_send o
     /\ user_data st' = user_data after_hello
     /\ objects st' = objects after_hello
     /\ sent st' = sent after_hello ++ [(notice, o)])
  /\ (callback_data (switch_update (lit "nope")) = lit "model:" ++ lit "nope" ->
      let notice := edit_message_text (SwitchFailed (lit "unknown model")) None in
      let st' := snd (model_callback (switch_update (lit "nope")) picky_world after_hello) in
      user_data st' = user_data after_hello
      /\ objects st' = objects after_hello
      /\ match telegram picky_world (tick after_hello) query_answer with
         | Some e0 =>
             fst (model_callback (switch_update (lit "nope")) picky_world after_hello)
               = Raise e0
             /\ sent st' = sent after_hello ++ [(query_answer, Some e0)]
         | None =>
             let o := telegram picky_world (S (tick after_hello)) notice in
             fst (model_callback (switch_update (lit "nope")) picky_world after_hello)
               = after_send o
             /\ sent st' = sent after_hello ++ [(query_answer, None); (notice, o)]
         end).
Proof.
  apply (switch_to_invalid_model_keeps_session
           picky_world after_hello (switch_update (lit "nope")) (lit "nope")
           (lit "unknown model")).
  reflexivity.
Defined.

(** Claim C5 as stated fails when the platform cannot be reached: the handle
    of ["nope"] cannot be built, the failure notice itself raises, and that
    exception leaves [switch_model] (and [model_callback], from the
    acknowledgement) with no message delivered. *)
Lemma switch_failure_notice_can_raise :
  GenerativeModel_raises unreachable_world (lit "nope") = Some (lit "unknown model")
  /\ context_args (switch_update (lit "nope")) = [lit "nope"]
  /\ fst (switch_model (switch_update (lit "nope")) unreachable_world initial_state)
       = Raise (lit "timed out")
  /\ sent (snd (switch_model (switch_update (lit "nope")) unreachable_world initial_state))
       = [(reply_text (SwitchFailed (lit "unknown model")) None, Some (lit "timed out"))]
  /\ fst (model_callback (switch_update (lit "nope")) unreachable_world initial_state)
       = Raise (lit "timed out")
  /\ sent (snd (model_callback (switch_update (lit "nope")) unreachable_world initial_state))
       = [(query_answer, Some (lit "timed out"))].
Proof. repeat split; reflexivity. Qed.

Lemma try_switch_outcome (w : world) (st1 : state) (confirm : api_call)
    (notice : exn -> api_call) :
  let res :=
    match call_telegram confirm w st1 with
    | (Ok a, st2) => (Ok a, st2)
    | (Raise e, st2) => call_telegram (notice e) w st2
    end in
  switch_outcome w (sent st1) st1 confirm notice (fst res) (snd res).
Proof.
  cbv zeta. rewrite call_telegram_eq. unfold switch_outcome.
  destruct (telegram w (tick st1) confirm) as [e|]; cbn [after_send].
  - rewrite call_telegram_eq. cbn. by rewrite <- app_assoc.
  - done.
Qed.

Lemma switch_model_valid_eq (w : world) (st : state) (u : update)
    (name : str) (more : list str) :
  context_args u = name :: more ->
  switch_model u w st =
  try_except
    (GenerativeModel name;;
     replace_session (effective_user_id u) name;;
     let* display_name := get_model_display_name name in
     call_telegram (reply_text (Switched display_name) (Some MARKDOWN_V2)))
    (fun e => call_telegram (reply_text (SwitchFailed e) None)) w st.
Proof. intros Hargs. unfold switch_model. by rewrite Hargs. Qed.

Lemma model_callback_answered_eq (w : world) (st : state) (u : update) (name : str) :
  callback_data u = lit "model:" ++ name ->
  telegram w (tick st) query_answer = None ->
  model_callback u w st =
  try_except
    (GenerativeModel name;;
     replace_session (effective_user_id u) name;;
     let* display_name := get_model_display_name name in
     call_telegram
       (edit_message_text (SwitchedCleared display_name) (Some MARKDOWN_V2)))
    (fun e => call_telegram (edit_message_text (SwitchFailed e) None))
    w (next_tick (log_sent query_answer None st)).
Proof.
  intros Hdata Hanswer. unfold model_callback. rewrite Hdata.
  destruct (callback_data_model name) as [-> ->].
  unfold bind at 1. by rewrite call_telegram_eq, Hanswer.
Qed.

(** Claim C10.  When the handle of the requested model can be built, the
    session is replaced before the confirmation is sent: in the state [st1]
    in which the confirmation goes out, [user_data] already holds the new
    session with its empty conversation, and the end of the operation
    changes neither.  If the platform rejects the confirmation with [e], the
    handler answers with the failure notice built from [e], so the user is
    told that the switch failed although the model is switched and the
    conversation cleared.  (Resolving the display name cannot raise:
    [get_available_models] absorbs every failure.) *)
Theorem switch_commits_before_confirming
    (w : world) (st : state) (u : update) (name : str) :
  GenerativeModel_raises w name = None ->
  (forall more, context_args u = name :: more ->
     exists d st1,
       user_data st1
         = <[effective_user_id u := fresh_session st name]> (user_data st)
       /\ objects st1 = objects st ++ [empty_chat name]
       /\ switch_outcome w (sent st) st1
            (reply_text (Switched d) (Some MARKDOWN_V2))
            (fun e => reply_text (SwitchFailed e) None)
            (fst (switch_model u w st)) (snd (switch_model u w st)))
  /\ (callback_data u = lit "model:" ++ name ->
      telegram w (tick st) query_answer = None ->
      exists d st1,
        user_data st1
          = <[effective_user_id u := fresh_session st name]> (user_data st)
        /\ objects st1 = objects st ++ [empty_chat name]
        /\ switch_outcome w (sent st ++ [(query_answer, None)]) st1
             (edit_message_text (SwitchedCleared d) (Some MARKDOWN_V2))
             (fun e => edit_message_text (SwitchFailed e) None)
             (fst (model_callback u w st)) (snd (model_callback u w st))).
Proof.
  intros Hok. split.
  - intros more Hargs.
    destruct (switch_body_eq w st (effective_user_id u) name
                (fun d => reply_text (Switched d) (Some MARKDOWN_V2)) Hok)
      as (d & st1 & Hbody & Hu & Ho & Hs).
    exists d, st1. split; [done|]. split; [done|].
    rewrite (switch_model_valid_eq w st u name more Hargs).
    unfold try_except. rewrite Hbody, <- Hs. apply try_switch_outcome.
  - intros Hdata Hanswer.
    rewrite (model_callback_answered_eq w st u name Hdata Hanswer).
    set (st0 := next_tick (log_sent query_answer None st)).
    destruct (switch_body_eq w st0 (effective_user_id u) name
                (fun d => edit_message_text (SwitchedCleared d) (Some MARKDOWN_V2)) Hok)
      as (d & st1 & Hbody & Hu & Ho & Hs).
    exists d, st1. split; [done|]. split; [done|].
    unfold try_except. rewrite Hbody.
    change (sent st ++ [(query_answer, None)]) with (sent st0). rewrite <- Hs.
    apply try_switch_outcome.
Qed.

Lemma switch_commits_before_confirming_witness :
  (exists d st1,
     user_data st1
       = <[1 := fresh_session initial_state (lit "gemini-1.5-pro")]> (user_data initial_state)
     /\ objects st1 = objects initial_state ++ [empty_chat (lit "gemini-1.5-pro")]
     /\ switch_outcome markdown_rejecting_world (sent initial_state) st1
          (reply_text (Switched d) (Some MARKDOWN_V2))
          (fun e => reply_text (SwitchFailed e) None)
          (fst (switch_model (switch_update (lit "gemini-1.5-pro"))
                  markdown_rejecting_world initial_state))
          (snd (switch_model (switch_update (lit "gemini-1.5-pro"))
                  markdown_rejecting_world initial_state)))
  /\ sent (snd (switch_model (switch_update (lit "gemini-1.5-pro"))
                  markdown_rejecting_world initial_state))
     = [(reply_text (Switched (lit "gemini-1.5-pro")) (Some MARKDOWN_V2),
         Some (lit "can't parse entities"));
        (reply_text (SwitchFailed (lit "can't parse entities")) None, None)]
  /\ user_data (snd (switch_model (switch_update (lit "gemini-1.5-pro"))
                       markdown_rejecting_world initial_state)) !! 1
     = Some {| chat := 0; model_name := lit "gemini-1.5-pro" |}.
Proof.
  split; [|split; reflexivity].
  apply (proj1 (switch_commits_before_confirming markdown_rejecting_world initial_state
                  (switch_update (lit "gemini-1.5-pro")) (lit "gemini-1.5-pro") eq_refl) []).
  reflexivity.
Defined.

(** ** Reply delivery *)

Lemma replace_from_backslash (t : str) :
  replace_from [BACKSLASH] [] t 0 = without_backslashes t.
Proof.
  unfold without_backslashes. induction t as [|c t IH]; [done|].
  cbn [replace_from startswith length Nat.sub app]. rewrite filter_cons.
  destruct (Ascii.eqb_spec BACKSLASH c) as [<-|Hne]; cbn [andb].
  - rewrite decide_False by (by intros H; apply H). exact IH.
  - rewrite decide_True by (by intros ->). by rewrite IH.
Qed.

Lemma replace_backslash (t : str) :
  replace [BACKSLASH] [] t = without_backslashes t.
Proof. apply replace_from_backslash. Qed.

Lemma deliver_chunk_eq (pt : part_type) (chunk : str) (w : world) (st : state) :
  deliver_chunk pt chunk w st =
  match call_telegram (formatted_send chunk) w st with
  | (Ok a, st1) => (Ok a, st1)
  | (Raise _, st1) => call_telegram (plain_send chunk) w st1
  end.
Proof.
  unfold deliver_chunk, try_except, plain_send, formatted_send.
  rewrite replace_backslash. by destruct pt.
Qed.

Lemma deliver_chunk_attempt (pt : part_type) (chunk : str) (w : world) (st : state) :
  exists calls,
    chunk_attempt chunk calls (fst (deliver_chunk pt chunk w st))
    /\ sent (snd (deliver_chunk pt chunk w st)) = sent st ++ calls
    /\ user_data (snd (deliver_chunk pt chunk w st)) = user_data st
    /\ objects (snd (deliver_chunk pt chunk w st)) = objects st.
Proof.
  rewrite deliver_chunk_eq, call_telegram_eq.
  destruct (telegram w (tick st) (formatted_send chunk)) as [e|]; cbn [after_send].
  - rewrite call_telegram_eq. eexists. split; [apply attempt_fallback|].
    cbn. by rewrite <- app_assoc.
  - eexists. split; [apply attempt_formatted|]. done.
Qed.

Lemma for_each_chunks_delivery (pt : part_type) (chunks : list str)
    (w : world) (st : state) :
  exists calls,
    delivery chunks calls (fst (for_each chunks (deliver_chunk pt) w st))
    /\ sent (snd (for_each chunks (deliver_chunk pt) w st)) = sent st ++ calls
    /\ user_data (snd (for_each chunks (deliver_chunk pt) w st)) = user_data st
    /\ objects (snd (for_each chunks (deliver_chunk pt) w st)) = objects st.
Proof.
  revert st. induction chunks as [|chunk chunks IH]; intros st.
  - exists []. split; [constructor|]. by rewrite app_nil_r.
  - cbn [for_each]. unfold bind.
    destruct (deliver_chunk_attempt pt chunk w st) as (calls & Hatt & Hs & Hu & Ho).
    destruct (deliver_chunk pt chunk w st) as [[[]|e] st1]; cbn [fst snd] in *.
    + destruct (IH st1) as (calls' & Hd & Hs' & Hu' & Ho').
      exists (calls ++ calls'). split; [by eapply delivery_next|].
      by rewrite Hs', Hs, Hu', Hu, Ho', Ho, app_assoc.
    + exists calls. split; [by apply delivery_stop|done].
Qed.

Lemma delivery_app (chunks chunks' : list str) (calls calls' : list (api_call * option exn))
    (r : outcome unit) :
  delivery chunks calls (Ok tt) -> delivery chunks' calls' r ->
  delivery (chunks ++ chunks') (calls ++ calls') r.
Proof.
  intros H. remember (Ok tt) as ok eqn:Hok. revert Hok.
  induction H as [|chunk chunks0 c1 c2 r0 Hatt Hd IH|chunk chunks0 c1 e Hatt];
    intros Hok Hd'.
  - done.
  - cbn [app]. rewrite <- app_assoc. apply delivery_next; [done|]. by apply IH.
  - discriminate Hok.
Qed.

Lemma delivery_app_stop (chunks chunks' : list str) (calls : list (api_call * option exn))
    (e : exn) :
  delivery chunks calls (Raise e) -> delivery (chunks ++ chunks') calls (Raise e).
Proof.
  intros H. remember (Raise e) as r eqn:Hr. revert Hr.
  induction H as [|chunk chunks0 c1 c2 r0 Hatt Hd IH|chunk chunks0 c1 e0 Hatt];
    intros Hr.
  - discriminate Hr.
  - cbn [app]. apply delivery_next; [done|]. by apply IH.
  - cbn [app]. by apply delivery_stop.
Qed.

Lemma deliver_reply_delivery (parts : list (part_type * str)) (w : world) (st : state) :
  exists calls,
    delivery (reply_chunks parts) calls (fst (deliver_reply parts w st))
    /\ sent (snd (deliver_reply parts w st)) = sent st ++ calls
    /\ user_data (snd (deliver_reply parts w st)) = user_data st
    /\ objects (snd (deliver_reply parts w st)) = objects st.
Proof.
  unfold deliver_reply, reply_chunks. revert st.
  induction parts as [|part parts IH]; intros st.
  - exists []. split; [constructor|]. by rewrite app_nil_r.
  - cbn [for_each flat_map]. unfold bind.
    destruct (for_each_chunks_delivery (fst part) (split_message_default (snd part)) w st)
      as (calls & Hd & Hs & Hu & Ho).
    destruct (for_each (split_message_default part.2) (deliver_chunk part.1) w st)
      as [[[]|e] st1]; cbn [fst snd] in *.
    + destruct (IH st1) as (calls' & Hd' & Hs' & Hu' & Ho').
      exists (calls ++ calls'). split; [by apply delivery_app|].
      by rewrite Hs', Hs, Hu', Hu, Ho', Ho, app_assoc.
    + exists calls. split; [by apply delivery_app_stop|done].
Qed.

Lemma chunk_attempt_formatted_chunks (chunk : str) (calls : list (api_call * option exn))
    (r : outcome unit) :
  chunk_attempt chunk calls r -> formatted_chunks calls = [chunk].
Proof. by intros []. Qed.

Lemma formatted_chunks_app (calls calls' : list (api_call * option exn)) :
  formatted_chunks (calls ++ calls') = formatted_chunks calls ++ formatted_chunks calls'.
Proof. apply omap_app. Qed.

(** Each chunk is sent formatted once, in order, up to the chunk at which the
    delivery stops. *)
Lemma delivery_formatted_chunks (chunks : list str) (calls : list (api_call * option exn))
    (r : outcome unit) :
  delivery chunks calls r ->
  formatted_chunks calls `prefix_of` chunks
  /\ (r = Ok tt -> formatted_chunks calls = chunks).
Proof.
  induction 1 as [|chunk chunks c1 c2 r Hatt Hd [IH1 IH2]|chunk chunks c1 e Hatt].
  - split; [done|done].
  - rewrite formatted_chunks_app, (chunk_attempt_formatted_chunks _ _ _ Hatt).
    cbn [app]. split; [by apply prefix_cons|]. intros Hr. f_equal. by apply IH2.
  - rewrite (chunk_attempt_formatted_chunks _ _ _ Hatt).
    split; [|done]. apply prefix_cons, prefix_nil.
Qed.

Lemma chunk_attempt_inv (chunk : str) (calls : list (api_call * option exn))
    (r : outcome unit) :
  chunk_attempt chunk calls r ->
  (calls = [(formatted_send chunk, None)] /\ r = Ok tt)
  \/ exists e o,
       calls = [(formatted_send chunk, Some e);
                (reply_text (Text (without_backslashes chunk)) None, o)]
       /\ r = after_send o.
Proof. intros [|e o]; [by left|right; by exists e, o]. Qed.

(** A rejected formatted send is followed at once by the plain send of the
    same chunk. *)
Lemma delivery_rejected_then_plain (chunks : list str)
    (calls : list (api_call * option exn)) (r : outcome unit) :
  delivery chunks calls r ->
  forall before chunk e after,
    calls = before ++ (formatted_send chunk, Some e) :: after ->
    exists o after', after = (plain_send chunk, o) :: after'.
Proof.
  unfold plain_send, formatted_send.
  induction 1 as [|chunk0 chunks c1 c2 r Hatt Hd IH|chunk0 chunks c1 e0 Hatt];
    intros before chunk e after Heq.
  - by destruct before.
  - destruct (chunk_attempt_inv _ _ _ Hatt) as [[-> _]|(e1 & o1 & -> & _)];
      unfold formatted_send in Heq.
    + destruct before as [|b before]; simplify_eq/=. by eapply IH.
    + destruct before as [|b1 [|b2 before]]; simplify_eq/=; [eauto|].
      by eapply IH.
  - destruct (chunk_attempt_inv _ _ _ Hatt) as [[-> [=]]|(e1 & o1 & -> & _)];
      unfold formatted_send in Heq.
    destruct before as [|b1 [|b2 [|]]]; simplify_eq/=. eauto.
Qed.

(** A plain send happens only right after the rejected formatted send of the
    chunk it repeats. *)
Lemma delivery_plain_after_rejected (chunks : list str)
    (calls : list (api_call * option exn)) (r : outcome unit) :
  delivery chunks calls r ->
  forall before t o after,
    calls = before ++ (reply_text (Text t) None, o) :: after ->
    exists before' chunk e,
      before = before' ++ [(formatted_send chunk, Some e)]
      /\ t = without_backslashes chunk.
Proof.
  induction 1 as [|chunk0 chunks c1 c2 r Hatt Hd IH|chunk0 chunks c1 e0 Hatt];
    intros before t o after Heq.
  - by destruct before.
  - destruct (chunk_attempt_inv _ _ _ Hatt) as [[-> _]|(e1 & o1 & -> & _)];
      unfold formatted_send in Heq.
    + destruct before as [|b before]; simplify_eq/=.
      destruct (IH _ _ _ _ eq_refl) as (before' & chunk & e & -> & ->).
      exists ((formatted_send chunk0, None) :: before'), chunk, e.
      split; reflexivity.
    + destruct before as [|b1 [|b2 before]]; simplify_eq/=.
      * exists [], chunk0, e1. split; reflexivity.
      * destruct (IH _ _ _ _ eq_refl) as (before' & chunk & e & -> & ->).
        exists ((formatted_send chunk0, Some e1)
                  :: (plain_send chunk0, o1) :: before'), chunk, e.
        split; reflexivity.
  - destruct (chunk_attempt_inv _ _ _ Hatt) as [[-> [=]]|(e1 & o1 & -> & _)];
      unfold formatted_send in Heq.
    destruct before as [|b1 [|b2 [|]]]; simplify_eq/=.
    exists [], chunk0, e1. split; reflexivity.
Qed.

Lemma without_backslashes_spec (chunk : str) :
  (BACKSLASH ∉ without_backslashes chunk)
  /\ without_backslashes chunk = replace [BACKSLASH] [] chunk.
Proof.
  split; [|by rewrite replace_backslash].
  unfold without_backslashes. intros H. by apply list_elem_of_filter in H as [? _].
Qed.

(** Claim C8.  The calls made while a formatted reply is delivered are, chunk
    after chunk in order, one formatted send per chunk, followed by one plain
    send of the same chunk when, and only when, the formatted send was
    rejected; the plain text is the chunk with every backslash removed.
    Earlier calls stay in the log as they are, no chunk is sent formatted
    twice, and a delivery that returns has sent every chunk. *)
Theorem rejected_chunk_falls_back_alone
    (w : world) (st : state) (formatted_parts : list (part_type * str)) :
  let r := fst (deliver_reply formatted_parts w st) in
  let st' := snd (deliver_reply formatted_parts w st) in
  exists calls,
    sent st' = sent st ++ calls
    /\ delivery (reply_chunks formatted_parts) calls r
    /\ (forall before chunk e after,
          calls = before ++ (formatted_send chunk, Some e) :: after ->
          exists o after', after = (plain_send chunk, o) :: after')
    /\ (forall before t o after,
          calls = before ++ (reply_text (Text t) None, o) :: after ->
          exists before' chunk e,
            before = before' ++ [(formatted_send chunk, Some e)]
            /\ t = replace [BACKSLASH] [] chunk
            /\ (BACKSLASH ∉ t))
    /\ formatted_chunks calls `prefix_of` reply_chunks formatted_parts
    /\ (r = Ok tt -> formatted_chunks calls = reply_chunks formatted_parts).
Proof.
  cbv zeta.
  destruct (deliver_reply_delivery formatted_parts w st) as (calls & Hd & Hs & _).
  exists calls. split; [done|]. split; [done|].
  split; [by eapply delivery_rejected_then_plain|].
  split.
  - intros before t o after Heq.
    destruct (delivery_plain_after_rejected _ _ _ Hd _ _ _ _ Heq)
      as (before' & chunk & e & -> & ->).
    exists before', chunk, e. split; [done|].
    destruct (without_backslashes_spec chunk) as [Hno <-]. done.
  - by eapply delivery_formatted_chunks.
Qed.

Lemma rejected_chunk_falls_back_alone_witness :
  sent (snd (deliver_reply (format_for_telegram_simple (lit "Hi **there**!"))
               markdown_rejecting_world initial_state))
  = [(formatted_send (lit "Hi \*\*there\*\*\!"), Some (lit "can't parse entities"));
     (reply_text (Text (lit "Hi **there**!")) None, None)]
  /\ exists calls,
       sent (snd (deliver_reply (format_for_telegram_simple (lit "Hi **there**!"))
                    markdown_rejecting_world initial_state))
       = sent initial_state ++ calls
       /\ delivery (reply_chunks (format_for_telegram_simple (lit "Hi **there**!"))) calls
            (fst (deliver_reply (format_for_telegram_simple (lit "Hi **there**!"))
                    markdown_rejecting_world initial_state))
       /\ (forall before chunk e after,
             calls = before ++ (formatted_send chunk, Some e) :: after ->
             exists o after', after = (plain_send chunk, o) :: after')
       /\ (forall before t o after,
             calls = before ++ (reply_text (Text t) None, o) :: after ->
             exists before' chunk e,
               before = before' ++ [(formatted_send chunk, Some e)]
               /\ t = replace [BACKSLASH] [] chunk
               /\ (BACKSLASH ∉ t))
       /\ formatted_chunks calls
            `prefix_of` reply_chunks (format_for_telegram_simple (lit "Hi **there**!"))
       /\ (fst (deliver_reply (format_for_telegram_simple (lit "Hi **there**!"))
                  markdown_rejecting_world initial_state) = Ok tt ->
           formatted_chunks calls
           = reply_chunks (format_for_telegram_simple (lit "Hi **there**!"))).
Proof.
  split; [vm_compute; reflexivity|].
  apply (rejected_chunk_falls_back_alone markdown_rejecting_world initial_state
           (format_for_telegram_simple (lit "Hi **there**!"))).
Defined.

(** ** More on the chunker *)

(** The chunks cut by the loop are longer than half of [max_length]. *)
Lemma split_loop_sizes (fuel : nat) (t : str) (max_length : Z) (chunks : list str) :
  1 <= max_length ->
  (length t <= fuel)%nat ->
  exists new rest,
    split_loop fuel t max_length chunks = Some (chunks ++ new, rest)
    /\ concat new ++ rest = t
    /\ Forall (fun c => max_length / 2 < len c <= max_length) new
    /\ len rest <= max_length
    /\ (max_length < len t -> new <> []).
Proof.
  intros Hm. revert t chunks.
  induction fuel as [|fuel IH]; intros t chunks Hfuel.
  - exists [], t. destruct t; [|simpl in Hfuel; lia]. simpl.
    destruct (Z.gtb_spec (len []) max_length) as [Hgt|Hle];
      [unfold len in Hgt; simpl in Hgt; lia|].
    rewrite app_nil_r. repeat split; auto. lia.
  - rewrite split_loop_S. destruct (Z.gtb_spec (len t) max_length) as [Hgt|Hle].
    + assert (1 <= max_length <= len t) as Hin by lia.
      pose proof (find_split_range t max_length separators Hin) as Hr.
      set (p := find_split t max_length separators) in *.
      assert (0 <= max_length / 2) by (apply Z.div_pos; lia).
      assert (0 <= p <= len t) as Hp by lia.
      destruct (IH (slice_from t p) (chunks ++ [slice_to t p]))
        as (new & rest & Heq & Hcat & Hall & Hrest & _).
      { pose proof (len_slice_from t p Hp) as Hl. unfold len in Hl. lia. }
      exists (slice_to t p :: new), rest.
      rewrite Heq, <- app_assoc. simpl. repeat split; auto.
      * rewrite <- app_assoc, Hcat. apply slice_to_from.
      * constructor; [|done]. rewrite len_slice_to by lia. lia.
    + exists [], t. rewrite app_nil_r. repeat split; auto. lia.
Qed.

(** The two shapes of a result of [split_message]: the text itself, or at
    least one cut chunk followed by the remainder, if that is not empty. *)
Lemma split_message_shape (t : str) (max_length : Z) :
  1 <= max_length ->
  (len t <= max_length /\ split_message t max_length = Some [t])
  \/ (max_length < len t
      /\ exists cut last,
           split_message t max_length = Some (cut ++ last)
           /\ cut <> []
           /\ concat (cut ++ last) = t
           /\ Forall (fun c => max_length / 2 < len c <= max_length) cut
           /\ (last = [] \/ exists r, last = [r] /\ 1 <= len r <= max_length)).
Proof.
  intros Hm. unfold split_message, split_message_fuel.
  destruct (Z.leb_spec (len t) max_length) as [Hle|Hgt]; [by left|right].
  split; [done|].
  destruct (split_loop_sizes (length t) t max_length [] Hm (Nat.le_refl _))
    as (new & rest & -> & Hcat & Hall & Hrest & Hne).
  cbn [app]. exists new. destruct rest as [|c rest].
  - exists []. rewrite app_nil_r in *. split; [done|]. split; [by apply Hne|].
    split; [done|]. split; [done|by left].
  - exists [c :: rest]. split; [done|]. split; [by apply Hne|].
    split; [by rewrite concat_app, <- Hcat; cbn [concat]; rewrite app_nil_r|].
    split; [done|].
    right. exists (c :: rest). split; [done|]. unfold len in *. simpl in *. lia.
Qed.

Lemma len_app (a b : str) : len (a ++ b) = len a + len b.
Proof. unfold len. rewrite length_app. lia. Qed.

(** Property X1.  With [max_length >= 1], [split_message] returns the text
    itself as the only chunk exactly when the text has at most [max_length]
    characters (the empty text gives one empty chunk); a longer text gives
    at least two chunks. *)
Theorem split_message_one_chunk_iff_fits (t : str) (max_length : Z) :
  1 <= max_length ->
  exists chunks,
    split_message t max_length = Some chunks
    /\ (len t <= max_length -> chunks = [t])
    /\ (max_length < len t -> (2 <= length chunks)%nat).
Proof.
  intros Hm.
  destruct (split_message_shape t max_length Hm)
    as [[Hle ->]|(Hgt & cut & last & -> & Hne & Hcat & Hall & Hlast)].
  - exists [t]. split; [done|]. split; [done|lia].
  - exists (cut ++ last). split; [done|]. split; [lia|]. intros _.
    rewrite length_app.
    destruct cut as [|c1 [|c2 cut]]; [done| |simpl; lia].
    destruct last as [|l last]; [|simpl; lia].
    exfalso. inversion Hall as [|?? Hc _]; subst.
    simpl in Hgt. rewrite !app_nil_r in Hgt. lia.
Qed.

Lemma split_message_one_chunk_iff_fits_witness :
  1 <= 3
  /\ exists chunks,
       split_message (lit "abcdefg") 3 = Some chunks
       /\ (len (lit "abcdefg") <= 3 -> chunks = [lit "abcdefg"])
       /\ (3 < len (lit "abcdefg") -> (2 <= length chunks)%nat).
Proof.
  split; [lia|]. apply (split_message_one_chunk_iff_fits (lit "abcdefg") 3). lia.
Defined.

(** Property X2.  With [max_length >= 1] and a non-empty text, no chunk of
    [split_message] is empty, and every chunk except the last one is longer
    than [max_length // 2]: the chunker never cuts in the first half of the
    window. *)
Theorem split_message_chunks_over_half (t : str) (max_length : Z) :
  1 <= max_length ->
  t <> [] ->
  exists chunks,
    split_message t max_length = Some chunks
    /\ Forall (fun c => 1 <= len c) chunks
    /\ forall (i : nat) (c : str),
         chunks !! i = Some c -> (S i < length chunks)%nat ->
         max_length / 2 < len c.
Proof.
  intros Hm Hne.
  assert (0 <= max_length / 2) by (apply Z.div_pos; lia).
  destruct (split_message_shape t max_length Hm)
    as [[Hle ->]|(Hgt & cut & last & -> & Hcut & Hcat & Hall & Hlast)].
  - exists [t]. split; [done|]. split.
    + constructor; [|done]. destruct t; [done|]. unfold len. simpl. lia.
    + intros i c _ Hi. simpl in Hi. lia.
  - exists (cut ++ last). split; [done|]. split.
    + apply Forall_app. split.
      * eapply Forall_impl; [exact Hall|]. simpl. intros; lia.
      * destruct Hlast as [->|(r & -> & Hr)]; [done|]. constructor; [lia|done].
    + intros i c Hi Hlt. rewrite length_app in Hlt.
      destruct (decide (i < length cut)%nat) as [Hin|Hout].
      * rewrite lookup_app_l in Hi by done.
        rewrite Forall_lookup in Hall. apply (Hall i c Hi).
      * exfalso. destruct Hlast as [->|(r & -> & _)]; simpl in Hlt; lia.
Qed.

Lemma split_message_chunks_over_half_witness :
  1 <= 4 /\ lit "ab cdefghi" <> []
  /\ exists chunks,
       split_message (lit "ab cdefghi") 4 = Some chunks
       /\ Forall (fun c => 1 <= len c) chunks
       /\ forall (i : nat) (c : str),
            chunks !! i = Some c -> (S i < length chunks)%nat ->
            4 / 2 < len c.
Proof.
  split; [lia|]. split; [done|].
  apply (split_message_chunks_over_half (lit "ab cdefghi") 4); [lia|done].
Defined.

Lemma find_split_zero (t : str) : find_split t 0 separators = 0.
Proof.
  assert (slice_to t 0 = []) as Hw.
  { unfold slice_to, adjust_index. pose proof (len_nonneg t).
    replace (Z.to_nat _) with 0%nat by (cbn [Z.ltb Z.compare]; lia). done. }
  unfold separators, find_split, rfind. rewrite Hw. reflexivity.
Qed.

Lemma split_loop_no_room (fuel : nat) (t : str) (max_length : Z) (chunks : list str) :
  max_length <= 0 -> max_length < len t ->
  split_loop fuel t max_length chunks = None.
Proof.
  intros Hm. revert t chunks. induction fuel as [|fuel IH]; intros t chunks Hlt.
  - simpl. by destruct (Z.gtb_spec (len t) max_length); [|lia].
  - rewrite split_loop_S. destruct (Z.gtb_spec (len t) max_length); [|lia].
    apply IH. destruct (decide (max_length = 0)) as [->|Hneg].
    + rewrite find_split_zero.
      replace (slice_from t 0) with t; [done|].
      unfold slice_from, adjust_index. pose proof (len_nonneg t).
      replace (Z.to_nat _) with 0%nat by (cbn [Z.ltb Z.compare]; lia). done.
    + pose proof (len_nonneg (slice_from t (find_split t max_length separators))). lia.
Qed.

(** Property X3.  With [max_length <= 0] and a text longer than [max_length]
    (every text when [max_length] is negative, every non-empty text when it
    is [0]) the [while] loop of [split_message] never ends: whatever the
    number of iterations allowed, no result is returned. *)
Theorem split_message_needs_positive_max_length (t : str) (max_length : Z) :
  max_length <= 0 -> max_length < len t ->
  forall fuel : nat, split_message_fuel fuel t max_length = None.
Proof.
  intros Hm Hlt fuel. unfold split_message_fuel.
  destruct (Z.leb_spec (len t) max_length); [lia|].
  by rewrite split_loop_no_room.
Qed.

Lemma split_message_needs_positive_max_length_witness :
  0 <= 0 /\ 0 < len (lit "a")
  /\ forall fuel : nat, split_message_fuel fuel (lit "a") 0 = None.
Proof.
  split; [lia|]. split; [done|].
  apply (split_message_needs_positive_max_length (lit "a") 0); [lia|done].
Defined.

(** ** More on the formatter *)

Lemma lstrip_nil_iff (p : ascii -> bool) (t : str) :
  lstrip p t = [] <-> Forall (fun c => p c = true) t.
Proof.
  induction t as [|c t IH]; [done|]. cbn [lstrip].
  destruct (p c) eqn:Ec.
  - rewrite IH. split; [by constructor|by inversion 1].
  - split; [done|]. inversion 1; congruence.
Qed.

Lemma rstrip_all_nil (p : ascii -> bool) (t : str) :
  Forall (fun c => p c = true) (rstrip p t) -> rstrip p t = [].
Proof.
  induction t as [|c t IH]; [done|]. cbn [rstrip].
  destruct (rstrip p t) as [|r rs] eqn:E.
  - destruct (p c) eqn:Ec; [done|]. inversion 1; congruence.
  - inversion 1 as [|?? _ Hr]; subst. by apply IH in Hr.
Qed.

(** [t.strip()] is empty exactly when [t] holds white space only. *)
Lemma strip_nil_iff (t : str) :
  strip t = [] <-> Forall (fun c => isspace c = true) t.
Proof.
  unfold strip. rewrite lstrip_nil_iff. split.
  - intros H. by apply rstrip_all_nil, rstrip_nil_iff in H.
  - intros H. apply rstrip_nil_iff in H. by rewrite H.
Qed.

Lemma find_fence_none_startswith (s : str) :
  find_fence s = None -> startswith FENCE s = false.
Proof.
  destruct s as [|c s]; [done|]. unfold find_fence; fold find_fence.
  by destruct (startswith FENCE (c :: s)).
Qed.

(** A part that holds no fence is a text part. *)
Lemma format_part_plain (part : str) :
  find_fence part = None ->
  format_part part =
  match strip part with [] => [] | _ :: _ => [(text, escape_markdown_v2 part)] end.
Proof.
  intros H. unfold format_part. by rewrite (find_fence_none_startswith _ H).
Qed.

Lemma format_no_fence (t : str) :
  find_fence t = None ->
  format_for_telegram_simple t = format_part t.
Proof.
  intros H. unfold format_for_telegram_simple.
  rewrite re_split_unfold, next_block_none by (by apply find_fence_drop).
  cbn [flat_map]. apply app_nil_r.
Qed.

(** Property X4.  A reply that holds no triple backtick is formatted as a whole:
    it gives no segment at all when it is made of white space only (the
    empty reply included), and otherwise one text segment, the escaped form
    of the complete reply with its leading and trailing white space kept. *)
Theorem format_reply_without_fence (t : str) :
  (forall q, ~ occurs_at FENCE t q) ->
  (Forall (fun c => isspace c = true) t -> format_for_telegram_simple t = [])
  /\ (~ Forall (fun c => isspace c = true) t ->
      format_for_telegram_simple t = [(text, escape_markdown_v2 t)]).
Proof.
  intros Hno. apply find_fence_none_iff in Hno.
  rewrite (format_no_fence t Hno), (format_part_plain t Hno).
  split; intros Hsp.
  - apply strip_nil_iff in Hsp. by rewrite Hsp.
  - destruct (strip t) eqn:E; [|done]. by apply strip_nil_iff in E.
Qed.

Lemma format_reply_without_fence_witness :
  (Forall (fun c => isspace c = true) (lit " a.b ") ->
   format_for_telegram_simple (lit " a.b ") = [])
  /\ (~ Forall (fun c => isspace c = true) (lit " a.b ") ->
      format_for_telegram_simple (lit " a.b ") = [(text, escape_markdown_v2 (lit " a.b "))]).
Proof.
  apply (format_reply_without_fence (lit " a.b ")).
  apply find_fence_none_iff. reflexivity.
Defined.

(** The converse of [find_fence_first]. *)
Lemma find_fence_is_first (s b a : str) :
  find_fence s = Some (b, a) ->
  forall q, occurs_at FENCE s q -> len b <= q.
Proof.
  revert b. induction s as [|c s IH]; intros b; [done|].
  unfold find_fence; fold find_fence.
  destruct (startswith FENCE (c :: s)) eqn:E.
  - intros [= <- <-] q Hq. by apply occurs_at_nonneg in Hq.
  - destruct (find_fence s) as [[b' a']|] eqn:Ef; [|done].
    intros [= <- <-] q Hq.
    pose proof (occurs_at_nonneg _ _ _ Hq) as Hq0.
    destruct (decide (q = 0)) as [->|Hne].
    + apply occurs_at_zero in Hq. congruence.
    + apply occurs_at_tail in Hq; [|lia].
      specialize (IH b' eq_refl _ Hq). unfold len in *. simpl. lia.
Qed.

Lemma find_fence_before (b rest : str) :
  find_fence (b ++ FENCE ++ rest) = Some (b, rest) ->
  find_fence b = None.
Proof.
  intros H. apply find_fence_none_iff. intros q Hq.
  pose proof (occurs_at_fits _ _ _ Hq) as Hfit.
  destruct Hq as (x & y & -> & <-).
  assert (occurs_at FENCE ((x ++ FENCE ++ y) ++ FENCE ++ rest) (len x)) as Hocc.
  { exists x, (y ++ FENCE ++ rest). split; [by rewrite <- !app_assoc|done]. }
  apply (find_fence_is_first _ _ _ H) in Hocc.
  change (len FENCE) with 3 in Hfit. lia.
Qed.

(** The block that follows the first fence of the input is the leftmost
    block. *)
Lemma next_block_at_first_fence (before tag body after : str) :
  find_fence (before ++ FENCE ++ tag ++ [NL] ++ body ++ FENCE ++ after)
    = Some (before, tag ++ [NL] ++ body ++ FENCE ++ after) ->
  read_block (FENCE ++ tag ++ [NL] ++ body ++ FENCE ++ after) = Some (tag, body, after) ->
  next_block (before ++ FENCE ++ tag ++ [NL] ++ body ++ FENCE ++ after)
  = Some (before, (FENCE ++ tag ++ [NL] ++ body ++ FENCE, after)).
Proof.
  intros Hfirst Hrb. induction before as [|c before IH].
  - cbn [app] in *. set (s := FENCE ++ tag ++ NL :: body ++ FENCE ++ after) in *.
    assert (take (length s - length after) s = FENCE ++ tag ++ NL :: body ++ FENCE) as Ht.
    { subst s.
      replace (FENCE ++ tag ++ NL :: body ++ FENCE ++ after)
        with ((FENCE ++ tag ++ NL :: body ++ FENCE) ++ after).
      - rewrite length_app, Nat.add_sub. by rewrite take_app_length.
      - rewrite <- !app_assoc. cbn [app]. by rewrite <- !app_assoc. }
    destruct s as [|x s'] eqn:Es; [done|].
    unfold next_block; fold next_block. by rewrite Hrb, Ht.
  - cbn [app] in *. unfold next_block; fold next_block.
    unfold find_fence in Hfirst; fold find_fence in Hfirst.
    unfold read_block at 1.
    destruct (startswith FENCE (c :: before ++ FENCE ++ tag ++ NL :: body ++ FENCE ++ after))
      eqn:E; [done|].
    destruct (find_fence (before ++ FENCE ++ tag ++ NL :: body ++ FENCE ++ after))
      as [[b' a']|] eqn:Ef; [|done].
    injection Hfirst as -> ->. by rewrite IH.
Qed.

Lemma occurs_at_app_r (sep t after : str) (q : Z) :
  occurs_at sep t q -> occurs_at sep (t ++ after) q.
Proof.
  intros (x & y & -> & <-). exists x, (y ++ after). by rewrite <- !app_assoc.
Qed.

(** Property X5.  How the formatter composes around a fenced block.  When the
    opening fence of the block is the first triple backtick of the input,
    the tag after it is a run of word characters ended by a newline, and the
    closing fence is the first triple backtick after that newline, the
    result is the formatting of the text before the block, then one code
    segment, then the formatting of the text after the block.  The code
    segment wraps the escaped body, without its trailing newlines, in a
    fence that no longer carries the language tag. *)
Theorem format_around_block (before tag body after : str) :
  (forall q, occurs_at FENCE
               (before ++ FENCE ++ tag ++ [NL] ++ body ++ FENCE ++ after) q ->
             len before <= q) ->
  Forall (fun c => is_word c = true) tag ->
  (forall q, occurs_at FENCE (body ++ FENCE ++ after) q -> len body <= q) ->
  format_for_telegram_simple
    (before ++ FENCE ++ tag ++ [NL] ++ body ++ FENCE ++ after)
  = format_for_telegram_simple before
    ++ [(code, fenced (escape_markdown_v2 (rstrip (Ascii.eqb NL) body)))]
    ++ format_for_telegram_simple after.
Proof.
  intros Hopen Htag Hclose.
  pose proof (find_fence_first _ _ Hopen) as Hff.
  pose proof (read_block_tagged tag body after Htag Hclose) as Hrb.
  assert (read_block (FENCE ++ tag ++ [NL] ++ body ++ FENCE) = Some (tag, body, [])) as Hrb0.
  { rewrite <- (app_nil_r FENCE) at 2. apply read_block_tagged; [done|].
    rewrite app_nil_r. intros q Hq. apply Hclose.
    replace (body ++ FENCE ++ after) with ((body ++ FENCE) ++ after)
      by (by rewrite <- app_assoc).
    by apply occurs_at_app_r. }
  unfold format_for_telegram_simple at 1.
  rewrite re_split_unfold, (next_block_at_first_fence _ _ _ _ Hff Hrb).
  cbn [flat_map]. f_equal.
  - symmetry. apply format_no_fence. by apply find_fence_before in Hff.
  - f_equal.
    apply (format_part_code _ [(2%nat, body); (1%nat, tag)] []); [done|].
    by rewrite re_match_fence_match_re, Hrb0.
Qed.

Lemma first_fence_check (b a : str) :
  find_fence (b ++ FENCE ++ a) = Some (b, a) ->
  forall q, occurs_at FENCE (b ++ FENCE ++ a) q -> len b <= q.
Proof. apply find_fence_is_first. Qed.

Lemma format_around_block_witness :
  format_for_telegram_simple
    (lit "Run `it`: " ++ FENCE ++ lit "py" ++ [NL] ++ (lit "a_b" ++ [NL]) ++ FENCE
       ++ lit " done.")
  = format_for_telegram_simple (lit "Run `it`: ")
    ++ [(code, fenced (escape_markdown_v2 (rstrip (Ascii.eqb NL) (lit "a_b" ++ [NL]))))]
    ++ format_for_telegram_simple (lit " done.").
Proof.
  apply (format_around_block (lit "Run `it`: ") (lit "py") (lit "a_b" ++ [NL]) (lit " done.")).
  - by apply first_fence_check.
  - repeat constructor.
  - by apply first_fence_check.
Defined.

(** ** Escaping and the plain-text fallback *)

Lemma without_backslashes_app (a b : str) :
  without_backslashes (a ++ b) = without_backslashes a ++ without_backslashes b.
Proof. apply filter_app. Qed.

Lemma without_backslashes_escape_char (c : ascii) :
  without_backslashes (escape_char c) = without_backslashes [c].
Proof.
  unfold escape_char. destruct (is_special c) eqn:E; [|done].
  unfold without_backslashes. rewrite filter_cons.
  by rewrite decide_False by (by intros H; apply H).
Qed.

Lemma without_backslashes_escape (s : str) :
  without_backslashes (escape_markdown_v2 s) = without_backslashes s.
Proof.
  induction s as [|c s IH]; [done|].
  rewrite escape_markdown_v2_cons, without_backslashes_app, IH.
  rewrite without_backslashes_escape_char.
  by rewrite <- without_backslashes_app.
Qed.

Lemma without_backslashes_concat (l : list str) :
  without_backslashes (concat l) = concat (map without_backslashes l).
Proof.
  induction l as [|x l IH]; [done|].
  cbn [concat map]. by rewrite without_backslashes_app, IH.
Qed.

Lemma without_backslashes_id (s : str) :
  BACKSLASH ∉ s -> without_backslashes s = s.
Proof.
  intros H. unfold without_backslashes. induction s as [|c s IH]; [done|].
  rewrite filter_cons. apply not_elem_of_cons in H as [Hc Hs].
  rewrite decide_True by (by intros ->). f_equal. by apply IH.
Qed.

(** Property X6.  The plain-text fallback undoes the escaping: the fallback
    texts [chunk.replace(backslash, empty)] of the chunks of an escaped text,
    put together in order, are the original text without the backslashes it
    held itself; for a text that holds no backslash they are the original
    text. *)
Theorem fallback_restores_unescaped_text (s : str) :
  concat (map (replace [BACKSLASH] []) (split_message_default (escape_markdown_v2 s)))
  = without_backslashes s
  /\ (BACKSLASH ∉ s ->
      concat (map (replace [BACKSLASH] []) (split_message_default (escape_markdown_v2 s)))
      = s).
Proof.
  assert (concat (map (replace [BACKSLASH] [])
                    (split_message_default (escape_markdown_v2 s)))
          = without_backslashes s) as H.
  { rewrite (map_ext _ without_backslashes) by apply replace_backslash.
    rewrite <- without_backslashes_concat.
    rewrite (proj2 (split_message_default_returns _)).
    apply without_backslashes_escape. }
  split; [done|]. intros Hs. by rewrite H, without_backslashes_id.
Qed.

Lemma fallback_restores_unescaped_text_witness :
  concat (map (replace [BACKSLASH] [])
            (split_message_default (escape_markdown_v2 (lit "Hi **there**!"))))
  = lit "Hi **there**!".
Proof.
  apply (proj2 (fallback_restores_unescaped_text (lit "Hi **there**!"))).
  apply (bool_decide_unpack _). by vm_compute.
Defined.

(** An escaped text never starts with a reserved character. *)
Lemma escape_markdown_v2_head (s : str) (x : ascii) (r : str) :
  escape_markdown_v2 s = x :: r -> is_special x = false.
Proof.
  destruct s as [|c s]; [done|]. rewrite escape_markdown_v2_cons.
  unfold escape_char. destruct (is_special c) eqn:E; cbn [app].
  - intros [= <- _]. apply backslash_not_special.
  - by intros [= <- _].
Qed.

(** Property X7.  Escaping loses nothing: two different texts never have
    the same escaped form. *)
Theorem escape_markdown_v2_injective (s1 s2 : str) :
  s1 <> s2 -> escape_markdown_v2 s1 <> escape_markdown_v2 s2.
Proof.
  intros Hne Heq. apply Hne. clear Hne. revert s2 Heq.
  induction s1 as [|c1 s1 IH]; intros s2.
  - destruct s2 as [|c2 s2]; [done|]. rewrite escape_markdown_v2_cons.
    unfold escape_char. by destruct (is_special c2).
  - destruct s2 as [|c2 s2].
    + rewrite escape_markdown_v2_cons. unfold escape_char. by destruct (is_special c1).
    + rewrite !escape_markdown_v2_cons. unfold escape_char.
      destruct (is_special c1) eqn:E1, (is_special c2) eqn:E2; cbn [app].
      * intros [= -> H]. f_equal. by apply IH.
      * intros [= <- H]. symmetry in H. apply escape_markdown_v2_head in H. congruence.
      * intros [= -> H]. apply escape_markdown_v2_head in H. congruence.
      * intros [= -> H]. f_equal. by apply IH.
Qed.

Lemma escape_markdown_v2_injective_witness :
  lit "a\.b" <> lit "a.b"
  /\ escape_markdown_v2 (lit "a\.b") <> escape_markdown_v2 (lit "a.b").
Proof.
  split; [discriminate|].
  apply (escape_markdown_v2_injective (lit "a\.b") (lit "a.b")). discriminate.
Defined.

(** ** More on model discovery *)

Lemma add_model_eq (models : gmap str str) (m : model_info) :
  add_model models m =
  if supports_generate m then <[listed_id m := listed_name m]> models else models.
Proof. reflexivity. Qed.

Lemma fold_add_model_lookup (listed : list model_info) (k : str) :
  fold_left add_model listed ∅ !! k = listed_name <$> last (listed_as k listed).
Proof.
  unfold listed_as.
  induction listed as [|m listed IH] using rev_ind; [done|].
  rewrite fold_left_app. cbn [fold_left]. rewrite add_model_eq, filter_app.
  rewrite filter_cons, filter_nil.
  destruct (supports_generate m) eqn:Es.
  - destruct (decide (listed_id m = k)) as [<-|Hne].
    + rewrite lookup_insert_eq, decide_True by done. by rewrite last_snoc.
    + rewrite lookup_insert_ne by done.
      rewrite decide_False by (by intros [_ ?]). by rewrite app_nil_r.
  - rewrite decide_False by (by intros [? _]). by rewrite app_nil_r.
Qed.

Lemma replace_from_skip (old new x t : str) :
  replace_from old new (x ++ t) (length x) = replace_from old new t 0.
Proof. induction x as [|c x IH]; [done|]. exact IH. Qed.

Lemma startswith_app (p t : str) : startswith p (p ++ t) = true.
Proof. apply startswith_prefix. by exists t. Qed.

Lemma replace_at_prefix (c : ascii) (old new t : str) :
  replace (c :: old) new ((c :: old) ++ t) = new ++ replace (c :: old) new t.
Proof.
  pose proof (startswith_app (c :: old) t) as Hs. cbn [app] in Hs.
  unfold replace. cbn [app replace_from]. rewrite Hs.
  cbn [length]. rewrite Nat.sub_succ, Nat.sub_0_r.
  by rewrite replace_from_skip.
Qed.

Lemma replace_absent (old new t : str) :
  (forall q, ~ occurs_at old t q) -> replace old new t = t.
Proof.
  unfold replace. induction t as [|c t IH]; intros Hno; [done|].
  cbn [replace_from].
  destruct (startswith old (c :: t)) eqn:E.
  - apply occurs_at_zero in E. by apply Hno in E.
  - f_equal. apply IH. intros q Hq. apply (Hno (q + 1)).
    destruct Hq as (x & y & -> & <-). exists (c :: x), y. split; [done|].
    unfold len. simpl. lia.
Qed.

(** Property X8.  What a successful query leaves in the mapping.  When the
    cache is missing or stale and the provider answers with a listing, the
    result holds under a key the display name of the last listed model that
    supports [generateContent] and whose name, with every occurrence of
    [models/] removed, is that key; the display name is the key itself when
    the entry has no display name or an empty one; a key no such model has
    is absent.  For a name made of the prefix [models/] and an identifier
    that holds no further [models/], the key is the identifier. *)
Theorem get_available_models_lists_generating
    (w : world) (st : state) (listed : list model_info) :
  cache_fresh w st = false ->
  list_models w (query_tick st) = Ok listed ->
  (exists models st',
     get_available_models w st = (Ok models, st')
     /\ forall k, models !! k = listed_name <$> last (listed_as k listed))
  /\ (forall m, listed_name m =
                match m_display_name m with
                | Some (c :: d) => c :: d
                | _ => listed_id m
                end)
  /\ (forall m id,
        m_name m = MODELS_PREFIX ++ id ->
        (forall q, ~ occurs_at MODELS_PREFIX id q) ->
        listed_id m = id).
Proof.
  intros Hstale Hlist. split; [|split].
  - destruct (get_available_models_cases w st) as (models & st' & Heq & _ & _ & Hs).
    specialize (Hs Hstale). rewrite Hlist in Hs. subst models.
    exists (fold_left add_model listed ∅), st'. split; [done|]. apply fold_add_model_lookup.
  - intros m. unfold listed_name. by destruct (m_display_name m) as [[|??]|].
  - intros m id Hname Hno. unfold listed_id. rewrite Hname.
    unfold MODELS_PREFIX at 1 2.
    change (lit "models/") with ("m"%char :: lit "odels/").
    rewrite replace_at_prefix. cbn [app].
    apply replace_absent. exact Hno.
Qed.

Lemma get_available_models_lists_generating_witness :
  cache_fresh (listing_world sample_listing) initial_state = false
  /\ list_models (listing_world sample_listing) (query_tick initial_state)
     = Ok sample_listing
  /\ exists models st',
       get_available_models (listing_world sample_listing) initial_state
       = (Ok models, st')
       /\ forall k, models !! k = listed_name <$> last (listed_as k sample_listing).
Proof.
  split; [reflexivity|]. split; [reflexivity|].
  apply (get_available_models_lists_generating
           (listing_world sample_listing) initial_state sample_listing);
    reflexivity.
Defined.

(** ** The cache of [get_available_models] *)

Lemma get_available_models_fresh (w : world) (st : state) (c : gmap str str) :
  _model_cache st = Some c ->
  time_time w (tick st) - _model_cache_time st < MODEL_CACHE_TTL ->
  get_available_models w st = (Ok c, next_tick st).
Proof.
  intros Hc Ht. unfold get_available_models.
  unfold bind at 1. unfold get_state at 1. rewrite Hc.
  unfold bind at 1. unfold bind at 1. unfold time_now at 1. unfold ret at 1.
  cbn [tick next_tick _model_cache_time].
  by destruct (Z.ltb_spec (time_time w (tick st) - _model_cache_time st) MODEL_CACHE_TTL);
    [|lia].
Qed.

Lemma get_available_models_failed_refresh (w : world) (st : state)
    (c : gmap str str) (e : exn) :
  _model_cache st = Some c ->
  cache_fresh w st = false ->
  list_models w (query_tick st) = Raise e ->
  get_available_models w st = (Ok c, next_tick (next_tick st)).
Proof.
  unfold cache_fresh, query_tick. intros Hc Ht Hl. rewrite Hc in *.
  unfold get_available_models.
  unfold bind at 1. unfold get_state at 1. rewrite Hc.
  unfold bind at 1. unfold bind at 1. unfold time_now at 1. unfold ret at 1.
  rewrite Ht.
  unfold try_except, bind, list_models_all, modify, time_now, ret, get_state.
  cbn [tick next_tick _model_cache]. rewrite Hl.
  change (_model_cache (next_tick (next_tick st))) with (_model_cache st).
  by rewrite Hc.
Qed.

Lemma get_available_models_failed_first (w : world) (st : state) (e : exn) :
  _model_cache st = None ->
  list_models w (tick st) = Raise e ->
  get_available_models w st =
  (Ok FALLBACK_MODELS,
   next_tick (set_model_cache_time (time_time w (S (tick st)))
                (set_model_cache (Some FALLBACK_MODELS) (next_tick st)))).
Proof.
  intros Hc Hl. unfold get_available_models.
  unfold bind at 1. unfold get_state at 1. rewrite Hc.
  unfold bind at 1. unfold ret at 1.
  unfold try_except, bind, list_models_all, modify, time_now, ret, get_state.
  cbn [tick next_tick _model_cache]. rewrite Hl.
  change (_model_cache (next_tick st)) with (_model_cache st).
  by rewrite Hc.
Qed.

Lemma get_available_models_refreshed (w : world) (st : state) (listed : list model_info) :
  cache_fresh w st = false ->
  list_models w (query_tick st) = Ok listed ->
  exists st',
    get_available_models w st = (Ok (fold_left add_model listed ∅), st')
    /\ _model_cache st' = Some (fold_left add_model listed ∅)
    /\ _model_cache_time st' = time_time w (S (query_tick st)).
Proof.
  unfold cache_fresh, query_tick. intros Ht Hl.
  unfold get_available_models.
  unfold bind at 1. unfold get_state at 1.
  destruct (_model_cache st) as [c|] eqn:Hc.
  - unfold bind at 1. unfold bind at 1. unfold time_now at 1. unfold ret at 1.
    rewrite Ht.
    unfold try_except, bind, list_models_all, modify, time_now, ret, get_state.
    cbn [tick next_tick _model_cache]. rewrite Hl.
    eexists. split; [reflexivity|]. by cbn.
  - unfold bind at 1. unfold ret at 1.
    unfold try_except, bind, list_models_all, modify, time_now, ret, get_state.
    cbn [tick next_tick _model_cache]. rewrite Hl.
    eexists. split; [reflexivity|]. by cbn.
Qed.

(** What a call leaves in the cache. *)
Lemma get_available_models_cache (w : world) (st : state) :
  exists models,
    fst (get_available_models w st) = Ok models
    /\ _model_cache (snd (get_available_models w st)) = Some models.
Proof.
  destruct (cache_fresh w st) eqn:Hf.
  - unfold cache_fresh in Hf. destruct (_model_cache st) as [c|] eqn:Hc; [|done].
    apply Z.ltb_lt in Hf. rewrite (get_available_models_fresh w st c Hc Hf).
    by exists c.
  - destruct (list_models w (query_tick st)) as [listed|e] eqn:Hl.
    + destruct (get_available_models_refreshed w st listed Hf Hl) as (st' & Heq & Hc & _).
      exists (fold_left add_model listed ∅). by rewrite Heq.
    + destruct (_model_cache st) as [c|] eqn:Hc.
      * rewrite (get_available_models_failed_refresh w st c e Hc Hf Hl). by exists c.
      * unfold query_tick in Hl. rewrite Hc in Hl.
        rewrite (get_available_models_failed_first w st e Hc Hl).
        by exists FALLBACK_MODELS.
Qed.

(** Property X9.  Whatever [get_available_models] returns is what it leaves in
    the cache, and a cache that is younger than the time-to-live is served
    as it is: the call reads the clock and nothing else, and changes
    nothing. *)
Theorem get_available_models_serves_cache (w : world) (st : state) :
  (exists models,
     fst (get_available_models w st) = Ok models
     /\ _model_cache (snd (get_available_models w st)) = Some models)
  /\ (forall c,
        _model_cache st = Some c ->
        time_time w (tick st) - _model_cache_time st < MODEL_CACHE_TTL ->
        get_available_models w st = (Ok c, next_tick st)).
Proof.
  split; [apply get_available_models_cache|]. apply get_available_models_fresh.
Qed.

Lemma get_available_models_serves_cache_witness :
  let st := snd (get_available_models offline_world initial_state) in
  get_available_models offline_world st = (Ok FALLBACK_MODELS, next_tick st).
Proof.
  apply (proj2 (get_available_models_serves_cache offline_world
                  (snd (get_available_models offline_world initial_state))));
    reflexivity.
Defined.

(** Property X10.  A failed query and the age of the cache.  When refreshing a
    stale cache fails, the stale mapping is returned and the cache keeps its
    old time stamp, so it is still stale at any later reading of the clock
    that is not earlier, and the next call queries the provider again.  When
    the very first query fails, the fallback mapping is stored with the
    current time, so it is served without a query until the time-to-live
    has passed. *)
Theorem failed_query_and_cache_age (w : world) (st : state) (e : exn) :
  cache_fresh w st = false ->
  list_models w (query_tick st) = Raise e ->
  let st' := snd (get_available_models w st) in
  match _model_cache st with
  | Some c =>
      fst (get_available_models w st) = Ok c
      /\ _model_cache st' = Some c
      /\ _model_cache_time st' = _model_cache_time st
      /\ forall w2 st2,
           _model_cache st2 = _model_cache st' ->
           _model_cache_time st2 = _model_cache_time st' ->
           time_time w (tick st) <= time_time w2 (tick st2) ->
           cache_fresh w2 st2 = false
  | None =>
      fst (get_available_models w st) = Ok FALLBACK_MODELS
      /\ _model_cache st' = Some FALLBACK_MODELS
      /\ _model_cache_time st' = time_time w (S (tick st))
      /\ forall w2 st2,
           _model_cache st2 = _model_cache st' ->
           _model_cache_time st2 = _model_cache_time st' ->
           time_time w2 (tick st2) < time_time w (S (tick st)) + MODEL_CACHE_TTL ->
           get_available_models w2 st2 = (Ok FALLBACK_MODELS, next_tick st2)
  end.
Proof.
  intros Hf Hl. destruct (_model_cache st) as [c|] eqn:Hc; cbv zeta.
  - rewrite (get_available_models_failed_refresh w st c e Hc Hf Hl).
    cbn [fst snd next_tick _model_cache _model_cache_time].
    repeat split; [done|]. intros w2 st2 Hc2 Ht2 Hclock.
    unfold cache_fresh in *. rewrite Hc2, Hc in *. rewrite Ht2.
    apply Z.ltb_ge. apply Z.ltb_ge in Hf. lia.
  - unfold query_tick in Hl. rewrite Hc in Hl.
    rewrite (get_available_models_failed_first w st e Hc Hl).
    cbn [fst snd next_tick set_model_cache_time set_model_cache
           _model_cache _model_cache_time tick].
    repeat split. intros w2 st2 Hc2 Ht2 Hclock.
    apply get_available_models_fresh; [done|]. rewrite Ht2. lia.
Qed.

Lemma failed_query_and_cache_age_witness :
  let st' := snd (get_available_models offline_world initial_state) in
  fst (get_available_models offline_world initial_state) = Ok FALLBACK_MODELS
  /\ _model_cache st' = Some FALLBACK_MODELS
  /\ _model_cache_time st' = time_time offline_world 1
  /\ forall w2 st2,
       _model_cache st2 = _model_cache st' ->
       _model_cache_time st2 = _model_cache_time st' ->
       time_time w2 (tick st2) < time_time offline_world 1 + MODEL_CACHE_TTL ->
       get_available_models w2 st2 = (Ok FALLBACK_MODELS, next_tick st2).
Proof.
  apply (failed_query_and_cache_age offline_world initial_state (lit "unavailable"));
    reflexivity.
Defined.

(** ** The menu of [models_cmd] *)

Lemma models_cmd_eq (u : update) (w : world) (st : state)
    (models : gmap str str) (st1 : state) :
  get_available_models w st = (Ok models, st1) ->
  models_cmd u w st =
  call_telegram (models_reply models (current_model_name st (effective_user_id u))) w st1.
Proof.
  intros Heq. unfold models_cmd, models_reply.
  unfold bind at 1. unfold get_state at 1. unfold bind at 1. rewrite Heq.
  by destruct (bool_decide (models = ∅)).
Qed.

Lemma call_telegram_sent (c : api_call) (w : world) (st : state) :
  fst (call_telegram c w st) = after_send (telegram w (tick st) c)
  /\ sent (snd (call_telegram c w st)) = sent st ++ [(c, telegram w (tick st) c)]
  /\ user_data (snd (call_telegram c w st)) = user_data st
  /\ objects (snd (call_telegram c w st)) = objects st
  /\ _model_cache (snd (call_telegram c w st)) = _model_cache st.
Proof. unfold call_telegram. by destruct (telegram w (tick st) c). Qed.

Lemma fallback_models_not_empty : FALLBACK_MODELS <> ∅.
Proof.
  intros H. apply (f_equal (fun m => m !! lit "gemini-2.0-flash")) in H.
  rewrite lookup_empty in H. vm_compute in H. discriminate H.
Qed.

(** Property X11.  [/models] while the provider cannot be reached.  When the
    cache is missing or stale and the query raises, the handler still sends
    the menu, built from the stale cache or, without a cache, from the
    fallback mapping, and marked with the caller's current model; this is
    its only call.  The text that reports a failed fetch is not sent in this
    case, unless the stale cache is an empty mapping. *)
Theorem models_cmd_menu_when_provider_fails
    (u : update) (w : world) (st : state) (e : exn) :
  cache_fresh w st = false ->
  list_models w (query_tick st) = Raise e ->
  _model_cache st <> Some ∅ ->
  let shown := default FALLBACK_MODELS (_model_cache st) in
  let menu := reply_text (ModelsMenu shown (current_model_name st (effective_user_id u)))
                         (Some MARKDOWN_V2) in
  exists o,
    fst (models_cmd u w st) = after_send o
    /\ sent (snd (models_cmd u w st)) = sent st ++ [(menu, o)].
Proof.
  intros Hf Hl Hne shown menu.
  destruct (get_available_models_cases w st) as (models & st1 & Heq & Hsame & _ & Hs).
  specialize (Hs Hf). rewrite Hl in Hs. fold shown in Hs. subst models.
  rewrite (models_cmd_eq u w st shown st1 Heq).
  assert (shown <> ∅) as Hshown.
  { subst shown. destruct (_model_cache st) as [c|]; unfold default, id; cbn.
    - intros Hc. apply Hne. by rewrite Hc.
    - apply fallback_models_not_empty. }
  unfold models_reply. rewrite bool_decide_eq_false_2 by done. fold menu.
  destruct (call_telegram_sent menu w st1) as (Hr & Hsent & _).
  exists (telegram w (tick st1) menu). split; [done|].
  rewrite Hsent. by destruct Hsame as (_ & _ & ->).
Qed.

Lemma models_cmd_menu_when_provider_fails_witness :
  exists o,
    fst (models_cmd hello_update offline_world initial_state) = after_send o
    /\ sent (snd (models_cmd hello_update offline_world initial_state))
       = [(reply_text (ModelsMenu FALLBACK_MODELS DEFAULT_MODEL) (Some MARKDOWN_V2), o)].
Proof.
  apply (models_cmd_menu_when_provider_fails hello_update offline_world initial_state
           (lit "unavailable")); [reflexivity|reflexivity|discriminate].
Defined.

Lemma fold_add_model_none (listed : list model_info) :
  Forall (fun m => supports_generate m = false) listed ->
  fold_left add_model listed ∅ = ∅.
Proof.
  induction listed as [|m listed IH] using rev_ind; [done|].
  intros H. apply Forall_app in H as [Hl Hm]. inversion Hm as [|?? Hs _]; subst.
  rewrite fold_left_app. cbn [fold_left]. rewrite add_model_eq, Hs. by apply IH.
Qed.

(** Property X12.  [/models] after a listing without usable models.  When the
    provider answers and none of the listed models supports
    [generateContent] (an empty listing included), the handler's only call
    is the plain text that reports a failed fetch, and the empty mapping is
    stored as the cache. *)
Theorem models_cmd_reports_failure_on_empty_listing
    (u : update) (w : world) (st : state) (listed : list model_info) :
  cache_fresh w st = false ->
  list_models w (query_tick st) = Ok listed ->
  Forall (fun m => supports_generate m = false) listed ->
  exists o,
    fst (models_cmd u w st) = after_send o
    /\ sent (snd (models_cmd u w st)) = sent st ++ [(reply_text FetchFailed None, o)]
    /\ _model_cache (snd (models_cmd u w st)) = Some ∅.
Proof.
  intros Hf Hl Hnone.
  destruct (get_available_models_cases w st) as (models & st1 & Heq & Hsame & _ & _).
  destruct (get_available_models_refreshed w st listed Hf Hl) as (st1' & Heq' & Hc & _).
  rewrite Heq in Heq'. injection Heq' as -> <-.
  rewrite (fold_add_model_none listed Hnone) in *.
  rewrite (models_cmd_eq u w st ∅ st1 Heq).
  unfold models_reply. rewrite bool_decide_eq_true_2 by done.
  destruct (call_telegram_sent (reply_text FetchFailed None) w st1)
    as (Hr & Hsent & _ & _ & Hcache).
  exists (telegram w (tick st1) (reply_text FetchFailed None)).
  split; [done|]. split; [|by rewrite Hcache].
  rewrite Hsent. by destruct Hsame as (_ & _ & ->).
Qed.

Lemma models_cmd_reports_failure_on_empty_listing_witness :
  exists o,
    fst (models_cmd hello_update quiet_world initial_state) = after_send o
    /\ sent (snd (models_cmd hello_update quiet_world initial_state))
       = [] ++ [(reply_text FetchFailed None, o)]
    /\ _model_cache (snd (models_cmd hello_update quiet_world initial_state)) = Some ∅.
Proof.
  apply (models_cmd_reports_failure_on_empty_listing hello_update quiet_world
           initial_state []); [reflexivity|reflexivity|constructor].
Defined.

(** ** Relations between the states of a run *)

Lemma chat_handler_relay (u : update) :
  chat_handler u =
  let* data := get_user_chat (effective_user_id u) DEFAULT_MODEL in
  relay u (chat data).
Proof. reflexivity. Qed.

Section Steps.
Context (R : state -> state -> Prop) (w : world).
Hypothesis R_store :
  forall st st', user_data st' = user_data st -> objects st' = objects st -> R st st'.
Hypothesis R_trans : forall st1 st2 st3, R st1 st2 -> R st2 st3 -> R st1 st3.

Lemma steps_ret {A} (a : A) : steps R w (ret a).
Proof. intros st. by apply R_store. Qed.

Lemma steps_raise {A} (e : exn) : steps R w (raise (A:=A) e).
Proof. intros st. by apply R_store. Qed.

Lemma steps_get_state : steps R w get_state.
Proof. intros st. by apply R_store. Qed.

Lemma steps_bind {A B} (m : M A) (k : A -> M B) :
  steps R w m -> (forall a, steps R w (k a)) -> steps R w (bind m k).
Proof.
  intros Hm Hk st. unfold bind. specialize (Hm st).
  destruct (m w st) as [[a|e] st1]; [|done].
  eapply R_trans; [exact Hm|apply Hk].
Qed.

Lemma steps_try_except {A} (m : M A) (h : exn -> M A) :
  steps R w m -> (forall e, steps R w (h e)) -> steps R w (try_except m h).
Proof.
  intros Hm Hh st. unfold try_except. specialize (Hm st).
  destruct (m w st) as [[a|e] st1]; [done|].
  eapply R_trans; [exact Hm|apply Hh].
Qed.

Lemma steps_for_each {A} (l : list A) (body : A -> M unit) :
  (forall x, steps R w (body x)) -> steps R w (for_each l body).
Proof.
  intros Hbody. induction l as [|x l IH]; [apply steps_ret|].
  cbn [for_each]. apply steps_bind; [apply Hbody|by intros _].
Qed.

Lemma steps_GenerativeModel (name : str) : steps R w (GenerativeModel name).
Proof.
  intros st. unfold GenerativeModel.
  destruct (GenerativeModel_raises w name); by apply R_store.
Qed.

Lemma steps_fetch_photo : steps R w fetch_photo.
Proof. intros st. by apply R_store. Qed.

Lemma steps_call_telegram (c : api_call) : steps R w (call_telegram c).
Proof. intros st. rewrite call_telegram_eq. by apply R_store. Qed.

Lemma steps_get_available_models : steps R w get_available_models.
Proof.
  intros st.
  destruct (get_available_models_cases w st) as (models & st' & -> & (Hu & Ho & _) & _).
  by apply R_store.
Qed.

Lemma steps_get_model_display_name (model_id : str) :
  steps R w (get_model_display_name model_id).
Proof.
  apply steps_bind; [apply steps_get_available_models|]. intros models. apply steps_ret.
Qed.

Lemma steps_deliver_reply (parts : list (part_type * str)) :
  steps R w (deliver_reply parts).
Proof.
  apply steps_for_each. intros part. apply steps_for_each. intros chunk.
  destruct (fst part); apply steps_try_except; try (intros e); apply steps_call_telegram.
Qed.

Lemma steps_help_cmd (u : update) : steps R w (help_cmd u).
Proof. apply steps_call_telegram. Qed.

Lemma steps_models_cmd (u : update) : steps R w (models_cmd u).
Proof.
  apply steps_bind; [apply steps_get_state|]. intros st0.
  apply steps_bind; [apply steps_get_available_models|]. intros models.
  destruct (bool_decide (models = ∅)); apply steps_call_telegram.
Qed.

Lemma steps_relay (u : update) (c : nat) :
  (forall content, steps R w (send_message c content)) ->
  steps R w (relay u c).
Proof.
  intros Hsend. apply steps_try_except; [|intros e; apply steps_call_telegram].
  apply steps_bind.
  - destruct (message_photo u); [|apply steps_ret].
    apply steps_bind; [apply steps_fetch_photo|]. intros b. apply steps_ret.
  - intros content. apply steps_bind; [apply Hsend|].
    intros reply. apply steps_deliver_reply.
Qed.

Section ForUser.
Context (u : update).
Hypothesis R_get :
  forall name, steps R w (get_user_chat (effective_user_id u) name).
Hypothesis R_replace :
  forall name, steps R w (replace_session (effective_user_id u) name).
Hypothesis R_send : forall c content, steps R w (send_message c content).

Lemma steps_start : steps R w (start u).
Proof.
  apply steps_bind; [apply R_get|]. intros data.
  apply steps_bind; [apply steps_get_model_display_name|]. intros d.
  apply steps_call_telegram.
Qed.

Lemma steps_chat_handler : steps R w (chat_handler u).
Proof.
  rewrite chat_handler_relay.
  apply steps_bind; [apply R_get|]. intros data. apply steps_relay. apply R_send.
Qed.

Lemma steps_switch_body (name : str) (confirm : str -> api_call) :
  steps R w
    (GenerativeModel name;;
     replace_session (effective_user_id u) name;;
     let* display_name := get_model_display_name name in
     call_telegram (confirm display_name)).
Proof.
  apply steps_bind; [apply steps_GenerativeModel|]. intros _.
  apply steps_bind; [apply R_replace|]. intros _.
  apply steps_bind; [apply steps_get_model_display_name|]. intros d.
  apply steps_call_telegram.
Qed.

Lemma steps_switch_model : steps R w (switch_model u).
Proof.
  unfold switch_model. destruct (context_args u) as [|name more].
  - apply steps_models_cmd.
  - apply steps_try_except.
    + apply (steps_switch_body _ (fun d => reply_text (Switched d) (Some MARKDOWN_V2))).
    + intros e. apply steps_call_telegram.
Qed.

Lemma steps_model_callback : steps R w (model_callback u).
Proof.
  apply steps_bind; [apply steps_call_telegram|]. intros _. cbv zeta.
  destruct (startswith (lit "model:") (callback_data u)); [|apply steps_ret].
  destruct (split_once COLON (callback_data u)) as [|? [|name [|]]];
    try apply steps_raise.
  apply steps_try_except.
  - apply (steps_switch_body _
             (fun d => edit_message_text (SwitchedCleared d) (Some MARKDOWN_V2))).
  - intros e. apply steps_call_telegram.
Qed.

Lemma steps_new_chat : steps R w (new_chat u).
Proof.
  apply steps_bind; [apply steps_get_state|]. intros st0.
  apply steps_bind; [apply R_replace|]. intros _.
  apply steps_call_telegram.
Qed.

Lemma steps_handle (e : event) : steps R w (handle e u).
Proof.
  destruct e; cbn [handle].
  - apply steps_start.
  - apply steps_help_cmd.
  - apply steps_models_cmd.
  - apply steps_switch_model.
  - apply steps_model_callback.
  - apply steps_new_chat.
  - apply steps_chat_handler.
Qed.

End ForUser.
End Steps.

(** ** What the handlers do to the store *)

Lemma send_message_store (c : nat) (content : list content_part) (w : world) (st : state) :
  user_data (snd (send_message c content w st)) = user_data st
  /\ (objects (snd (send_message c content w st)) = objects st
      \/ exists cs reply,
           objects st !! c = Some cs
           /\ send_message_async w (tick st) cs content = Ok reply
           /\ objects (snd (send_message c content w st)) =
              <[c := {| chat_model := chat_model cs;
                        history := history cs ++
                          [(role_user, content); (role_model, [PText reply])] |}]>
                (objects st)).
Proof.
  unfold send_message. destruct (objects st !! c) as [cs|] eqn:Ec; [|by split; [|left]].
  destruct (send_message_async w (tick st) cs content) as [reply|e] eqn:Es.
  - split; [done|]. right. by exists cs, reply.
  - split; [done|by left].
Qed.

Section OwnSession.
Context (w : world) (user_id : Z).

Lemma own_session_store (st st' : state) :
  user_data st' = user_data st -> objects st' = objects st ->
  own_session user_id st st'.
Proof. intros Hu Ho. unfold own_session. rewrite Hu, Ho. by repeat split; [|left]. Qed.

Lemma own_session_trans (st1 st2 st3 : state) :
  own_session user_id st1 st2 -> own_session user_id st2 st3 ->
  own_session user_id st1 st3.
Proof.
  intros (Ho1 & Hl1 & Hf1) (Ho2 & Hl2 & Hf2). split; [|split].
  - intros v Hv. by rewrite Ho2, Ho1.
  - lia.
  - intros s' Hs'. destruct (Hf2 s' Hs') as [Hs|Hs]; [|right; lia].
    by apply Hf1.
Qed.

Lemma own_session_new (st : state) (name : str) :
  own_session user_id st
    (set_user_data <[user_id := {| chat := length (objects st); model_name := name |}]>
       (set_objects (fun os => os ++ [{| chat_model := name; history := [] |}]) st)).
Proof.
  split; [|split]; cbn [user_data objects set_user_data set_objects].
  - intros v Hv. by rewrite lookup_insert_ne.
  - rewrite length_app. lia.
  - rewrite lookup_insert_eq. intros s' [= <-]. by right.
Qed.

Lemma own_session_get_user_chat (name : str) :
  steps (own_session user_id) w (get_user_chat user_id name).
Proof.
  intros st. rewrite get_user_chat_eq.
  destruct (user_data st !! user_id); [by apply own_session_store|].
  destruct (GenerativeModel_raises w name); [by apply own_session_store|].
  apply own_session_new.
Qed.

Lemma own_session_replace_session (name : str) :
  steps (own_session user_id) w (replace_session user_id name).
Proof.
  intros st. rewrite replace_session_eq.
  destruct (GenerativeModel_raises w name); [by apply own_session_store|].
  apply own_session_new.
Qed.

Lemma own_session_send_message (c : nat) (content : list content_part) :
  steps (own_session user_id) w (send_message c content).
Proof.
  intros st. destruct (send_message_store c content w st) as [Hu [Ho|(cs & r & _ & _ & Ho)]].
  - by apply own_session_store.
  - unfold own_session. rewrite Hu, Ho, length_insert. by repeat split; [|left].
Qed.

End OwnSession.

Lemma own_session_handle (w : world) (e : event) (u : update) :
  steps (own_session (effective_user_id u)) w (handle e u).
Proof.
  apply steps_handle.
  - apply own_session_store.
  - apply own_session_trans.
  - apply own_session_get_user_chat.
  - apply own_session_replace_session.
  - apply own_session_send_message.
Qed.

Lemma state_ok_in_range (w : world) (st : state) (v : Z) (s : session) :
  state_ok w st -> user_data st !! v = Some s -> (chat s < length (objects st))%nat.
Proof.
  intros Hok Hs. destruct (Hok v s Hs) as (_ & cs & Hcs & _).
  by eapply lookup_lt_Some.
Qed.

Lemma sessions_apart_step (w : world) (user_id : Z) (st st' : state) :
  state_ok w st -> sessions_apart st -> own_session user_id st st' ->
  sessions_apart st'.
Proof.
  intros Hok Hap (Hothers & Hlen & Hfresh) u1 u2 s1 s2 H1 H2 Hc.
  destruct (decide (u1 = u2)) as [|Hne]; [done|exfalso].
  assert (forall v1 v2 t1 t2,
            v1 <> v2 -> v2 <> user_id ->
            user_data st' !! v1 = Some t1 -> user_data st' !! v2 = Some t2 ->
            chat t1 <> chat t2) as Hcase.
  { intros v1 v2 t1 t2 Hv Hv2 Ht1 Ht2 Heq.
    rewrite Hothers in Ht2 by done.
    pose proof (state_ok_in_range w st v2 t2 Hok Ht2) as Hr.
    destruct (decide (v1 = user_id)) as [->|Hv1].
    - destruct (Hfresh t1 Ht1) as [Ht|Ht]; [|lia].
      by apply Hv, (Hap user_id v2 t1 t2).
    - rewrite Hothers in Ht1 by done. by apply Hv, (Hap v1 v2 t1 t2). }
  destruct (decide (u2 = user_id)) as [Hu2|Hu2].
  - apply (Hcase u2 u1 s2 s1); congruence.
  - by apply (Hcase u1 u2 s1 s2).
Qed.

Lemma reachable_sessions_apart (w : world) (st : state) :
  reachable w st -> sessions_apart st.
Proof.
  induction 1 as [|st e u Hr IH].
  - intros u1 u2 s1 s2 H1. cbn [initial_state user_data] in H1.
    by rewrite lookup_empty in H1.
  - apply (sessions_apart_step w (effective_user_id u) st); [|done|].
    + by apply reachable_state_ok.
    + apply own_session_handle.
Qed.

(** Property X13.  In every state the bot can reach, each stored session names
    a model whose handle can be built and refers to an existing
    [ChatSession] object bound to that model, and no two users refer to the
    same object. *)
Theorem reachable_sessions_well_formed (w : world) (st : state) :
  reachable w st ->
  (forall user_id s,
     user_data st !! user_id = Some s ->
     GenerativeModel_raises w (model_name s) = None
     /\ exists cs, objects st !! chat s = Some cs /\ chat_model cs = model_name s)
  /\ (forall u1 u2 s1 s2,
        user_data st !! u1 = Some s1 -> user_data st !! u2 = Some s2 ->
        chat s1 = chat s2 -> u1 = u2).
Proof.
  intros Hr. split.
  - exact (reachable_state_ok w st Hr).
  - exact (reachable_sessions_apart w st Hr).
Qed.

Lemma reachable_after_two_hellos : reachable quiet_world after_two_hellos.
Proof. do 2 apply reachable_step. apply reachable_initial. Qed.

Lemma reachable_sessions_well_formed_witness :
  (forall user_id s,
     user_data after_two_hellos !! user_id = Some s ->
     GenerativeModel_raises quiet_world (model_name s) = None
     /\ exists cs,
          objects after_two_hellos !! chat s = Some cs /\ chat_model cs = model_name s)
  /\ (forall u1 u2 s1 s2,
        user_data after_two_hellos !! u1 = Some s1 ->
        user_data after_two_hellos !! u2 = Some s2 ->
        chat s1 = chat s2 -> u1 = u2).
Proof.
  apply (reachable_sessions_well_formed quiet_world after_two_hellos).
  apply reachable_after_two_hellos.
Defined.

Section ObjectsKept.
Context (w : world).

Lemma objects_kept_store (st st' : state) :
  user_data st' = user_data st -> objects st' = objects st -> objects_kept st st'.
Proof. intros _ Ho i cs. by rewrite Ho. Qed.

Lemma objects_kept_trans (st1 st2 st3 : state) :
  objects_kept st1 st2 -> objects_kept st2 st3 -> objects_kept st1 st3.
Proof. intros H1 H2 i cs Hi. by apply H2, H1. Qed.

Lemma objects_kept_new (st : state) (user_id : Z) (name : str) :
  objects_kept st
    (set_user_data <[user_id := {| chat := length (objects st); model_name := name |}]>
       (set_objects (fun os => os ++ [{| chat_model := name; history := [] |}]) st)).
Proof.
  intros i cs Hi. cbn [objects set_user_data set_objects]. by apply lookup_app_l_Some.
Qed.

Lemma objects_kept_get_user_chat (user_id : Z) (name : str) :
  steps objects_kept w (get_user_chat user_id name).
Proof.
  intros st. rewrite get_user_chat_eq.
  destruct (user_data st !! user_id); [by apply objects_kept_store|].
  destruct (GenerativeModel_raises w name); [by apply objects_kept_store|].
  apply objects_kept_new.
Qed.

Lemma objects_kept_replace_session (user_id : Z) (name : str) :
  steps objects_kept w (replace_session user_id name).
Proof.
  intros st. rewrite replace_session_eq.
  destruct (GenerativeModel_raises w name); [by apply objects_kept_store|].
  apply objects_kept_new.
Qed.

(** Every handler but [chat_handler] leaves the objects as they are. *)
Lemma objects_kept_handle (e : event) (u : update) :
  e <> on_chat -> steps objects_kept w (handle e u).
Proof.
  intros He.
  destruct e; cbn [handle]; [| | | | | |done];
    [apply steps_start|apply steps_help_cmd|apply steps_models_cmd
    |apply steps_switch_model|apply steps_model_callback|apply steps_new_chat];
    first [apply objects_kept_store | apply objects_kept_trans
          | apply objects_kept_get_user_chat | apply objects_kept_replace_session].
Qed.

Lemma touches_only_store (c : nat) (st st' : state) :
  user_data st' = user_data st -> objects st' = objects st -> touches_only c st st'.
Proof. intros Hu Ho. split; [done|]. intros i _. by rewrite Ho. Qed.

Lemma touches_only_trans (c : nat) (st1 st2 st3 : state) :
  touches_only c st1 st2 -> touches_only c st2 st3 -> touches_only c st1 st3.
Proof.
  intros [Hu1 Ho1] [Hu2 Ho2]. split; [congruence|].
  intros i Hi. by rewrite Ho2, Ho1.
Qed.

Lemma touches_only_send_message (c : nat) (content : list content_part) :
  steps (touches_only c) w (send_message c content).
Proof.
  intros st. destruct (send_message_store c content w st) as [Hu [Ho|(cs & r & _ & _ & Ho)]].
  - by apply touches_only_store.
  - split; [done|]. intros i Hi. rewrite Ho. by apply list_lookup_insert_ne.
Qed.

Lemma touches_only_relay (u : update) (c : nat) :
  steps (touches_only c) w (relay u c).
Proof.
  apply steps_relay.
  - apply touches_only_store.
  - apply touches_only_trans.
  - apply touches_only_send_message.
Qed.

End ObjectsKept.

(** The state in which [chat_handler] runs its relay, and the object the
    relay talks to. *)
Lemma chat_handler_cases (u : update) (w : world) (st : state) :
  (exists e,
     user_data st !! effective_user_id u = None
     /\ GenerativeModel_raises w DEFAULT_MODEL = Some e
     /\ chat_handler u w st = (Raise e, st))
  \/ (exists s,
        user_data st !! effective_user_id u = Some s
        /\ chat_handler u w st = relay u (chat s) w st)
  \/ (user_data st !! effective_user_id u = None
      /\ GenerativeModel_raises w DEFAULT_MODEL = None
      /\ chat_handler u w st =
         relay u (length (objects st)) w
           (set_user_data
              <[effective_user_id u := fresh_session st DEFAULT_MODEL]>
              (set_objects (fun os => os ++ [empty_chat DEFAULT_MODEL]) st))).
Proof.
  rewrite chat_handler_relay. unfold bind. rewrite get_user_chat_eq.
  destruct (user_data st !! effective_user_id u) as [s|] eqn:Es.
  - right. left. by exists s.
  - destruct (GenerativeModel_raises w DEFAULT_MODEL) as [e|] eqn:Ec.
    + left. by exists e.
    + right. right. done.
Qed.

(** Property X14.  Users are isolated from each other.  In a state the bot can
    reach, a handler run for one user leaves the session of every other user
    as it is, the stored entry as well as the [ChatSession] object it refers
    to, history included, whichever handler runs and however it ends. *)
Theorem handler_leaves_other_users_alone
    (w : world) (st : state) (e : event) (u : update) (v : Z) (s : session) :
  reachable w st ->
  v <> effective_user_id u ->
  user_data st !! v = Some s ->
  user_data (snd (handle e u w st)) !! v = Some s
  /\ objects (snd (handle e u w st)) !! chat s = objects st !! chat s.
Proof.
  intros Hr Hv Hs.
  pose proof (reachable_state_ok w st Hr) as Hok.
  pose proof (reachable_sessions_apart w st Hr) as Hap.
  destruct (own_session_handle w e u st) as (Hothers & _ & _).
  split; [by rewrite Hothers|].
  destruct (Hok v s Hs) as (_ & cs & Hcs & _).
  assert (e = on_chat \/ e <> on_chat) as [->|He]
    by (destruct e; first [by left|by right]).
  - cbn [handle].
    destruct (chat_handler_cases u w st)
      as [(e & _ & _ & ->)|[(sd & Hsd & ->)|(Hnone & _ & ->)]]; [done| |].
    + destruct (touches_only_relay w u (chat sd) st) as [_ Ho].
      apply Ho. intros Heq. apply Hv. by apply (Hap v (effective_user_id u) s sd).
    + pose proof (lookup_lt_Some _ _ _ Hcs) as Hlt.
      match goal with |- objects (snd (relay u _ w ?st1)) !! _ = _ =>
        destruct (touches_only_relay w u (length (objects st)) st1) as [_ Ho] end.
      rewrite Ho by lia. cbn [objects set_user_data set_objects].
      by rewrite lookup_app_l.
  - rewrite Hcs. by apply (objects_kept_handle w e u He st).
Qed.

Lemma handler_leaves_other_users_alone_witness :
  user_data (snd (handle on_chat hello_update quiet_world after_two_hellos)) !! 2
  = Some {| chat := 1; model_name := DEFAULT_MODEL |}
  /\ objects (snd (handle on_chat hello_update quiet_world after_two_hellos)) !! 1%nat
     = objects after_two_hellos !! 1%nat.
Proof.
  apply (handler_leaves_other_users_alone quiet_world after_two_hellos on_chat
           hello_update 2 {| chat := 1; model_name := DEFAULT_MODEL |}).
  - apply reachable_after_two_hellos.
  - discriminate.
  - reflexivity.
Defined.

Section SessionsKept.
Context (w : world).

Lemma sessions_kept_store (st st' : state) :
  user_data st' = user_data st -> objects st' = objects st -> sessions_kept st st'.
Proof. intros Hu _ v s. by rewrite Hu. Qed.

Lemma sessions_kept_trans (st1 st2 st3 : state) :
  sessions_kept st1 st2 -> sessions_kept st2 st3 -> sessions_kept st1 st3.
Proof. intros H1 H2 v s Hs. by apply H2, H1. Qed.

Lemma sessions_kept_get_user_chat (user_id : Z) (name : str) :
  steps sessions_kept w (get_user_chat user_id name).
Proof.
  intros st. rewrite get_user_chat_eq.
  destruct (user_data st !! user_id) eqn:E; [by apply sessions_kept_store|].
  destruct (GenerativeModel_raises w name); [by apply sessions_kept_store|].
  intros v s Hs. cbn [snd user_data set_user_data set_objects].
  rewrite lookup_insert_ne; [done|]. intros <-. congruence.
Qed.

Lemma sessions_kept_send_message (c : nat) (content : list content_part) :
  steps sessions_kept w (send_message c content).
Proof.
  intros st v s. by rewrite (proj1 (send_message_store c content w st)).
Qed.

End SessionsKept.

(** Property X15.  Only [/model], the model buttons and [/new] replace a
    session: [start], [help_cmd], [models_cmd] and [chat_handler] leave
    every stored session, the caller's included, referring to the same
    object under the same model name, however they end. *)
Theorem only_switch_and_reset_replace_sessions
    (w : world) (st : state) (e : event) (u : update) (v : Z) (s : session) :
  e = on_start \/ e = on_help \/ e = on_models \/ e = on_chat ->
  user_data st !! v = Some s ->
  user_data (snd (handle e u w st)) !! v = Some s.
Proof.
  intros He. revert v s. change (sessions_kept st (snd (handle e u w st))).
  destruct He as [->|[->|[->| ->]]]; cbn [handle].
  - apply steps_start;
      first [apply sessions_kept_store | apply sessions_kept_trans
            | apply sessions_kept_get_user_chat].
  - apply steps_help_cmd. apply sessions_kept_store.
  - apply steps_models_cmd; first [apply sessions_kept_store | apply sessions_kept_trans].
  - apply steps_chat_handler;
      first [apply sessions_kept_store | apply sessions_kept_trans
            | apply sessions_kept_get_user_chat | apply sessions_kept_send_message].
Qed.

Lemma only_switch_and_reset_replace_sessions_witness :
  user_data (snd (handle on_start hello_update quiet_world after_hello)) !! 1
  = Some {| chat := 0; model_name := DEFAULT_MODEL |}.
Proof.
  apply (only_switch_and_reset_replace_sessions quiet_world after_hello on_start
           hello_update 1 {| chat := 0; model_name := DEFAULT_MODEL |}).
  - by left.
  - reflexivity.
Defined.

Section HistoriesGrow.
Context (w : world).

Lemma histories_grow_refl (st st' : state) :
  user_data st' = user_data st -> objects st' = objects st -> histories_grow st st'.
Proof. intros _ Ho i cs Hi. exists cs. by rewrite Ho. Qed.

Lemma histories_grow_trans (st1 st2 st3 : state) :
  histories_grow st1 st2 -> histories_grow st2 st3 -> histories_grow st1 st3.
Proof.
  intros H1 H2 i cs Hi.
  destruct (H1 i cs Hi) as (cs2 & Hi2 & Hm2 & Hp2).
  destruct (H2 i cs2 Hi2) as (cs3 & Hi3 & Hm3 & Hp3).
  exists cs3. split; [done|]. split; [congruence|]. by etrans.
Qed.

Lemma histories_grow_kept (st st' : state) :
  objects_kept st st' -> histories_grow st st'.
Proof. intros H i cs Hi. exists cs. split; [by apply H|done]. Qed.

Lemma histories_grow_get_user_chat (user_id : Z) (name : str) :
  steps histories_grow w (get_user_chat user_id name).
Proof. intros st. apply histories_grow_kept, objects_kept_get_user_chat. Qed.

Lemma histories_grow_replace_session (user_id : Z) (name : str) :
  steps histories_grow w (replace_session user_id name).
Proof. intros st. apply histories_grow_kept, objects_kept_replace_session. Qed.

Lemma histories_grow_send_message (c : nat) (content : list content_part) :
  steps histories_grow w (send_message c content).
Proof.
  intros st.
  destruct (send_message_store c content w st) as [Hu [Ho|(cs & r & Hc & _ & Ho)]].
  - by apply histories_grow_refl.
  - intros i cs0 Hi. rewrite Ho. destruct (decide (i = c)) as [->|Hne].
    + eexists. split; [apply list_lookup_insert_eq; by eapply lookup_lt_Some|].
      cbn [chat_model history]. simplify_eq. split; [done|]. by apply prefix_app_r.
    + exists cs0. by rewrite list_lookup_insert_ne.
Qed.

End HistoriesGrow.

(** Property X16.  Conversations are append-only.  No handler rebinds a
    [ChatSession] object to another model or rewrites the turns it has
    recorded: after any handler, every object has the model it had and a
    history that starts with the history it had.  Only [chat_handler]
    changes an object at all; clearing the memory and switching the model
    create a new object and leave the existing ones as they were. *)
Theorem histories_are_append_only
    (w : world) (st : state) (e : event) (u : update) (i : nat) (cs : ChatSession) :
  objects st !! i = Some cs ->
  (exists cs',
     objects (snd (handle e u w st)) !! i = Some cs'
     /\ chat_model cs' = chat_model cs
     /\ history cs `prefix_of` history cs')
  /\ (e <> on_chat -> objects (snd (handle e u w st)) !! i = Some cs).
Proof.
  intros Hi. split.
  - revert i cs Hi. change (histories_grow st (snd (handle e u w st))).
    apply steps_handle;
      first [apply histories_grow_refl | apply histories_grow_trans
            | apply histories_grow_get_user_chat | apply histories_grow_replace_session
            | apply histories_grow_send_message].
  - intros He. by apply (objects_kept_handle w e u He st).
Qed.

Lemma histories_are_append_only_witness :
  exists cs',
    objects (snd (handle on_chat hello_update quiet_world after_hello)) !! 0%nat = Some cs'
    /\ chat_model cs' = DEFAULT_MODEL
    /\ [(role_user, [PText (lit "Hello")]); (role_model, [PText (lit "ok")])]
         `prefix_of` history cs'.
Proof.
  refine (proj1 (histories_are_append_only quiet_world after_hello on_chat hello_update 0
                   {| chat_model := DEFAULT_MODEL;
                      history := [(role_user, [PText (lit "Hello")]);
                                  (role_model, [PText (lit "ok")])] |} _)).
  reflexivity.
Defined.

(** ** The relay of [chat_handler] *)

(** The relay when the request fails: the notice is the only call. *)
Lemma relay_failed (u : update) (c : nat) (w : world) (st : state)
    (cs : ChatSession) (e : exn) :
  objects st !! c = Some cs ->
  ask u w st cs = Raise e ->
  exists st1,
    relay u c w st = call_telegram (error_notice e) w st1
    /\ user_data st1 = user_data st /\ objects st1 = objects st /\ sent st1 = sent st.
Proof.
  intros Hc. unfold ask, relay. fold (user_text u).
  unfold try_except, bind, fetch_photo, ret, send_message.
  destruct (message_photo u).
  - destruct (download_photo w (tick st)) as [b|e0] eqn:Ed.
    + cbn [objects tick next_tick]. rewrite Hc.
      destruct (send_message_async w (S (tick st)) cs _) as [r|e1]; [done|].
      intros [= ->]. by eexists.
    + intros [= ->]. by eexists.
  - rewrite Hc.
    destruct (send_message_async w (tick st) cs _) as [r|e1]; [done|].
    intros [= ->]. by eexists.
Qed.

(** The relay when the model answers: the turn is recorded, then the reply
    is delivered. *)
Lemma relay_answered (u : update) (c : nat) (w : world) (st : state)
    (cs : ChatSession) (content : list content_part) (reply : str) :
  objects st !! c = Some cs ->
  ask u w st cs = Ok (content, reply) ->
  exists st1,
    relay u c w st =
    match deliver_reply (format_for_telegram_simple reply) w st1 with
    | (Ok a, st2) => (Ok a, st2)
    | (Raise e, st2) => call_telegram (error_notice e) w st2
    end
    /\ user_data st1 = user_data st
    /\ objects st1 = <[c := with_turn cs content reply]> (objects st)
    /\ sent st1 = sent st.
Proof.
  intros Hc. unfold ask, relay. fold (user_text u).
  unfold try_except, bind, fetch_photo, ret, send_message.
  destruct (message_photo u).
  - destruct (download_photo w (tick st)) as [b|e0] eqn:Ed; [|done].
    cbn [objects tick next_tick]. rewrite Hc.
    destruct (send_message_async w (S (tick st)) cs _) as [r|e1]; [|done].
    intros [= <- <-]. by eexists.
  - rewrite Hc.
    destruct (send_message_async w (tick st) cs _) as [r|e1]; [|done].
    intros [= <- <-]. by eexists.
Qed.

Lemma chat_handler_known (u : update) (w : world) (st : state) (s : session) :
  user_data st !! effective_user_id u = Some s ->
  chat_handler u w st = relay u (chat s) w st.
Proof.
  intros Hs. rewrite chat_handler_relay. unfold bind. by rewrite get_user_chat_eq, Hs.
Qed.

Lemma replies_app (l1 l2 : list (api_call * option exn)) :
  replies (l1 ++ l2) = replies l1 ++ replies l2.
Proof. apply filter_app. Qed.

Lemma replies_notice (e : exn) (o : option exn) :
  replies [(error_notice e, o)] = [(error_notice e, o)].
Proof. reflexivity. Qed.

(** Every call of a delivery is a message. *)
Lemma replies_delivery (chunks : list str) (calls : list (api_call * option exn))
    (r : outcome unit) :
  delivery chunks calls r -> replies calls = calls.
Proof.
  induction 1 as [|chunk chunks c1 c2 r Hatt Hd IH|chunk chunks c1 e Hatt].
  - done.
  - rewrite replies_app, IH. f_equal. by destruct Hatt.
  - by destruct Hatt.
Qed.

(** The run of [chat_handler] when the request fails. *)
Lemma chat_handler_failed (u : update) (w : world) (st : state) (s : session)
    (cs : ChatSession) (e : exn) :
  user_data st !! effective_user_id u = Some s ->
  objects st !! chat s = Some cs ->
  ask u w st cs = Raise e ->
  exists o,
    fst (chat_handler u w st) = after_send o
    /\ sent (snd (chat_handler u w st)) = sent st ++ [(error_notice e, o)]
    /\ user_data (snd (chat_handler u w st)) = user_data st
    /\ objects (snd (chat_handler u w st)) = objects st.
Proof.
  intros Hs Hc Hask. rewrite (chat_handler_known u w st s Hs).
  destruct (relay_failed u (chat s) w st cs e Hc Hask) as (st1 & -> & Hu & Ho & Hsent).
  rewrite call_telegram_eq. exists (telegram w (tick st1) (error_notice e)).
  cbn [fst snd sent user_data objects next_tick log_sent].
  by rewrite Hu, Ho, Hsent.
Qed.

(** Property X17.  A failed request.  For a user with a session, when
    fetching the photo or asking the model raises an exception, the one
    message the handler sends is the plain notice that carries the text of
    the exception; the stored sessions and every history are as before, and
    the handler ends as the sending of that notice does.  (The statement is
    about the messages sent with [reply_text]; the chat actions of the
    typing indicator are not messages.) *)
Theorem chat_handler_reports_failed_request
    (u : update) (w : world) (st : state) (s : session) (cs : ChatSession) (e : exn) :
  user_data st !! effective_user_id u = Some s ->
  objects st !! chat s = Some cs ->
  ask u w st cs = Raise e ->
  exists o,
    fst (chat_handler u w st) = after_send o
    /\ replies (sent (snd (chat_handler u w st)))
       = replies (sent st) ++ [(error_notice e, o)]
    /\ user_data (snd (chat_handler u w st)) = user_data st
    /\ objects (snd (chat_handler u w st)) = objects st.
Proof.
  intros Hs Hc Hask.
  destruct (chat_handler_failed u w st s cs e Hs Hc Hask) as (o & Hr & Hsent & Hu & Ho).
  exists o. split; [done|]. split; [|done].
  by rewrite Hsent, replies_app, replies_notice.
Qed.

Lemma chat_handler_reports_failed_request_witness :
  exists o,
    fst (chat_handler hello_update model_down_world after_hello) = after_send o
    /\ replies (sent (snd (chat_handler hello_update model_down_world after_hello)))
       = replies (sent after_hello) ++ [(error_notice (lit "quota exceeded"), o)]
    /\ user_data (snd (chat_handler hello_update model_down_world after_hello))
       = user_data after_hello
    /\ objects (snd (chat_handler hello_update model_down_world after_hello))
       = objects after_hello.
Proof.
  apply (chat_handler_reports_failed_request hello_update model_down_world after_hello
           {| chat := 0; model_name := DEFAULT_MODEL |}
           {| chat_model := DEFAULT_MODEL;
              history := [(role_user, [PText (lit "Hello")]);
                          (role_model, [PText (lit "ok")])] |});
    reflexivity.
Defined.

(** What follows a recorded turn. *)
Lemma chat_handler_answered (u : update) (w : world) (st : state) (s : session)
    (cs : ChatSession) (content : list content_part) (reply : str) :
  user_data st !! effective_user_id u = Some s ->
  objects st !! chat s = Some cs ->
  ask u w st cs = Ok (content, reply) ->
  let r := fst (chat_handler u w st) in
  let st' := snd (chat_handler u w st) in
  user_data st' = user_data st
  /\ objects st' = <[chat s := with_turn cs content reply]> (objects st)
  /\ exists calls r0,
       delivery (reply_chunks (format_for_telegram_simple reply)) calls r0
       /\ match r0 with
          | Ok _ => r = Ok tt /\ sent st' = sent st ++ calls
          | Raise e =>
              exists o, r = after_send o
                        /\ sent st' = sent st ++ calls ++ [(error_notice e, o)]
          end.
Proof.
  intros Hs Hc Hask. cbv zeta. rewrite (chat_handler_known u w st s Hs).
  destruct (relay_answered u (chat s) w st cs content reply Hc Hask)
    as (st1 & -> & Hu & Ho & Hsent).
  destruct (deliver_reply_delivery (format_for_telegram_simple reply) w st1)
    as (calls & Hd & Hsent2 & Hu2 & Ho2).
  destruct (deliver_reply (format_for_telegram_simple reply) w st1) as [[[]|e] st2].
  - cbn [fst snd] in *. split; [congruence|]. split; [congruence|].
    exists calls, (Ok tt). split; [done|]. split; [done|congruence].
  - cbn [fst snd] in *. rewrite call_telegram_eq.
    cbn [fst snd sent user_data objects next_tick log_sent].
    split; [congruence|]. split; [congruence|].
    exists calls, (Raise e). split; [done|].
    exists (telegram w (tick st2) (error_notice e)). split; [done|].
    by rewrite Hsent2, Hsent, <- app_assoc.
Qed.

(** Property X18.  An answered request.  For a user with a session, when
    the model answers, the user's [ChatSession] object gains exactly the
    turn sent (the text, and the photo as a JPEG image when there is one)
    and the reply, and nothing else in the store changes.  The messages the
    handler sends are the delivery of the chunks of the formatted reply;
    when the delivery ends in an exception, one plain notice with the text
    of that exception follows, and the turn stays recorded.  (The statement
    is about the messages sent with [reply_text]; the chat actions of the
    typing indicator are not messages.) *)
Theorem chat_handler_records_turn_and_delivers
    (u : update) (w : world) (st : state) (s : session)
    (cs : ChatSession) (content : list content_part) (reply : str) :
  user_data st !! effective_user_id u = Some s ->
  objects st !! chat s = Some cs ->
  ask u w st cs = Ok (content, reply) ->
  let r := fst (chat_handler u w st) in
  let st' := snd (chat_handler u w st) in
  user_data st' = user_data st
  /\ objects st' = <[chat s := with_turn cs content reply]> (objects st)
  /\ exists calls r0,
       delivery (reply_chunks (format_for_telegram_simple reply)) calls r0
       /\ match r0 with
          | Ok _ => r = Ok tt /\ replies (sent st') = replies (sent st) ++ calls
          | Raise e =>
              exists o,
                r = after_send o
                /\ replies (sent st')
                   = replies (sent st) ++ calls ++ [(error_notice e, o)]
          end.
Proof.
  intros Hs Hc Hask. cbv zeta.
  destruct (chat_handler_answered u w st s cs content reply Hs Hc Hask)
    as (Hu & Ho & calls & r0 & Hd & Hr).
  split; [done|]. split; [done|]. exists calls, r0. split; [done|].
  pose proof (replies_delivery _ _ _ Hd) as Hcalls.
  destruct r0 as [[]|e].
  - destruct Hr as [Hr Hsent]. split; [done|].
    by rewrite Hsent, replies_app, Hcalls.
  - destruct Hr as (o & Hr & Hsent). exists o. split; [done|].
    by rewrite Hsent, !replies_app, Hcalls, replies_notice.
Qed.

Lemma chat_handler_records_turn_and_delivers_witness :
  let r := fst (chat_handler hello_update markdown_rejecting_world after_hello) in
  let st' := snd (chat_handler hello_update markdown_rejecting_world after_hello) in
  user_data st' = user_data after_hello
  /\ objects st'
     = <[0%nat := with_turn
                    {| chat_model := DEFAULT_MODEL;
                       history := [(role_user, [PText (lit "Hello")]);
                                   (role_model, [PText (lit "ok")])] |}
                    [PText (lit "Hello")] (lit "Hi **there**!")]> (objects after_hello)
  /\ exists calls r0,
       delivery (reply_chunks (format_for_telegram_simple (lit "Hi **there**!"))) calls r0
       /\ match r0 with
          | Ok _ => r = Ok tt /\ replies (sent st') = replies (sent after_hello) ++ calls
          | Raise e =>
              exists o,
                r = after_send o
                /\ replies (sent st')
                   = replies (sent after_hello) ++ calls ++ [(error_notice e, o)]
          end.
Proof.
  apply (chat_handler_records_turn_and_delivers hello_update markdown_rejecting_world
           after_hello {| chat := 0; model_name := DEFAULT_MODEL |});
    reflexivity.
Defined.

(** Property X19.  A reply that formats to nothing is swallowed.  When the
    model's reply gives no segment (a reply of white space only, or one that
    opens a fence and never closes it), the turn is recorded in the history
    and the handler returns without sending a message: the user receives
    no text, not even a notice.  (The statement is about the messages sent
    with [reply_text]; the chat actions of the typing indicator are not
    messages.) *)
Theorem chat_handler_sends_nothing_for_empty_format
    (u : update) (w : world) (st : state) (s : session)
    (cs : ChatSession) (content : list content_part) (reply : str) :
  user_data st !! effective_user_id u = Some s ->
  objects st !! chat s = Some cs ->
  ask u w st cs = Ok (content, reply) ->
  format_for_telegram_simple reply = [] ->
  fst (chat_handler u w st) = Ok tt
  /\ replies (sent (snd (chat_handler u w st))) = replies (sent st)
  /\ objects (snd (chat_handler u w st))
     = <[chat s := with_turn cs content reply]> (objects st).
Proof.
  intros Hs Hc Hask Hfmt.
  destruct (chat_handler_answered u w st s cs content reply Hs Hc Hask)
    as (_ & Ho & calls & r0 & Hd & Hr).
  rewrite Hfmt in Hd. cbn [reply_chunks flat_map] in Hd.
  inversion Hd; subst. destruct Hr as [Hr Hsent].
  split; [done|]. split; [by rewrite Hsent, app_nil_r|done].
Qed.

Lemma chat_handler_sends_nothing_for_empty_format_witness :
  fst (chat_handler hello_update blank_reply_world after_hello) = Ok tt
  /\ replies (sent (snd (chat_handler hello_update blank_reply_world after_hello)))
     = replies (sent after_hello)
  /\ objects (snd (chat_handler hello_update blank_reply_world after_hello))
     = <[0%nat := with_turn
                    {| chat_model := DEFAULT_MODEL;
                       history := [(role_user, [PText (lit "Hello")]);
                                   (role_model, [PText (lit "ok")])] |}
                    [PText (lit "Hello")] (lit "  ")]> (objects after_hello).
Proof.
  apply (chat_handler_sends_nothing_for_empty_format hello_update blank_reply_world
           after_hello {| chat := 0; model_name := DEFAULT_MODEL |});
    reflexivity.
Defined.

(** ** First contact *)

Lemma same_store_store (st st' : state) :
  user_data st' = user_data st -> objects st' = objects st -> same_store st st'.
Proof. by split. Qed.

Lemma same_store_trans (st1 st2 st3 : state) :
  same_store st1 st2 -> same_store st2 st3 -> same_store st1 st3.
Proof. intros [] []. split; congruence. Qed.

Lemma same_store_banner (w : world) (name : str) :
  steps same_store w
    (let* model_display := get_model_display_name name in
     call_telegram (reply_text (StartBanner model_display) None)).
Proof.
  apply steps_bind; [apply same_store_trans| |].
  - apply steps_get_model_display_name;
      first [apply same_store_store | apply same_store_trans].
  - intros d. apply steps_call_telegram. apply same_store_store.
Qed.

(** Property X20.  The first contact of a user depends on the default model.
    For a user without a session, when no handle can be built for the
    default model, [start], [new_chat] and [chat_handler] raise the
    exception of the constructor to their caller: no call is made, so the
    user receives no message, not even an error notice, and nothing is
    stored. *)
Theorem first_contact_raises_without_default_model
    (w : world) (st : state) (e : event) (u : update) (err : exn) :
  e = on_start \/ e = on_new \/ e = on_chat ->
  user_data st !! effective_user_id u = None ->
  GenerativeModel_raises w DEFAULT_MODEL = Some err ->
  handle e u w st = (Raise err, st).
Proof.
  intros He Hnone Hbad. destruct He as [->|[->| ->]]; cbn [handle].
  - unfold start, bind. by rewrite get_user_chat_eq, Hnone, Hbad.
  - rewrite new_chat_eq. unfold current_model_name. rewrite Hnone. cbv zeta.
    by rewrite Hbad.
  - rewrite chat_handler_relay. unfold bind. by rewrite get_user_chat_eq, Hnone, Hbad.
Qed.

Lemma first_contact_raises_without_default_model_witness :
  handle on_chat hello_update no_model_world initial_state
  = (Raise (lit "invalid API key"), initial_state).
Proof.
  apply (first_contact_raises_without_default_model no_model_world initial_state
           on_chat hello_update (lit "invalid API key")).
  - right. by right.
  - reflexivity.
  - reflexivity.
Defined.

(** Property X21.  The first contact creates the session.  For a user without
    a session, when the handle of the default model can be built, [start],
    [new_chat] and [chat_handler] store a session under the default model
    that refers to a new [ChatSession] object bound to that model; after
    [start] and [new_chat] its history is empty. *)
Theorem first_contact_creates_default_session
    (w : world) (st : state) (e : event) (u : update) :
  e = on_start \/ e = on_new \/ e = on_chat ->
  user_data st !! effective_user_id u = None ->
  GenerativeModel_raises w DEFAULT_MODEL = None ->
  let st' := snd (handle e u w st) in
  user_data st' !! effective_user_id u = Some (fresh_session st DEFAULT_MODEL)
  /\ objects st !! length (objects st) = None
  /\ exists cs,
       objects st' !! length (objects st) = Some cs
       /\ chat_model cs = DEFAULT_MODEL
       /\ (e <> on_chat -> history cs = []).
Proof.
  intros He Hnone Hok. cbv zeta.
  set (st1 := set_user_data <[effective_user_id u := fresh_session st DEFAULT_MODEL]>
                (set_objects (fun os => os ++ [empty_chat DEFAULT_MODEL]) st)).
  assert (user_data st1 !! effective_user_id u = Some (fresh_session st DEFAULT_MODEL))
    as Hu1 by apply lookup_insert_eq.
  assert (objects st1 !! length (objects st) = Some (empty_chat DEFAULT_MODEL)) as Ho1.
  { subst st1. cbn [objects set_user_data set_objects].
    by rewrite lookup_app_r, Nat.sub_diag. }
  split; [|split; [by apply lookup_ge_None|]].
  - destruct He as [->|[->| ->]]; cbn [handle].
    + unfold start. unfold bind at 1. rewrite get_user_chat_eq, Hnone, Hok. fold st1.
      pose proof (same_store_banner w (model_name (fresh_session st DEFAULT_MODEL)))
        as Hst.
      destruct (Hst st1) as [Hu _].
      exact (eq_trans (f_equal (fun m => m !! effective_user_id u) Hu) Hu1).
    + rewrite new_chat_eq. unfold current_model_name. rewrite Hnone. cbv zeta.
      rewrite Hok. fold st1. by rewrite call_telegram_eq.
    + destruct (chat_handler_cases u w st)
        as [(e & _ & Hbad & _)|[(sd & Hsd & _)|(_ & _ & ->)]]; [congruence..|].
      fold st1. by destruct (touches_only_relay w u (length (objects st)) st1) as [-> _].
  - destruct He as [->|[->| ->]]; cbn [handle].
    + unfold start. unfold bind at 1. rewrite get_user_chat_eq, Hnone, Hok. fold st1.
      pose proof (same_store_banner w (model_name (fresh_session st DEFAULT_MODEL)))
        as Hst.
      destruct (Hst st1) as [_ Ho]. exists (empty_chat DEFAULT_MODEL).
      split; [|done].
      exact (eq_trans (f_equal (fun o => o !! length (objects st)) Ho) Ho1).
    + rewrite new_chat_eq. unfold current_model_name. rewrite Hnone. cbv zeta.
      rewrite Hok. fold st1. rewrite call_telegram_eq.
      by exists (empty_chat DEFAULT_MODEL).
    + destruct (chat_handler_cases u w st)
        as [(e & _ & Hbad & _)|[(sd & Hsd & _)|(_ & _ & ->)]]; [congruence..|].
      fold st1.
      assert (histories_grow st1 (snd (relay u (length (objects st)) w st1))) as Hg.
      { apply steps_relay;
          first [apply histories_grow_refl | apply histories_grow_trans
                | intros content; apply histories_grow_send_message]. }
      destruct (Hg _ _ Ho1) as (cs & Hcs & Hm & _). by exists cs.
Qed.

Lemma first_contact_creates_default_session_witness :
  let st' := snd (handle on_start hello_update quiet_world initial_state) in
  user_data st' !! 1 = Some (fresh_session initial_state DEFAULT_MODEL)
  /\ objects initial_state !! 0%nat = None
  /\ exists cs,
       objects st' !! 0%nat = Some cs
       /\ chat_model cs = DEFAULT_MODEL
       /\ (on_start <> on_chat -> history cs = []).
Proof.
  apply (first_contact_creates_default_session quiet_world initial_state on_start
           hello_update).
  - by left.
  - reflexivity.
  - reflexivity.
Defined.

(** ** The messages of a delivery *)

Lemma format_part_nonempty (part : str) (pt : part_type) (seg : str) :
  (pt, seg) ∈ format_part part -> seg <> [].
Proof.
  unfold format_part. destruct (startswith FENCE part).
  - destruct (re_match fence_match_re part) as [[caps rest]|].
    + intros H. apply list_elem_of_singleton in H. by injection H as -> ->.
    + by intros H%not_elem_of_nil.
  - destruct (strip part) as [|x r] eqn:E.
    + by intros H%not_elem_of_nil.
    + intros H. apply list_elem_of_singleton in H. injection H as -> ->.
      destruct part as [|c part]; [done|].
      rewrite escape_markdown_v2_cons. unfold escape_char.
      by destruct (is_special c).
Qed.

Lemma format_segment_nonempty (t : str) (pt : part_type) (seg : str) :
  (pt, seg) ∈ format_for_telegram_simple t -> seg <> [].
Proof.
  unfold format_for_telegram_simple. intros H.
  apply list_elem_of_In, in_flat_map in H as (part & _ & H).
  by apply list_elem_of_In, format_part_nonempty in H.
Qed.

Lemma split_message_default_sizes (seg : str) :
  seg <> [] ->
  Forall (fun c => 1 <= len c <= DEFAULT_MAX_LENGTH) (split_message_default seg).
Proof.
  intros Hne. unfold split_message_default.
  assert (1 <= DEFAULT_MAX_LENGTH) as Hm by done.
  assert (0 <= DEFAULT_MAX_LENGTH / 2) as Hhalf by done.
  destruct (split_message_shape seg DEFAULT_MAX_LENGTH Hm)
    as [[Hle ->]|(Hgt & cut & last & -> & _ & _ & Hall & Hlast)]; unfold default, id; cbn.
  - constructor; [|done]. destruct seg; [done|]. unfold len in *. simpl in *. lia.
  - apply Forall_app. split.
    + eapply Forall_impl; [exact Hall|]. simpl. intros; lia.
    + destruct Hlast as [->|(r & -> & Hr)]; [done|]. by constructor.
Qed.

Lemma len_without_backslashes (c : str) : len (without_backslashes c) <= len c.
Proof.
  unfold len, without_backslashes.
  pose proof (length_filter (fun x => x <> BACKSLASH) c). lia.
Qed.

Lemma chunk_attempt_fits (chunk : str) (calls : list (api_call * option exn))
    (r : outcome unit) :
  1 <= len chunk <= DEFAULT_MAX_LENGTH ->
  chunk_attempt chunk calls r ->
  Forall (fun call => fits_a_message (fst call)) calls.
Proof.
  intros Hlen Hatt.
  assert (fits_a_message (formatted_send chunk)) as Hf.
  { exists chunk, (Some MARKDOWN_V2). split; [done|]. split; [lia|]. intros _. lia. }
  assert (fits_a_message (plain_send chunk)) as Hp.
  { exists (without_backslashes chunk), None. split; [done|].
    pose proof (len_without_backslashes chunk). split; [lia|done]. }
  destruct Hatt; repeat constructor; done.
Qed.

Lemma delivery_fits (chunks : list str) (calls : list (api_call * option exn))
    (r : outcome unit) :
  Forall (fun c => 1 <= len c <= DEFAULT_MAX_LENGTH) chunks ->
  delivery chunks calls r ->
  Forall (fun call => fits_a_message (fst call)) calls.
Proof.
  intros Hall Hd. induction Hd as [|chunk chunks c1 c2 r Hatt Hd IH|chunk chunks c1 e Hatt].
  - done.
  - inversion Hall; subst. apply Forall_app. split.
    + by apply (chunk_attempt_fits chunk _ (Ok tt)).
    + by apply IH.
  - inversion Hall; subst. by apply (chunk_attempt_fits chunk _ (Raise e)).
Qed.

Lemma reply_chunks_sizes (t : str) :
  Forall (fun c => 1 <= len c <= DEFAULT_MAX_LENGTH)
    (reply_chunks (format_for_telegram_simple t)).
Proof.
  unfold reply_chunks. apply Forall_forall. intros chunk Hin.
  apply list_elem_of_In, in_flat_map in Hin as ([pt seg] & Hseg & Hchunk).
  apply list_elem_of_In, format_segment_nonempty in Hseg.
  pose proof (split_message_default_sizes seg Hseg) as Hall.
  rewrite Forall_forall in Hall. apply Hall. by apply list_elem_of_In.
Qed.

(** Property X22.  Every message of a reply fits.  Whatever the reply of the
    model and whatever the platform answers, each call made while
    delivering the formatted reply sends a text of at most 4000 characters,
    and a text sent with the dialect's formatting is never empty. *)
Theorem delivered_messages_fit (reply : str) (w : world) (st : state) :
  exists calls,
    sent (snd (deliver_reply (format_for_telegram_simple reply) w st)) = sent st ++ calls
    /\ Forall (fun call => fits_a_message (fst call)) calls.
Proof.
  destruct (deliver_reply_delivery (format_for_telegram_simple reply) w st)
    as (calls & Hd & Hsent & _).
  exists calls. split; [done|].
  eapply delivery_fits; [apply reply_chunks_sizes|exact Hd].
Qed.

(** Property X23.  A reset followed by a message.  In a state the bot can
    reach, after [new_chat] for a user with a session, the next message of
    that user that the model answers leaves the user's session under the
    same model name, referring to an object whose history is that turn and
    its reply and nothing else: nothing of the earlier conversation is sent
    along or kept. *)
Theorem reset_then_chat_starts_over
    (w : world) (st : state) (u u2 : update) (s : session)
    (content : list content_part) (reply : str) :
  reachable w st ->
  user_data st !! effective_user_id u = Some s ->
  effective_user_id u2 = effective_user_id u ->
  let st1 := snd (new_chat u w st) in
  ask u2 w st1 (empty_chat (model_name s)) = Ok (content, reply) ->
  let st2 := snd (chat_handler u2 w st1) in
  exists s2,
    user_data st2 !! effective_user_id u = Some s2
    /\ model_name s2 = model_name s
    /\ objects st2 !! chat s2
       = Some {| chat_model := model_name s;
                 history := [(role_user, content); (role_model, [PText reply])] |}.
Proof.
  intros Hreach Hs Hu st1 Hask st2.
  apply reachable_state_ok in Hreach. destruct (Hreach _ _ Hs) as (Hok & _).
  assert (user_data st1 !! effective_user_id u2 = Some (fresh_session st (model_name s))
          /\ objects st1 = objects st ++ [empty_chat (model_name s)]) as [Hu1 Ho1].
  { subst st1. rewrite new_chat_eq. unfold current_model_name. rewrite Hs. cbv zeta.
    rewrite Hok, call_telegram_eq.
    cbn [snd user_data objects next_tick log_sent set_user_data set_objects].
    rewrite Hu. split; [apply lookup_insert_eq|done]. }
  assert (objects st1 !! chat (fresh_session st (model_name s))
          = Some (empty_chat (model_name s))) as Hc1.
  { rewrite Ho1. cbn [chat fresh_session]. by rewrite lookup_app_r, Nat.sub_diag. }
  destruct (chat_handler_answered u2 w st1 _ _ content reply Hu1 Hc1 Hask)
    as (Hu2 & Ho2 & _).
  exists (fresh_session st (model_name s)). fold st2 in Hu2, Ho2.
  split; [by rewrite Hu2, <- Hu|]. split; [done|].
  rewrite Ho2. apply list_lookup_insert_eq. by eapply lookup_lt_Some.
Qed.

Lemma reset_then_chat_starts_over_witness :
  let st1 := snd (new_chat hello_update quiet_world after_hello) in
  let st2 := snd (chat_handler hello_update quiet_world st1) in
  exists s2,
    user_data st2 !! 1 = Some s2
    /\ model_name s2 = DEFAULT_MODEL
    /\ objects st2 !! chat s2
       = Some {| chat_model := DEFAULT_MODEL;
                 history := [(role_user, [PText (lit "Hello")]);
                             (role_model, [PText (lit "ok")])] |}.
Proof.
  apply (reset_then_chat_starts_over quiet_world after_hello hello_update hello_update
           {| chat := 0; model_name := DEFAULT_MODEL |}).
  - apply reachable_step, reachable_initial.
  - reflexivity.
  - reflexivity.
  - reflexivity.
Defined.
